(** * pyoculus.solvers.qfm: quadratic-flux-minimising surfaces

    A shallow embedding of [src/pyoculus/solvers/qfm.py] and the properties
    its specification states about it.

    Numbers are modelled as the code has them: Python [int] as [Z], numpy
    [float64] as the kernel's binary64 [float], 1D arrays as [list float],
    2D arrays as lists of rows.  Python exceptions are values of [exn]
    carried by the [result] monad.  The numerical libraries the module calls
    (numpy's FFT and trigonometry, scipy's root finder, the field model) are
    parameters of the embedding: the code is verified for every
    implementation of them that has the documented output shapes. *)

From Stdlib Require Import String DecimalString ZArith List Lia Bool Floats.
Import ListNotations.

#[local] Open Scope Z_scope.

(* ================================================================== *)
(** * Part I: the embedding *)
(* ================================================================== *)

(** ** Python and numpy substrate *)

Module Py.

(** The exception classes the module can raise, with their message. *)
Inductive exn : Type :=
| ValueError (msg : string)
| RuntimeError (msg : string)
| IndexError
| AttributeError
| ZeroDivisionError.

Inductive result (A : Type) : Type :=
| Ok (a : A)
| Raise (e : exn).
Arguments Ok {A} a.
Arguments Raise {A} e.

Definition bind {A B} (c : result A) (k : A -> result B) : result B :=
  match c with
  | Ok a => k a
  | Raise e => Raise e
  end.


(** [len(l)] *)
Definition len {A} (l : list A) : Z := Z.of_nat (length l).

(** [range(n)] *)
Definition range (n : Z) : list Z := map Z.of_nat (seq 0 (Z.to_nat n)).

(** A slice bound as Python normalises it: a negative bound counts from
    the end, and every bound is clipped to [0 .. len]. *)
Definition clip (n i : Z) : Z :=
  if i <? 0 then Z.max (i + n) 0 else Z.min i n.

(** [l[lo:hi]]; [hi = None] is the open slice [l[lo:]]. *)
Definition slice {A} (l : list A) (lo : Z) (hi : option Z) : list A :=
  let n := len l in
  let a := clip n lo in
  let b := match hi with Some h => clip n h | None => n end in
  firstn (Z.to_nat (b - a)) (skipn (Z.to_nat a) l).

(** An item index: negative indices count from the end, and an index
    outside the array raises. *)
Definition index (n i : Z) : result nat :=
  let j := if i <? 0 then i + n else i in
  if (0 <=? j) && (j <? n) then Ok (Z.to_nat j) else Raise IndexError.

(** [l[i]] *)
Definition getitem {A} (l : list A) (i : Z) : result A :=
  bind (index (len l) i) (fun j =>
    match nth_error l j with
    | Some x => Ok x
    | None => Raise IndexError
    end).

Fixpoint update {A} (l : list A) (j : nat) (x : A) : list A :=
  match l, j with
  | [], _ => []
  | _ :: t, O => x :: t
  | h :: t, S j' => h :: update t j' x
  end.

(** [l[i] = x] *)
Definition setitem {A} (l : list A) (i : Z) (x : A) : result (list A) :=
  bind (index (len l) i) (fun j => Ok (update l j x)).

(** Python [int] to [float64], for integers below [2^63] in magnitude
    (array sizes, mode numbers and loop counters). *)
Definition float_of_Z (z : Z) : float :=
  match z with
  | Z0 => PrimFloat.zero
  | Zpos _ => PrimFloat.of_uint63 (Uint63.of_Z z)
  | Zneg _ => PrimFloat.opp (PrimFloat.of_uint63 (Uint63.of_Z (- z)))
  end.

End Py.

Export Py.

Declare Scope result_scope.
Delimit Scope result_scope with result.
Notation "x <- c ;; k" := (Py.bind c (fun x => k))
  (at level 61, c at next level, right associativity) : result_scope.
Notation "' p <- c ;; k" := (Py.bind c (fun x => match x with p => k end))
  (at level 61, p pattern, c at next level, right associativity) : result_scope.
#[local] Open Scope result_scope.

(** ** The orbit degrees-of-freedom codec *)

Module Codec.

(** The tuple [(nv, rcn, tsn, rsn, tcn)]. *)
Record dof : Type := Dof {
  nv : float;
  rcn : list float;
  tsn : list float;
  rsn : list float;
  tcn : list float
}.

(** [QFM._unpack_dof] *)
Definition _unpack_dof (xx : list float) : result dof :=
  let qN := (len xx - 1) / 4 in
  x0 <- getitem xx 0 ;;
  let nv := (x0 - 1)%float in
  let rcn := map (fun v => (v - 1)%float) (slice xx 1 (Some (qN + 2))) in
  let tsn :=
    [0%float]
      ++ map (fun v => (v - 1)%float) (slice xx (qN + 2) (Some (2 * qN + 1)))
      ++ [0%float] in
  let rsn :=
    [0%float]
      ++ map (fun v => (v - 1)%float) (slice xx (2 * qN + 1) (Some (3 * qN)))
      ++ [0%float] in
  let tcn := map (fun v => (v - 1)%float) (slice xx (3 * qN) None) in
  Ok (Dof nv rcn tsn rsn tcn).

(** [QFM._pack_dof] *)
Definition _pack_dof (nv : float) (rcn tsn rsn tcn : list float) : list float :=
  map (fun v => (v + 1)%float)
    ([nv] ++ rcn ++ slice tsn 1 (Some (-1)) ++ slice rsn 1 (Some (-1)) ++ tcn).

Definition pack (d : dof) : list float :=
  _pack_dof (nv d) (rcn d) (tsn d) (rsn d) (tcn d).

End Codec.


(** ** numpy arrays: construction, broadcasting, indexing *)

Module Np.

Definition broadcast_error : exn :=
  ValueError "operands could not be broadcast together"%string.
Definition assign_error : exn :=
  ValueError "could not broadcast input array"%string.
Definition negative_dimensions : exn :=
  ValueError "negative dimensions are not allowed"%string.

(** [np.pi] *)
Definition pi : float := 0x1.921fb54442d18p+1%float.

(** The Python conditional [raise e] guarded by a test. *)
Definition guard (b : bool) (e : exn) : result unit :=
  if b then Ok tt else Raise e.

(** [np.zeros(n)], [np.zeros([r, c])], [np.zeros_like(x)] *)
Definition zeros (n : Z) : result (list float) :=
  _ <- guard (0 <=? n) negative_dimensions ;;
  Ok (repeat 0%float (Z.to_nat n)).

Definition zeros2 (r c : Z) : result (list (list float)) :=
  _ <- guard ((0 <=? r) && (0 <=? c)) negative_dimensions ;;
  Ok (repeat (repeat 0%float (Z.to_nat c)) (Z.to_nat r)).

Definition zeros_like (x : list float) : list float :=
  repeat 0%float (length x).

(** [np.arange(lo, hi)] *)
Definition arange (lo hi : Z) : list Z := map (fun i => lo + i) (range (hi - lo)).

(** [np.arange(hi, lo, -1)] *)
Definition arange_down (hi lo : Z) : list Z := map (fun i => hi - i) (range (hi - lo)).

(** [np.linspace(start, stop, num, endpoint=False)] *)
Definition linspace (start stop : float) (num : Z) : result (list float) :=
  _ <- guard (0 <=? num) (ValueError "Number of samples must be non-negative"%string) ;;
  let delta := (stop - start)%float in
  let step := (delta / float_of_Z num)%float in
  Ok (map (fun i =>
             if PrimFloat.eqb step 0
             then (float_of_Z i / float_of_Z num * delta + start)%float
             else (float_of_Z i * step + start)%float)
          (range num)).

Fixpoint zip_with {A B C} (f : A -> B -> C) (a : list A) (b : list B) : list C :=
  match a, b with
  | x :: a', y :: b' => f x y :: zip_with f a' b'
  | _, _ => []
  end.

(** An elementwise binary operation on 1D arrays, with numpy's
    broadcasting of a length-one operand. *)
Definition ew2 {A B C} (f : A -> B -> C) (a : list A) (b : list B)
  : result (list C) :=
  if len a =? len b then Ok (zip_with f a b)
  else match a, b with
       | [x], _ => Ok (map (f x) b)
       | _, [y] => Ok (map (fun x => f x y) a)
       | _, _ => Raise broadcast_error
       end.

Fixpoint sequence {A} (l : list (result A)) : result (list A) :=
  match l with
  | [] => Ok []
  | c :: l' => x <- c ;; xs <- sequence l' ;; Ok (x :: xs)
  end.

(** The same on 2D arrays: rows are broadcast, then columns. *)
Definition ew2_2d {A B C} (f : A -> B -> C)
    (a : list (list A)) (b : list (list B)) : result (list (list C)) :=
  rows <- ew2 (ew2 f) a b ;; sequence rows.

(** [a[:, np.newaxis]] and [a.flatten()] *)
Definition column {A} (a : list A) : list (list A) := map (fun x => [x]) a.
Definition flatten {A} (m : list (list A)) : list A := concat m.

(** Number of columns of a 2D array ([shape[-1]]); an array without rows
    is taken to have none. *)
Definition ncols {A} (m : list (list A)) : Z :=
  match m with [] => 0 | r :: _ => len r end.

(** [l[lo:hi] = v] *)
Definition setslice {A} (l : list A) (lo : Z) (hi : option Z) (v : list A)
  : result (list A) :=
  let n := len l in
  let a := clip n lo in
  let b := match hi with Some h => clip n h | None => n end in
  let k := Z.to_nat (b - a) in
  let pre := firstn (Z.to_nat a) l in
  let post := skipn (Z.to_nat a + k) l in
  if len v =? Z.of_nat k then Ok (pre ++ v ++ post)
  else match v with
       | [x] => Ok (pre ++ repeat x k ++ post)
       | _ => Raise assign_error
       end.

(** [m[r0:r1, c0:c1] = v] *)
Definition setslice2 {A} (m : list (list A)) (r0 : Z) (r1 : option Z)
    (c0 : Z) (c1 : option Z) (v : list (list A)) : result (list (list A)) :=
  let n := len m in
  let a := clip n r0 in
  let b := match r1 with Some h => clip n h | None => n end in
  let k := Z.to_nat (b - a) in
  let pre := firstn (Z.to_nat a) m in
  let mid := firstn k (skipn (Z.to_nat a) m) in
  let post := skipn (Z.to_nat a + k) m in
  vs <- (if len v =? Z.of_nat k then Ok v
         else match v with
              | [x] => Ok (repeat x k)
              | _ => Raise assign_error
              end) ;;
  mid' <- sequence (zip_with (fun row val => setslice row c0 c1 val) mid vs) ;;
  Ok (pre ++ mid' ++ post).

(** [m[i, :] = v] *)
Definition setrow {A} (m : list (list A)) (i : Z) (v : list A)
  : result (list (list A)) :=
  row <- getitem m i ;;
  row' <- setslice row 0 None v ;;
  setitem m i row'.

(** [m[i, :] = f(m[i, :])], as in [m[i, :] *= 2] *)
Definition maprow {A} (f : A -> A) (m : list (list A)) (i : Z)
  : result (list (list A)) :=
  row <- getitem m i ;;
  setitem m i (map f row).

(** [m[..., j] = f(m[..., j])] on every row *)
Definition mapcol {A} (f : A -> A) (m : list (list A)) (j : Z)
  : result (list (list A)) :=
  sequence (map (fun row => x <- getitem row j ;; setitem row j (f x)) m).

(** [m[:, j] = v] *)
Definition setcol {A} (m : list (list A)) (j : Z) (v : list A)
  : result (list (list A)) :=
  vs <- (if len v =? len m then Ok v
         else match v with
              | [x] => Ok (repeat x (length m))
              | _ => Raise assign_error
              end) ;;
  sequence (zip_with (fun row x => setitem row j x) m vs).

(** [row[idxlist]]: gather by an index array *)
Definition take {A} (row : list A) (idx : list Z) : result (list A) :=
  sequence (map (getitem row) idx).

(** [row[idxlist] = v]: scatter by an index array; a repeated index keeps
    the value written last. *)
Definition put {A} (row : list A) (idx : list Z) (v : list A)
  : result (list A) :=
  js <- sequence (map (index (len row)) idx) ;;
  vs <- (if len v =? len idx then Ok v
         else match v with
              | [x] => Ok (repeat x (length idx))
              | _ => Raise assign_error
              end) ;;
  Ok (fold_left (fun acc jx => update acc (fst jx) (snd jx)) (combine js vs) row).

(** [m[r0:r1, idxlist]] *)
Definition take_cols {A} (m : list (list A)) (r0 : Z) (r1 : option Z)
    (idx : list Z) : result (list (list A)) :=
  sequence (map (fun row => take row idx) (slice m r0 r1)).

(** [m[r0:r1, idxlist] = v] *)
Definition put_cols {A} (m : list (list A)) (r0 : Z) (r1 : option Z)
    (idx : list Z) (v : list (list A)) : result (list (list A)) :=
  let n := len m in
  let a := clip n r0 in
  let b := match r1 with Some h => clip n h | None => n end in
  let k := Z.to_nat (b - a) in
  let pre := firstn (Z.to_nat a) m in
  let mid := firstn k (skipn (Z.to_nat a) m) in
  let post := skipn (Z.to_nat a + k) m in
  vs <- (if len v =? Z.of_nat k then Ok v
         else match v with
              | [x] => Ok (repeat x k)
              | _ => Raise assign_error
              end) ;;
  mid' <- sequence (zip_with (fun row val => put row idx val) mid vs) ;;
  Ok (pre ++ mid' ++ post).

(** [m[idx, j]]: gather one column at an array of row indices *)
Definition take_rows_at {A} (m : list (list A)) (idx : list Z) (j : Z)
  : result (list A) :=
  sequence (map (fun i => row <- getitem m i ;; getitem row j) idx).

(** [np.reshape(a, [r, c])] *)
Fixpoint chunks {A} (r : nat) (c : nat) (a : list A) : list (list A) :=
  match r with
  | O => []
  | S r' => firstn c a :: chunks r' c (skipn c a)
  end.

Definition reshape {A} (a : list A) (r c : Z) : result (list (list A)) :=
  _ <- guard ((0 <=? r) && (0 <=? c) && (len a =? r * c))
         (ValueError "cannot reshape array"%string) ;;
  Ok (chunks (Z.to_nat r) (Z.to_nat c) a).

(** [np.stack([r, t, z], -1)] *)
Definition stack3 {A} (r t z : list A) : result (list (A * A * A)) :=
  _ <- guard ((len r =? len t) && (len r =? len z))
         (ValueError "all input arrays must have the same shape"%string) ;;
  Ok (zip_with (fun rt zz => (fst rt, snd rt, zz)) (zip_with pair r t) z).

(** [np.maximum] on scalars: a NaN operand is propagated. *)
Definition maximum (a b : float) : float :=
  if PrimFloat.leb b a || PrimFloat.is_nan a then a else b.

(** [np.max(a)] *)
Definition max (a : list float) : result float :=
  match a with
  | [] => Raise (ValueError "zero-size array to reduction operation maximum"%string)
  | x :: xs => Ok (fold_left maximum xs x)
  end.

(** [np.sum(m, axis=0)] *)
Definition sum_axis0 (m : list (list float)) : list float :=
  match m with
  | [] => []
  | r :: rs => fold_left (zip_with PrimFloat.add) rs r
  end.

End Np.

(** ** The spectral transform library *)

Module Spectral.

(** [complex128] *)
Record complex : Type := Cx { re : float; im : float }.

Definition of_real (x : float) : complex := Cx x 0.
Definition csub (a b : complex) : complex :=
  Cx (re a - re b) (im a - im b).
Definition cmul (a b : complex) : complex :=
  Cx (re a * re b - im a * im b) (re a * im b + im a * re b).

(** [numpy.fft], consumed through four entry points:
    [rfft(a)] and [irfft(a, n)] along the last axis, and
    [rfft2(a, axes=[-1, -2])] and [irfft2(a, axes=[-1, -2])], whose real
    transform runs along the first axis. *)
Record FFT : Type := {
  rfft : list float -> list complex;
  irfft : list complex -> Z -> list float;
  rfft2 : list (list float) -> list (list complex);
  irfft2 : list (list complex) -> list (list float)
}.

Definition invalid_points : exn :=
  ValueError "Invalid number of FFT data points"%string.

(** [idxlist]: column [0], then [-1 .. -ntor], then [ntor .. 1]. *)
Definition idxlist (ntor : Z) : list Z :=
  [0] ++ map Z.opp (Np.arange 1 (ntor + 1)) ++ Np.arange_down ntor 0.

Section Transforms.

Variable fft : FFT.

Definition np_fft_rfft (a : list float) : result (list complex) :=
  _ <- Np.guard (1 <=? len a) invalid_points ;;
  Ok (rfft fft a).

Definition np_fft_irfft (a : list complex) (n : Z) : result (list float) :=
  _ <- Np.guard (1 <=? n) invalid_points ;;
  Ok (irfft fft a n).

Definition np_fft_rfft2 (a : list (list float)) : result (list (list complex)) :=
  _ <- Np.guard ((1 <=? len a) && (1 <=? Np.ncols a)) invalid_points ;;
  Ok (rfft2 fft a).

Definition np_fft_irfft2 (a : list (list complex)) : result (list (list float)) :=
  _ <- Np.guard ((1 <=? 2 * (len a - 1)) && (1 <=? Np.ncols a)) invalid_points ;;
  Ok (irfft2 fft a).

(** [rfft1D(f)] for a 1D array [f] *)
Definition rfft1D (f : list float) : result (list float * list float) :=
  let Nfft := len f in
  ffft <- np_fft_rfft f ;;
  let cosout := map (fun z => (re z / float_of_Z Nfft * 2)%float) ffft in
  c0 <- getitem cosout 0 ;;
  cosout <- setitem cosout 0 (c0 / 2)%float ;;
  let sinout := map (fun z => (- im z / float_of_Z Nfft * 2)%float) ffft in
  sinout <- setitem sinout 0 0%float ;;
  Ok (cosout, sinout).

(** [rfft1D(f)] for a 2D array [f]: the transform runs along the last
    axis, and [[..., 0]] addresses column 0 of every row. *)
Definition rfft1D_batched (f : list (list float))
  : result (list (list float) * list (list float)) :=
  let Nfft := Np.ncols f in
  ffft <- Np.sequence (map np_fft_rfft f) ;;
  let cosout :=
    map (map (fun z => (re z / float_of_Z Nfft * 2)%float)) ffft in
  cosout <- Np.mapcol (fun c => (c / 2)%float) cosout 0 ;;
  let sinout :=
    map (map (fun z => (- im z / float_of_Z Nfft * 2)%float)) ffft in
  sinout <- Np.mapcol (fun _ => 0%float) sinout 0 ;;
  Ok (cosout, sinout).

(** The entry [(cos_in - complex(0, 1) * sin_in) * Nfft] of [ffft]. *)
Definition spectrum_entry (Nfft : Z) (c s : float) : complex :=
  cmul (csub (of_real c) (cmul (Cx 0 1) (of_real s)))
       (of_real (float_of_Z Nfft)).

(** [irfft1D(cos_in, sin_in, nfft_multiplier)] for 1D arrays.  The
    nulled copy [sin_in_new] is built as the source builds it; the
    spectrum [ffft] is formed, as in the source, from [sin_in]. *)
Definition irfft1D (cos_in sin_in : list float) (nfft_multiplier : Z)
  : result (list float) :=
  let Nfft := nfft_multiplier * (len cos_in - 1) in
  let sin_in_new := sin_in in
  sin_in_new <- setitem sin_in_new 0 0%float ;;
  sin_in_new <- setitem sin_in_new (-1) 0%float ;;
  ffft <- Np.ew2 (spectrum_entry Nfft) cos_in sin_in ;;
  f0 <- getitem ffft 0 ;;
  ffft <- setitem ffft 0 (cmul f0 (of_real 2)) ;;
  np_fft_irfft ffft (2 * Nfft).

(** [irfft1D] for 2D arrays: [sin_in_new[0] = 0] and
    [sin_in_new[-1] = 0] then address the first and last row. *)
Definition irfft1D_batched (cos_in sin_in : list (list float))
    (nfft_multiplier : Z) : result (list (list float)) :=
  let Nfft := nfft_multiplier * (Np.ncols cos_in - 1) in
  let sin_in_new := sin_in in
  r0 <- getitem sin_in_new 0 ;;
  sin_in_new <- setitem sin_in_new 0 (map (fun _ => 0%float) r0) ;;
  r1 <- getitem sin_in_new (-1) ;;
  sin_in_new <- setitem sin_in_new (-1) (map (fun _ => 0%float) r1) ;;
  ffft <- Np.ew2_2d (spectrum_entry Nfft) cos_in sin_in ;;
  ffft <- Np.mapcol (fun z => cmul z (of_real 2)) ffft 0 ;;
  Np.sequence (map (fun row => np_fft_irfft row (2 * Nfft)) ffft).

(** One of [fftcos], [fftsin] of [rfft2D]: scaled, with the first and
    last row halved. *)
Definition half_weight (part : complex -> float) (Nfft1 Nfft2 : Z)
    (fftout : list (list complex)) : result (list (list float)) :=
  let a :=
    map (map (fun z =>
      (part z / float_of_Z Nfft1 / float_of_Z Nfft2 * 2)%float)) fftout in
  a <- Np.maprow (fun x => (x / 2)%float) a 0 ;;
  Np.maprow (fun x => (x / 2)%float) a (-1).

(** [rfft2D(f, mpol, ntor)] *)
Definition rfft2D (f : list (list float)) (mpol ntor : option Z)
  : result (list (list float) * list (list float)) :=
  let Nfft1 := len f in
  let Nfft2 := Np.ncols f in
  fftout <- np_fft_rfft2 f ;;
  fftcos <- half_weight re Nfft1 Nfft2 fftout ;;
  fftsin <- half_weight (fun z => (- im z)%float) Nfft1 Nfft2 fftout ;;
  let mpol := match mpol with Some m => m | None => Nfft1 / 4 end in
  let ntor := match ntor with Some n => n | None => Nfft2 / 4 end in
  cn <- Np.zeros2 (mpol + 1) (2 * ntor + 1) ;;
  sn <- Np.zeros2 (mpol + 1) (2 * ntor + 1) ;;
  let idxlist := idxlist ntor in
  vc <- Np.take_cols fftcos 0 (Some (mpol + 1)) idxlist ;;
  cn <- Np.setslice2 cn 0 (Some (mpol + 1)) 0 None vc ;;
  vs <- Np.take_cols fftsin 0 (Some (mpol + 1)) idxlist ;;
  sn <- Np.setslice2 sn 0 (Some (mpol + 1)) 0 None vs ;;
  Ok (cn, sn).

(** One of [cn_pad], [sn_pad] of [irfft2D]: zero-padded, with the
    first and last row doubled. *)
Definition pad (mpol mpol_new ntor ntor_new : Z) (cn : list (list float))
  : result (list (list float)) :=
  cn_pad <- Np.zeros2 (mpol_new + 1) (2 * ntor_new) ;;
  cn_pad <- Np.put_cols cn_pad 0 (Some (mpol + 1)) (idxlist ntor) cn ;;
  cn_pad <- Np.maprow (fun x => (x * 2)%float) cn_pad 0 ;;
  Np.maprow (fun x => (x * 2)%float) cn_pad (-1).

(** [irfft2D(cn, sn, nfft_theta, nfft_zeta)] *)
Definition irfft2D (cn sn : list (list float)) (nfft_theta nfft_zeta : option Z)
  : result (list (list float)) :=
  let mpol := len cn - 1 in
  let ntor := (Np.ncols cn - 1) / 2 in
  let nfft_theta := match nfft_theta with Some n => n | None => mpol * 4 end in
  let nfft_zeta := match nfft_zeta with Some n => n | None => ntor * 4 end in
  let mpol_new := nfft_theta / 2 in
  let ntor_new := nfft_zeta / 2 in
  cn_pad <- pad mpol mpol_new ntor ntor_new cn ;;
  sn_pad <- pad mpol mpol_new ntor ntor_new sn ;;
  spec <- Np.ew2_2d
            (fun c s => csub (of_real c) (cmul (Cx 0 1) (of_real s)))
            cn_pad sn_pad ;;
  out <- np_fft_irfft2 spec ;;
  Ok (map (map (fun x =>
        (x * float_of_Z nfft_theta * float_of_Z nfft_zeta / 2)%float)) out).

End Transforms.

End Spectral.

(** ** The solver class *)

Module QFM.

Import Spectral.

(** Modelled from the spec: the field model [pyoculus.problems.ToroidalBfield]
    is not part of the sources.  It exposes the number of field periods
    [Nfp] and a batched evaluation [B_many] that is vectorised over the
    sample points and deterministic, so it is given by the field
    [(B_rho, B_theta, B_zeta)] at one point [(rho, theta, zeta)]. *)
Record ToroidalBfield : Type := {
  problem_Nfp : Z;
  B : float * float * float -> float * float * float
}.

Definition B_many (problem : ToroidalBfield)
    (coords : list (float * float * float)) : list (float * float * float) :=
  map (B problem) coords.

(** The [params] dictionary: a key is present or not. *)
Record params : Type := {
  ntheta : option Z;
  nfft_multiplier : option Z;
  pqNtor : option Z;
  pqMpol : option Z;
  action_gradient_mode : option string
}.

(** The attributes of a [QFM] object.  Those that [action] installs are
    absent until it has run. *)
Record QFM : Type := {
  _problem : ToroidalBfield;
  _MM : Z;
  _pqNtor : Z;
  _pqMpol : Z;
  _action_gradient_mode : string;
  Nfp : Z;
  dz : option float;
  _nlist : option (list Z);
  _zeta : option (list float);
  _nzq : option (list (list float));
  _cnzq : option (list (list float));
  _snzq : option (list (list float))
}.

Definition default {A} (o : option A) (d : A) : A :=
  match o with Some x => x | None => d end.

(** [QFM.__init__] *)
Definition __init__ (problem : ToroidalBfield) (p : params) : QFM :=
  {| _problem := problem;
     _MM := default (nfft_multiplier p) 2 * 2;
     _pqNtor := default (pqNtor p) 4;
     _pqMpol := default (pqMpol p) 8;
     _action_gradient_mode := default (action_gradient_mode p) "real"%string;
     Nfp := problem_Nfp problem;
     dz := None; _nlist := None; _zeta := None;
     _nzq := None; _cnzq := None; _snzq := None |}.

(** Reading an attribute that may not have been set. *)
Definition attr {A} (o : option A) : result A :=
  match o with Some x => Ok x | None => Raise AttributeError end.

(** Python's true division of a [float] by an [int]. *)
Definition fdiv (x : float) (d : Z) : result float :=
  if d =? 0 then Raise ZeroDivisionError else Ok (x / float_of_Z d)%float.

Section Solver.

Variable fft : FFT.

(** *** [straighten_boundary] *)

(** The loop state: [(iota, lambda_cn, lambda_sn)]. *)
Record boundary : Type := Boundary {
  iota : float;
  lambda_cn : list (list float);
  lambda_sn : list (list float)
}.

(** [np.max(np.abs(a - b))] *)
Definition max_abs_diff (a b : list (list float)) : result float :=
  d <- Np.ew2_2d PrimFloat.sub a b ;;
  Np.max (Np.flatten (map (map PrimFloat.abs) d)).

(** The three changes [(erriota, errcn, errsn)] of one round. *)
Definition errors (old new : boundary) : result (float * float * float) :=
  let erriota := PrimFloat.abs (iota new - iota old) in
  errcn <- max_abs_diff (lambda_cn new) (lambda_cn old) ;;
  errsn <- max_abs_diff (lambda_sn new) (lambda_sn old) ;;
  Ok (erriota, errcn, errsn).

(** [np.max([erriota, errcn, errsn]) < tol] *)
Definition converged (errs : float * float * float) (tol : float) : result bool :=
  let '(erriota, errcn, errsn) := errs in
  m <- Np.max [erriota; errcn; errsn] ;;
  Ok (PrimFloat.ltb m tol).

(** The update [lam[0, 1:] = spec[0, 1:] / den] of row 0, where [den]
    is built from [mlist[0, nax]] and [nlist[nax, 1:]]. *)
Definition update_row0 (lam spec : list (list float)) (mlist nlist : list Z)
    (den : Z -> Z -> float) : result (list (list float)) :=
  s0 <- getitem spec 0 ;;
  m0 <- getitem mlist 0 ;;
  d <- Np.ew2 den [m0] (slice nlist 1 None) ;;
  v <- Np.ew2 PrimFloat.div (slice s0 1 None) d ;;
  l0 <- getitem lam 0 ;;
  l0 <- Np.setslice l0 1 None v ;;
  setitem lam 0 l0.

(** The update [lam[1:, :] = spec[1:, :] / den] of the other rows. *)
Definition update_rows (lam spec : list (list float)) (mlist nlist : list Z)
    (den : Z -> Z -> float) : result (list (list float)) :=
  d <- Np.ew2_2d den (Np.column (slice mlist 1 None)) [nlist] ;;
  v <- Np.ew2_2d PrimFloat.div (slice spec 1 None) d ;;
  Np.setslice2 lam 1 None 0 None v.

(** [lam[0, 0] = 0] *)
Definition zero_mode (lam : list (list float)) : result (list (list float)) :=
  l0 <- getitem lam 0 ;;
  l0 <- setitem l0 0 0%float ;;
  setitem lam 0 l0.

(** One pass through the body of the [for] loop, up to the convergence
    test. *)
Definition round (self : QFM) (rho : float) (mpol ntor nfft_theta nfft_zeta : Z)
    (rarr zarr : list (list float)) (mlist nlist : list Z) (st : boundary)
  : result boundary :=
  lambda_real <- irfft2D fft (lambda_cn st) (lambda_sn st)
                   (Some nfft_theta) (Some nfft_zeta) ;;
  th <- Np.linspace 0 (Np.pi * 2) nfft_theta ;;
  tarr <- Np.ew2_2d PrimFloat.add (Np.column th) lambda_real ;;
  coords <- Np.stack3 (Np.flatten rarr) (Np.flatten tarr) (Np.flatten zarr) ;;
  let Bv := B_many (_problem self) coords in
  Bs <- Np.reshape (map (fun b => fst (fst b)) Bv) nfft_theta nfft_zeta ;;
  Bt <- Np.reshape (map (fun b => snd (fst b)) Bv) nfft_theta nfft_zeta ;;
  Bz <- Np.reshape (map (fun b => snd b) Bv) nfft_theta nfft_zeta ;;
  Bt_over_Bz <- Np.ew2_2d PrimFloat.div Bt Bz ;;
  '(cn, sn) <- rfft2D fft Bt_over_Bz (Some mpol) (Some ntor) ;;
  cn0 <- getitem cn 0 ;;
  iota <- getitem cn0 0 ;;
  let den_cn := fun m n => (float_of_Z (- m) * iota + float_of_Z n)%float in
  let den_sn := fun m n => (float_of_Z m * iota - float_of_Z n)%float in
  lambda_cn <- update_row0 (lambda_cn st) sn mlist nlist den_cn ;;
  lambda_sn <- update_row0 (lambda_sn st) cn mlist nlist den_sn ;;
  lambda_cn <- update_rows lambda_cn sn mlist nlist den_cn ;;
  lambda_sn <- update_rows lambda_sn cn mlist nlist den_sn ;;
  lambda_cn <- zero_mode lambda_cn ;;
  lambda_sn <- zero_mode lambda_sn ;;
  Ok (Boundary iota lambda_cn lambda_sn).

(** The [for i in range(niter)] loop with its [break]. *)
Fixpoint iterate (step : boundary -> result boundary) (tol : float)
    (niter : nat) (st : boundary) : result boundary :=
  match niter with
  | O => Ok st
  | S n =>
      st' <- step st ;;
      errs <- errors st st' ;;
      stop <- converged errs tol ;;
      if stop then Ok st' else iterate step tol n st'
  end.

(** What [straighten_boundary] sets up before its loop. *)
Record setup : Type := Setup {
  s_mpol : Z;
  s_ntor : Z;
  s_nfft_theta : Z;
  s_nfft_zeta : Z;
  s_rarr : list (list float);
  s_zarr : list (list float);
  s_mlist : list Z;
  s_nlist : list Z;
  s_start : boundary
}.

(** The statements of [straighten_boundary] before the loop.  The arrays
    [rarr] and [zarr], broadcast to [[1, nfft_theta, nfft_zeta]], are kept
    as [nfft_theta] rows of [nfft_zeta] entries. *)
Definition prepare (self : QFM) (rho : float) : result setup :=
  let mpol := _pqMpol self in
  let mpol := _pqNtor self in
  let ntor := mpol in
  let nfft_theta := _MM self * mpol in
  let nfft_zeta := _MM self * ntor in
  let rarr := [(1 * rho)%float] in
  zarr <- Np.linspace 0 (Np.pi * 2) nfft_zeta ;;
  _ <- Np.guard (0 <=? nfft_theta) Np.negative_dimensions ;;
  let rarr :=
    repeat (repeat (1 * rho)%float (Z.to_nat nfft_zeta)) (Z.to_nat nfft_theta) in
  let zarr := repeat zarr (Z.to_nat nfft_theta) in
  lambda_cn <- Np.zeros2 (mpol + 1) (2 * ntor + 1) ;;
  lambda_sn <- Np.zeros2 (mpol + 1) (2 * ntor + 1) ;;
  let iota := 0%float in
  let mlist := Np.arange 0 (mpol + 1) in
  let nlist :=
    map (fun n => n * Nfp self)
        (Np.arange 0 (ntor + 1) ++ Np.arange (- ntor) 0) in
  Ok (Setup mpol ntor nfft_theta nfft_zeta rarr zarr mlist nlist
        (Boundary iota lambda_cn lambda_sn)).

(** The loop body on what was set up. *)
Definition body (self : QFM) (rho : float) (s : setup) (st : boundary)
  : result boundary :=
  round self rho (s_mpol s) (s_ntor s) (s_nfft_theta s) (s_nfft_zeta s)
    (s_rarr s) (s_zarr s) (s_mlist s) (s_nlist s) st.

(** [QFM.straighten_boundary(rho, tol, niter)]; returns
    [(iota, lambda_sn, lambda_cn)]. *)
Definition straighten_boundary (self : QFM) (rho tol : float) (niter : Z)
  : result (float * list (list float) * list (list float)) :=
  s <- prepare self rho ;;
  st <- iterate (body self rho s) tol (Z.to_nat niter) (s_start s) ;;
  let 'Boundary iota lambda_cn lambda_sn := st in
  Ok (iota, lambda_sn, lambda_cn).

(** *** [action_gradient] *)

(** [s * self._nlist / qq] and [-c * self._nlist / qq] *)
Definition times_n_over_q (s : list float) (nlist : list Z) (qq : Z)
  : result (list float) :=
  Np.ew2 (fun x n => (x * float_of_Z n / float_of_Z qq)%float) s nlist.

Definition neg (c : list float) : list float := map PrimFloat.opp c.

(** [np.sum(c[:, nax] * self._cnzq, axis=0) + np.sum(s[:, nax] * self._snzq, axis=0)] *)
Definition synthesis (c s : list float) (cnzq snzq : list (list float))
  : result (list float) :=
  pc <- Np.ew2_2d PrimFloat.mul (Np.column c) cnzq ;;
  ps <- Np.ew2_2d PrimFloat.mul (Np.column s) snzq ;;
  Np.ew2 PrimFloat.add (Np.sum_axis0 pc) (Np.sum_axis0 ps).

(** The trial curve [(r, t, z)] and, in real mode, [(rdot, tdot)]. *)
Record curve : Type := Curve {
  c_r : list float;
  c_t : list float;
  c_z : list float;
  c_rdot : list float;
  c_tdot : list float
}.

Definition curve_fourier (self : QFM) (d : Codec.dof) (iota : float)
  : result curve :=
  cnzq <- attr (_cnzq self) ;;
  snzq <- attr (_snzq self) ;;
  r <- synthesis (Codec.rcn d) (Codec.rsn d) cnzq snzq ;;
  t <- synthesis (Codec.tcn d) (Codec.tsn d) cnzq snzq ;;
  z <- attr (_zeta self) ;;
  t <- Np.ew2 PrimFloat.add t (map (fun zz => (iota * zz)%float) z) ;;
  Ok (Curve r t z [] []).

Definition curve_real (self : QFM) (d : Codec.dof) (iota : float) (qq : Z)
  : result curve :=
  r <- irfft1D fft (Codec.rcn d) (Codec.rsn d) 1 ;;
  z <- Np.linspace 0 (float_of_Z (2 * qq) * Np.pi) (len r) ;;
  t0 <- irfft1D fft (Codec.tcn d) (Codec.tsn d) 1 ;;
  t <- Np.ew2 PrimFloat.add t0 (map (fun zz => (iota * zz)%float) z) ;;
  nlist <- attr (_nlist self) ;;
  rc <- times_n_over_q (Codec.rsn d) nlist qq ;;
  rs <- times_n_over_q (neg (Codec.rcn d)) nlist qq ;;
  rdot <- irfft1D fft rc rs 1 ;;
  tc <- times_n_over_q (Codec.tsn d) nlist qq ;;
  ts <- times_n_over_q (neg (Codec.tcn d)) nlist qq ;;
  tdot0 <- irfft1D fft tc ts 1 ;;
  let tdot := map (fun x => (x + iota)%float) tdot0 in
  Ok (Curve r t z rdot tdot).

(** The residual entries of the spectral formulation. *)
Definition residual_fourier (self : QFM) (d : Codec.dof) (iota : float)
    (qq qN : Z) (rhs_rdot rhs_tdot ff : list float) : result (list float) :=
  '(rhs_tdot_fft_cos, rhs_tdot_fft_sin) <- rfft1D fft rhs_tdot ;;
  '(rhs_rdot_fft_cos, rhs_rdot_fft_sin) <- rfft1D fft rhs_rdot ;;
  nlist <- attr (_nlist self) ;;
  a1 <- times_n_over_q (Codec.rsn d) nlist qq ;;
  v1 <- Np.ew2 PrimFloat.sub a1 (slice rhs_rdot_fft_cos 0 (Some (qN + 1))) ;;
  ff <- Np.setslice ff 1 (Some (qN + 2)) v1 ;;
  a2 <- times_n_over_q (neg (Codec.rcn d)) nlist qq ;;
  v2 <- Np.ew2 PrimFloat.sub a2 (slice rhs_rdot_fft_sin 0 (Some (qN + 1))) ;;
  ff <- Np.setslice ff (qN + 2) (Some (2 * qN + 1)) (slice v2 1 (Some (-1))) ;;
  a3 <- times_n_over_q (Codec.tsn d) nlist qq ;;
  v3 <- Np.ew2 PrimFloat.sub a3 (slice rhs_tdot_fft_cos 0 (Some (qN + 1))) ;;
  ff <- Np.setslice ff (2 * qN + 1) (Some (3 * qN + 2)) v3 ;;
  x <- getitem ff (2 * qN + 1) ;;
  ff <- setitem ff (2 * qN + 1) (x + iota)%float ;;
  a4 <- times_n_over_q (neg (Codec.tcn d)) nlist qq ;;
  v4 <- Np.ew2 PrimFloat.sub a4 (slice rhs_tdot_fft_sin 0 (Some (qN + 1))) ;;
  Np.setslice ff (3 * qN + 2) None (slice v4 1 (Some (-1))).

(** The residual entries of the real-space formulation. *)
Definition residual_real (qN : Z) (cv : curve) (rhs_rdot rhs_tdot ff : list float)
  : result (list float) :=
  v1 <- Np.ew2 PrimFloat.sub (c_rdot cv) rhs_rdot ;;
  ff <- Np.setslice ff 1 (Some (2 * qN + 1)) v1 ;;
  v2 <- Np.ew2 PrimFloat.sub (c_tdot cv) rhs_tdot ;;
  Np.setslice ff (2 * qN + 1) None v2.

(** [QFM.action_gradient(xx, pp, qq, a, mode)] *)
Definition action_gradient (self : QFM) (xx : list float) (pp qq : Z)
    (a : float) (mode : string) : result (list float) :=
  iota <- fdiv (float_of_Z pp) qq ;;
  let qN := (len xx - 1) / 4 in
  d <- Codec._unpack_dof xx ;;
  cv <- (if String.eqb mode "fourier" then curve_fourier self d iota
         else if String.eqb mode "real" then curve_real self d iota qq
         else Raise (ValueError "space should be 'real' or 'fourier' ")) ;;
  area <- getitem (Codec.tcn d) 0 ;;
  coords <- Np.stack3 (c_r cv) (c_t cv) (c_z cv) ;;
  let Bv := B_many (_problem self) coords in
  let gBr := map (fun b => fst (fst b)) Bv in
  let gBt := map (fun b => snd (fst b)) Bv in
  let gBz := map (fun b => snd b) Bv in
  rhs_tdot <- Np.ew2 PrimFloat.div gBt gBz ;;
  q1 <- Np.ew2 PrimFloat.div gBr gBz ;;
  rhs_rdot <- Np.ew2 PrimFloat.sub q1 (map (fun g => (Codec.nv d / g)%float) gBz) ;;
  let ff := Np.zeros_like xx in
  ff <- setitem ff 0 (area - a)%float ;;
  if String.eqb mode "fourier"
  then residual_fourier self d iota qq qN rhs_rdot rhs_tdot ff
  else if String.eqb mode "real"
  then residual_real qN cv rhs_rdot rhs_tdot ff
  else Ok ff.

(** *** [action] *)

(** [scipy.optimize.root(fun, x0, args=..., method=..., tol=...)]: the
    residual function with its extra arguments bound, the initial
    guess, the method and the tolerance; it yields [(sol.x, sol.success)]. *)
Variable root :
  (list float -> result (list float)) -> list float -> string -> float ->
  result (list float * bool).

(** [np.cos], [np.sin] and [str] on a float. *)
Variables np_cos np_sin : float -> float.
Variable str_float : float -> string.

(** [str] on an int. *)
Definition str_int (z : Z) : string := NilZero.string_of_int (Z.to_int z).

(** One invocation of the root solver: the target area and initial
    guess it was given, and what it returned. *)
Record solver_call : Type := SolverCall {
  call_a : float;
  call_x0 : list float;
  call_reply : result (list float * bool)
}.

(** A computation together with the solver invocations it made, in
    order. *)
Definition traced (A : Type) : Type := (list solver_call * result A)%type.

Definition lift {A} (c : result A) : traced A := ([], c).

Definition tbind {A B} (c : traced A) (k : A -> traced B) : traced B :=
  match c with
  | (tr, Ok a) => let (tr', r) := k a in (tr ++ tr', r)
  | (tr, Raise e) => (tr, Raise e)
  end.

Definition call_root (f : list float -> result (list float))
    (x0 : list float) (a : float) (method : string) (tol : float)
  : traced (list float * bool) :=
  let reply := root f x0 method tol in
  ([SolverCall a x0 reply], reply).

(** The accumulators [rcnarr, tcnarr, rsnarr, tsnarr, nvarr]. *)
Record arrays : Type := Arrays {
  rcnarr : list (list float);
  tcnarr : list (list float);
  rsnarr : list (list float);
  tsnarr : list (list float);
  nvarr : list float
}.

(** The attributes [action] installs before the loop. *)
Definition install (self : QFM) (qq qN Nfft : Z) (dz_ : float) : QFM :=
  let nlist := Np.arange 0 (qN + 1) in
  let zeta := map (fun k => (float_of_Z k * dz_)%float) (Np.arange 0 Nfft) in
  let nzq :=
    map (fun n => map (fun z => (float_of_Z n * z / float_of_Z qq)%float) zeta)
        nlist in
  {| _problem := _problem self; _MM := _MM self; _pqNtor := _pqNtor self;
     _pqMpol := _pqMpol self;
     _action_gradient_mode := _action_gradient_mode self;
     Nfp := Nfp self;
     dz := Some dz_;
     _nlist := Some nlist;
     _zeta := Some zeta;
     _nzq := Some nzq;
     _cnzq := Some (map (map np_cos) nzq);
     _snzq := Some (map (map np_sin) nzq) |}.

(** The initial guess [xx0] of curve [jpq]. *)
Definition initial_guess (jpq qN : Z) (rguess dt : float) (st : arrays)
  : result (list float) :=
  if jpq =? 0 then
    let nv0 := 0%float in
    rcn0 <- Np.zeros (qN + 1) ;;
    tcn0 <- Np.zeros (qN + 1) ;;
    rsn0 <- Np.zeros (qN + 1) ;;
    tsn0 <- Np.zeros (qN + 1) ;;
    rcn0 <- setitem rcn0 0 rguess ;;
    tcn0 <- setitem tcn0 0 0%float ;;
    Ok (Codec._pack_dof nv0 rcn0 tsn0 rsn0 tcn0)
  else
    nv0 <- getitem (nvarr st) (jpq - 1) ;;
    rcn0 <- getitem (rcnarr st) (jpq - 1) ;;
    tcn0 <- getitem (tcnarr st) (jpq - 1) ;;
    rsn0 <- getitem (rsnarr st) (jpq - 1) ;;
    tsn0 <- getitem (tsnarr st) (jpq - 1) ;;
    t0 <- getitem tcn0 0 ;;
    tcn0 <- setitem tcn0 0 (t0 + dt)%float ;;
    Ok (Codec._pack_dof nv0 rcn0 tsn0 rsn0 tcn0).

Definition not_found (pp qq : Z) (a : float) : exn :=
  RuntimeError
    ("QFM orbit for pp=" ++ str_int pp ++ ",qq=" ++ str_int qq
       ++ ",a=" ++ str_float a ++ " not found.")%string.

(** [rcnarr[jpq, :] = rcn] and the four other stores. *)
Definition store (st : arrays) (jpq : Z) (d : Codec.dof) : result arrays :=
  rcnarr <- Np.setrow (rcnarr st) jpq (Codec.rcn d) ;;
  tsnarr <- Np.setrow (tsnarr st) jpq (Codec.tsn d) ;;
  tcnarr <- Np.setrow (tcnarr st) jpq (Codec.tcn d) ;;
  rsnarr <- Np.setrow (rsnarr st) jpq (Codec.rsn d) ;;
  nvarr <- setitem (nvarr st) jpq (Codec.nv d) ;;
  Ok (Arrays rcnarr tcnarr rsnarr tsnarr nvarr).

(** The body of [for jpq in range(fM)]. *)
Definition solve_curve (self : QFM) (pp qq qN : Z) (rguess dt : float)
    (method : string) (st : arrays) (jpq : Z) : traced arrays :=
  let a := (float_of_Z jpq * dt)%float in
  tbind (lift (initial_guess jpq qN rguess dt st)) (fun xx0 =>
  tbind (call_root
           (fun xx => action_gradient self xx pp qq a (_action_gradient_mode self))
           xx0 a method 0x1.5798ee2308c3ap-27%float) (fun sol =>
  let '(x, success) := sol in
  lift (d <- (if success : bool then Codec._unpack_dof x
              else Raise (not_found pp qq a)) ;;
        store st jpq d))).

(** The loop itself. *)
Fixpoint solve_curves (body : arrays -> Z -> traced arrays)
    (jpqs : list Z) (st : arrays) : traced arrays :=
  match jpqs with
  | [] => lift (Ok st)
  | jpq :: rest => tbind (body st jpq) (solve_curves body rest)
  end.

(** [idx = np.mod(pp * i, qq)] *)
Definition fold_idx (pp qq i : Z) : Z := (pp * i) mod qq.

(** The rows [idx * fM : (idx + 1) * fM] that iteration [i] of the fold
    writes. *)
Definition fold_rows (pp qq fM i : Z) : Z * Z :=
  let idx := fold_idx pp qq i in (idx * fM, (idx + 1) * fM).

(** [m[:, lo:hi]] *)
Definition cols {A} (m : list (list A)) (lo : Z) (hi : option Z) : list (list A) :=
  map (fun row => slice row lo hi) m.

(** One iteration of the fold, on one of [r2D_alpha], [t2D_alpha]. *)
Definition fold_curve (pp qq fM W : Z) (src dst : list (list float)) (i : Z)
  : result (list (list float)) :=
  let '(lo, hi) := fold_rows pp qq fM i in
  dst <- Np.setslice2 dst lo (Some hi) 0 (Some ((qq - i) * W))
           (cols src (i * W) None) ;;
  Np.setslice2 dst lo (Some hi) ((qq - i) * W) None
    (cols src 0 (Some (i * W))).

Fixpoint foldM {A S} (f : S -> A -> result S) (l : list A) (s : S) : result S :=
  match l with
  | [] => Ok s
  | x :: l' => s' <- f s x ;; foldM f l' s'
  end.

(** One iteration of the resampling to [(vartheta, zeta)]. *)
Definition resample (pp qfM : Z) (src dst : list (list float)) (i : Z)
  : result (list (list float)) :=
  let idx := map (fun k => (k - i * pp) mod qfM) (Np.arange 0 qfM) in
  v <- Np.take_rows_at src idx i ;;
  Np.setcol dst i v.

(** The part of [action] after the loop: fold, resample, transform. *)
Definition surface (self : QFM) (pp qq : Z) (st : arrays)
  : result (list (list float) * list (list float)
            * list (list float) * list (list float)) :=
  let MM := _MM self in
  let pqNtor := _pqNtor self in
  let pqMpol := _pqMpol self in
  let fM := MM * pqNtor in
  let qfM := qq * MM * pqNtor in
  let Nfft := MM * qq * pqNtor in
  r <- irfft1D_batched fft (rcnarr st) (rsnarr st) (MM / 2) ;;
  z <- Np.linspace 0 (float_of_Z (2 * qq) * Np.pi) (Np.ncols r) ;;
  tcnarr <- Np.mapcol (fun _ => 0%float) (tcnarr st) 0 ;;
  t <- irfft1D_batched fft tcnarr (tsnarr st) (MM / 2) ;;
  r2D_alpha <- Np.zeros2 qfM Nfft ;;
  t2D_alpha <- Np.zeros2 qfM Nfft ;;
  '(r2D_alpha, t2D_alpha) <-
    foldM (fun acc i =>
             ra <- fold_curve pp qq fM (pqNtor * MM) r (fst acc) i ;;
             ta <- fold_curve pp qq fM (pqNtor * MM) t (snd acc) i ;;
             Ok (ra, ta))
          (range qq) (r2D_alpha, t2D_alpha) ;;
  r2D_vartheta <- Np.zeros2 qfM (MM * pqNtor) ;;
  t2D_vartheta <- Np.zeros2 qfM (MM * pqNtor) ;;
  '(r2D_vartheta, t2D_vartheta) <-
    foldM (fun acc i =>
             rv <- resample pp qfM r2D_alpha (fst acc) i ;;
             tv <- resample pp qfM t2D_alpha (snd acc) i ;;
             Ok (rv, tv))
          (range (MM * pqNtor)) (r2D_vartheta, t2D_vartheta) ;;
  '(scn_surf, ssn_surf) <- rfft2D fft r2D_vartheta (Some pqMpol) (Some pqNtor) ;;
  '(tcn_surf, tsn_surf) <- rfft2D fft t2D_vartheta (Some pqMpol) (Some pqNtor) ;;
  Ok (scn_surf, tsn_surf, ssn_surf, tcn_surf).

(** The fold loop [for i in range(qq)] of [action], on both arrays. *)
Definition fold_all (pp qq fM W : Z) (r t : list (list float))
    (acc : list (list float) * list (list float))
  : result (list (list float) * list (list float)) :=
  foldM (fun acc i =>
           ra <- fold_curve pp qq fM W r (fst acc) i ;;
           ta <- fold_curve pp qq fM W t (snd acc) i ;;
           Ok (ra, ta))
        (range qq) acc.

(** The resampling loop [for i in range(MM * pqNtor)], on both arrays. *)
Definition resample_all (pp qfM ncol : Z) (ra ta : list (list float))
    (acc : list (list float) * list (list float))
  : result (list (list float) * list (list float)) :=
  foldM (fun acc i =>
           rv <- resample pp qfM ra (fst acc) i ;;
           tv <- resample pp qfM ta (snd acc) i ;;
           Ok (rv, tv))
        (range ncol) acc.

(** The part of [surface] between the transforms: the two
    zero-initialised pairs of arrays and the two loops. *)
Definition wrap (pp qq MM pqNtor : Z) (r t : list (list float))
  : result (list (list float) * list (list float)) :=
  let fM := MM * pqNtor in
  let qfM := qq * MM * pqNtor in
  let Nfft := MM * qq * pqNtor in
  r2D_alpha <- Np.zeros2 qfM Nfft ;;
  t2D_alpha <- Np.zeros2 qfM Nfft ;;
  '(r2D_alpha, t2D_alpha) <-
    fold_all pp qq fM (pqNtor * MM) r t (r2D_alpha, t2D_alpha) ;;
  r2D_vartheta <- Np.zeros2 qfM (MM * pqNtor) ;;
  t2D_vartheta <- Np.zeros2 qfM (MM * pqNtor) ;;
  resample_all pp qfM (MM * pqNtor) r2D_alpha t2D_alpha (r2D_vartheta, t2D_vartheta).

(** [QFM.action(pp, qq, rguess, method)] *)
Definition action (self : QFM) (pp qq : Z) (rguess : float) (method : string)
  : traced (list (list float) * list (list float)
            * list (list float) * list (list float)) :=
  let MM := _MM self in
  let pqNtor := _pqNtor self in
  let qN := qq * pqNtor in
  let fM := MM * pqNtor in
  let Nfft := MM * qq * pqNtor in
  tbind (lift (iota <- fdiv (float_of_Z pp) qq ;;
               dz <- fdiv (2 * Np.pi) (MM * pqNtor) ;;
               q <- fdiv (Np.pi * 2) qq ;;
               dt <- fdiv q fM ;;
               rcnarr <- Np.zeros2 fM (qN + 1) ;;
               tcnarr <- Np.zeros2 fM (qN + 1) ;;
               rsnarr <- Np.zeros2 fM (qN + 1) ;;
               tsnarr <- Np.zeros2 fM (qN + 1) ;;
               nvarr <- Np.zeros fM ;;
               Ok (install self qq qN Nfft dz, dt,
                   Arrays rcnarr tcnarr rsnarr tsnarr nvarr)))
    (fun '(self', dt, st) =>
  tbind (solve_curves (solve_curve self' pp qq qN rguess dt method)
           (range fM) st)
    (fun st => lift (surface self' pp qq st))).

End Solver.

End QFM.

(** ** Reference numerics

    Direct implementations of the consumed interfaces, used to run the
    embedding on concrete inputs: the discrete Fourier sums with sine and
    cosine by their Taylor polynomials, a uniform field and two trivial
    root solvers.  The properties below are proved for every FFT, field
    and solver; these only show that their hypotheses can be met. *)

Module Reference.

Import Spectral.

Fixpoint taylor (n : nat) (k : Z) (x2 term acc : float) : float :=
  match n with
  | O => acc
  | S n' =>
      taylor n' (k + 2) x2
        (- term * x2 / float_of_Z ((k + 1) * (k + 2)))%float
        (acc + term)%float
  end.

Definition cos (x : float) : float := taylor 24 0 (x * x)%float 1%float 0%float.
Definition sin (x : float) : float := taylor 24 1 (x * x)%float x 0%float.

(** [exp(sign * 2 pi i j k / n)] *)
Definition cis (sign : float) (n j k : Z) : complex :=
  let m := (j * k) mod n in
  let m := if 2 * m >? n then m - n else m in
  let x := (2 * Np.pi * float_of_Z m / float_of_Z n)%float in
  Cx (cos x) (sign * sin x)%float.

Definition cadd (a b : complex) : complex := Cx (re a + re b) (im a + im b).
Definition csum (l : list complex) : complex := fold_left cadd l (Cx 0 0).
Definition cscale (s : float) (a : complex) : complex := Cx (s * re a) (s * im a).

Definition indexed {A} (l : list A) : list (Z * A) := combine (range (len l)) l.

(** The discrete Fourier sum of [a], of length [n], at frequency [k]. *)
Definition dft_at (sign : float) (n : Z) (a : list complex) (k : Z) : complex :=
  csum (map (fun ja => cmul (snd ja) (cis sign n (fst ja) k)) (indexed a)).

Definition fft_c (a : list complex) : list complex :=
  map (dft_at (-1) (len a) a) (range (len a)).

Definition ifft_c (a : list complex) : list complex :=
  map (fun k => cscale (1 / float_of_Z (len a)) (dft_at 1 (len a) a k))
      (range (len a)).

Definition rfft_c (a : list float) : list complex :=
  map (dft_at (-1) (len a) (map of_real a)) (range (len a / 2 + 1)).

(** The Hermitian spectrum of length [n] with half [a]. *)
Definition hermitian (a : list complex) (n : Z) : list complex :=
  map (fun k =>
         if 2 * k <=? n then nth (Z.to_nat k) a (Cx 0 0)
         else let z := nth (Z.to_nat (n - k)) a (Cx 0 0) in Cx (re z) (- im z))
      (range n).

Definition irfft_c (a : list complex) (n : Z) : list float :=
  let h := hermitian a n in
  map (fun j => (re (dft_at 1 n h j) / float_of_Z n)%float) (range n).

Fixpoint transpose_n {A} (cols : nat) (m : list (list A)) : list (list A) :=
  match cols with
  | O => []
  | S c =>
      flat_map (fun row => match row with x :: _ => [x] | [] => [] end) m
        :: transpose_n c (map (@tl A) m)
  end.

Definition transpose {A} (m : list (list A)) : list (list A) :=
  transpose_n (length (hd [] m)) m.

Definition along_columns {A B} (f : list A -> list B) (m : list (list A))
  : list (list B) :=
  transpose (map f (transpose m)).

Definition dft : FFT :=
  {| rfft := rfft_c;
     irfft := irfft_c;
     rfft2 := fun a => map fft_c (along_columns rfft_c a);
     irfft2 := fun a =>
       along_columns (fun col => irfft_c col (2 * (len col - 1))) (map ifft_c a) |}.

(** A uniform field with rotational transform one half. *)
Definition uniform_field : QFM.ToroidalBfield :=
  {| QFM.problem_Nfp := 1;
     QFM.B := fun _ => (0%float, 0.5%float, 1%float) |}.

(** Root solvers that return the initial guess, reporting convergence
    or failure. *)
Definition root_accept (f : list float -> result (list float)) (x0 : list float)
    (method : string) (tol : float) : result (list float * bool) :=
  Ok (x0, true).

Definition root_reject (f : list float -> result (list float)) (x0 : list float)
    (method : string) (tol : float) : result (list float * bool) :=
  Ok (x0, false).

(** A rendering of floats that tells zero from the rest. *)
Definition str_float (x : float) : string :=
  if PrimFloat.eqb x 0 then "0.0"%string else "nonzero"%string.

End Reference.

(* ================================================================== *)
(** * Part II: properties *)
(* ================================================================== *)

(** ** The winding fold *)

Module FoldFacts.

Import QFM.

(** A map on [0 .. n-1] that is one-to-one and onto. *)
Definition bijective_on (n : Z) (f : Z -> Z) : Prop :=
  (forall i, 0 <= i < n -> 0 <= f i < n) /\
  (forall i j, 0 <= i < n -> 0 <= j < n -> f i = f j -> i = j) /\
  (forall k, 0 <= k < n -> exists i, 0 <= i < n /\ f i = k).

Lemma in_range n i : In i (range n) <-> 0 <= i < n.
Proof.
  unfold range. rewrite in_map_iff. split.
  - intros (k & <- & Hk). apply in_seq in Hk. lia.
  - intros Hi. exists (Z.to_nat i). split; [lia | apply in_seq; lia].
Qed.


Lemma fold_idx_bounds pp qq i : 0 < qq -> 0 <= fold_idx pp qq i < qq.
Proof. intros Hq. unfold fold_idx. apply Z.mod_pos_bound. exact Hq. Qed.

(** Equal shifts force [qq] to divide [pp * (i - j)]. *)
Lemma fold_idx_eq_divide pp qq i j :
  0 < qq -> fold_idx pp qq i = fold_idx pp qq j -> (qq | pp * (i - j)).
Proof.
  intros Hq H. unfold fold_idx in H.
  apply Z.mod_divide; [lia |].
  rewrite Z.mul_sub_distr_l, Zminus_mod, H, Z.sub_diag. apply Z.mod_0_l. lia.
Qed.

Lemma fold_idx_injective pp qq :
  0 < qq -> Z.gcd pp qq = 1 ->
  forall i j, 0 <= i < qq -> 0 <= j < qq ->
              fold_idx pp qq i = fold_idx pp qq j -> i = j.
Proof.
  intros Hq Hg i j Hi Hj H.
  apply fold_idx_eq_divide in H; [| exact Hq].
  apply Z.gauss in H; [| rewrite Z.gcd_comm; exact Hg].
  destruct H as [c Hc].
  assert (c = 0) by nia. subst c. lia.
Qed.

Lemma fold_idx_surjective pp qq :
  0 < qq -> Z.gcd pp qq = 1 ->
  forall k, 0 <= k < qq -> exists i, 0 <= i < qq /\ fold_idx pp qq i = k.
Proof.
  intros Hq Hg k Hk.
  destruct (Z.gcd_bezout pp qq 1 Hg) as (u & v & Huv).
  exists ((u * k) mod qq). split; [apply Z.mod_pos_bound; exact Hq |].
  unfold fold_idx.
  rewrite Z.mul_mod_idemp_r by lia.
  replace (pp * (u * k)) with (k + (- (v * k)) * qq) by nia.
  rewrite Z_mod_plus_full. apply Z.mod_small. exact Hk.
Qed.








End FoldFacts.

(** ** Lists, slices and item access *)

Module ListFacts.

Lemma len_nonneg {A} (l : list A) : 0 <= len l.
Proof. unfold len. lia. Qed.

Lemma len_app {A} (l1 l2 : list A) : len (l1 ++ l2) = len l1 + len l2.
Proof. unfold len. rewrite length_app. lia. Qed.

Lemma len_cons {A} (x : A) (l : list A) : len (x :: l) = 1 + len l.
Proof. unfold len. simpl length. lia. Qed.

Lemma len_map {A B} (f : A -> B) (l : list A) : len (map f l) = len l.
Proof. unfold len. rewrite length_map. reflexivity. Qed.

Lemma len_repeat {A} (x : A) (n : nat) : len (repeat x n) = Z.of_nat n.
Proof. unfold len. rewrite repeat_length. reflexivity. Qed.

Lemma len_range n : len (range n) = Z.max 0 n.
Proof. unfold len, range. rewrite length_map, length_seq. lia. Qed.

Lemma len_firstn {A} (n : nat) (l : list A) :
  len (firstn n l) = Z.min (Z.of_nat n) (len l).
Proof. unfold len. rewrite length_firstn. lia. Qed.

Lemma len_skipn {A} (n : nat) (l : list A) :
  len (skipn n l) = Z.max 0 (len l - Z.of_nat n).
Proof. unfold len. rewrite length_skipn. lia. Qed.

Lemma clip_inside n i : 0 <= i <= n -> clip n i = i.
Proof.
  intros H. unfold clip. destruct (Z.ltb_spec i 0); lia.
Qed.

Lemma clip_bounds n i : 0 <= n -> 0 <= clip n i <= n.
Proof.
  intros H. unfold clip. destruct (Z.ltb_spec i 0); lia.
Qed.

(** A slice with bounds inside the list, by position. *)
Lemma slice_inside {A} (l : list A) a b :
  0 <= a <= len l -> 0 <= b <= len l ->
  slice l a (Some b) = firstn (Z.to_nat (b - a)) (skipn (Z.to_nat a) l).
Proof.
  intros Ha Hb. unfold slice. rewrite !clip_inside by assumption. reflexivity.
Qed.

Lemma slice_open {A} (l : list A) a :
  0 <= a <= len l -> slice l a None = skipn (Z.to_nat a) l.
Proof.
  intros Ha. unfold slice. rewrite clip_inside by assumption.
  apply firstn_all2. unfold len in *. rewrite length_skipn. lia.
Qed.

Lemma len_slice {A} (l : list A) a b :
  0 <= a <= b -> b <= len l -> len (slice l a (Some b)) = b - a.
Proof.
  intros Ha Hb. rewrite slice_inside by lia.
  rewrite len_firstn, len_skipn. lia.
Qed.

Lemma len_slice_open {A} (l : list A) a :
  0 <= a <= len l -> len (slice l a None) = len l - a.
Proof.
  intros Ha. rewrite slice_open by lia. rewrite len_skipn. lia.
Qed.

Lemma skipn_length_app {A} (pre rest : list A) :
  skipn (length pre) (pre ++ rest) = rest.
Proof.
  rewrite skipn_app, skipn_all, Nat.sub_diag. reflexivity.
Qed.

Lemma firstn_length_app {A} (mid post : list A) :
  firstn (length mid) (mid ++ post) = mid.
Proof.
  rewrite firstn_app, firstn_all, Nat.sub_diag. simpl. apply app_nil_r.
Qed.

(** The slice that covers the middle of three concatenated pieces. *)
Lemma slice_app_mid {A} (pre mid post : list A) a b :
  a = len pre -> b = len pre + len mid ->
  slice (pre ++ mid ++ post) a (Some b) = mid.
Proof.
  intros -> ->.
  pose proof (len_nonneg pre). pose proof (len_nonneg mid).
  pose proof (len_nonneg post).
  rewrite slice_inside by (rewrite !len_app; lia).
  replace (Z.to_nat (len pre)) with (length pre) by (unfold len; lia).
  replace (Z.to_nat (len pre + len mid - len pre)) with (length mid)
    by (unfold len; lia).
  rewrite skipn_length_app. apply firstn_length_app.
Qed.

(** The open slice that starts after a prefix. *)
Lemma slice_app_tail {A} (pre post : list A) a :
  a = len pre -> slice (pre ++ post) a None = post.
Proof.
  intros ->. pose proof (len_nonneg pre). pose proof (len_nonneg post).
  rewrite slice_open by (rewrite len_app; lia).
  replace (Z.to_nat (len pre)) with (length pre) by (unfold len; lia).
  apply skipn_length_app.
Qed.

(** A bound of [-1] stands for the last position. *)
Lemma slice_minus_one {A} (l : list A) a :
  1 <= len l -> slice l a (Some (-1)) = slice l a (Some (len l - 1)).
Proof.
  intros H. unfold slice, clip. simpl (-1 <? 0).
  destruct (Z.ltb_spec (len l - 1) 0); [lia |].
  replace (Z.max (-1 + len l) 0) with (len l - 1) by lia.
  replace (Z.min (len l - 1) (len l)) with (len l - 1) by lia.
  reflexivity.
Qed.

(** [l[1:-1]] of a list with both ends attached. *)
Lemma slice_interior {A} (x y : A) (mid : list A) :
  slice ([x] ++ mid ++ [y]) 1 (Some (-1)) = mid.
Proof.
  pose proof (len_nonneg mid).
  assert (E : len ([x] ++ mid ++ [y]) = len mid + 2).
  { rewrite !len_app. unfold len. simpl length. lia. }
  rewrite slice_minus_one by lia. rewrite E.
  apply slice_app_mid; [reflexivity |]. unfold len. simpl length. lia.
Qed.

(** Adjacent slices concatenate. *)
Lemma slice_cat {A} (l : list A) a b :
  0 <= a <= b -> b <= len l ->
  slice l a (Some b) ++ slice l b None = slice l a None.
Proof.
  intros Ha Hb. rewrite slice_inside, !slice_open by lia.
  replace (Z.to_nat b) with (Z.to_nat (b - a) + Z.to_nat a)%nat by lia.
  rewrite <- skipn_skipn. (* skipn (x) (skipn (y) l) *)
  apply firstn_skipn.
Qed.

(** Item indices. *)
Lemma index_inside n i : 0 <= i < n -> index n i = Ok (Z.to_nat i).
Proof.
  intros H. unfold index.
  destruct (Z.ltb_spec i 0); [lia |].
  destruct (Z.leb_spec 0 i); [| lia].
  destruct (Z.ltb_spec i n); [| lia]. reflexivity.
Qed.

Lemma index_from_end n i : - n <= i < 0 -> index n i = Ok (Z.to_nat (i + n)).
Proof.
  intros H. unfold index.
  destruct (Z.ltb_spec i 0); [| lia].
  destruct (Z.leb_spec 0 (i + n)); [| lia].
  destruct (Z.ltb_spec (i + n) n); [| lia]. reflexivity.
Qed.

Lemma index_ok n i j : index n i = Ok j -> (Z.of_nat j < n)%Z.
Proof.
  unfold index. destruct (_ && _) eqn:E; [| discriminate].
  intros [= <-]. apply andb_true_iff in E as [E1 E2].
  apply Z.leb_le in E1. apply Z.ltb_lt in E2. lia.
Qed.

Lemma len_update {A} (l : list A) j x : len (update l j x) = len l.
Proof.
  unfold len. f_equal. revert j. induction l as [| h t IH]; intros [| j]; simpl; auto.
Qed.

Lemma getitem_inside {A} (l : list A) i :
  0 <= i < len l ->
  exists x, getitem l i = Ok x /\ nth_error l (Z.to_nat i) = Some x.
Proof.
  intros H. unfold getitem. rewrite index_inside by assumption. simpl.
  destruct (nth_error l (Z.to_nat i)) as [x |] eqn:E.
  - exists x. auto.
  - apply nth_error_None in E. unfold len in H. lia.
Qed.

Lemma setitem_inside {A} (l : list A) i x :
  0 <= i < len l -> setitem l i x = Ok (update l (Z.to_nat i) x).
Proof.
  intros H. unfold setitem. rewrite index_inside by assumption. reflexivity.
Qed.

Lemma setitem_len {A} (l l' : list A) i x :
  setitem l i x = Ok l' -> len l' = len l.
Proof.
  unfold setitem. destruct (index (len l) i); simpl; [| discriminate].
  intros [= <-]. apply len_update.
Qed.

Lemma getitem_head {A} (x : A) (l : list A) : getitem (x :: l) 0 = Ok x.
Proof.
  unfold getitem. rewrite index_inside by (rewrite len_cons; pose proof (len_nonneg l); lia).
  reflexivity.
Qed.

End ListFacts.

(** ** The DOF codec *)

Module CodecFacts.

Import Codec ListFacts.

(** What the offsets do to one entry: [+1] then [-1], and [-1] then [+1]. *)
Definition there_and_back (e : float) : float := (e + 1 - 1)%float.
Definition back_and_there (e : float) : float := (e - 1 + 1)%float.

(** An array of [qN + 1] entries whose first and last are zero. *)
Definition pinned (qN : Z) (l : list float) : Prop :=
  exists mid, l = [0%float] ++ mid ++ [0%float] /\ len mid = qN - 1.

(** A valid tuple for [qN] toroidal modes. *)
Definition valid (qN : Z) (d : dof) : Prop :=
  len (rcn d) = qN + 1 /\ pinned qN (tsn d) /\ pinned qN (rsn d)
  /\ len (tcn d) = qN + 1.

(** The free entries of a tuple, in packing order after [nv]. *)
Definition interior (l : list float) : list float := slice l 1 (Some (-1)).
Definition free (d : dof) : list float :=
  [nv d] ++ rcn d ++ interior (tsn d) ++ interior (rsn d) ++ tcn d.

(** A tuple with [f] applied to every free entry. *)
Definition through (f : float -> float) (d : dof) : dof :=
  Dof (f (nv d)) (map f (rcn d))
      ([0%float] ++ map f (interior (tsn d)) ++ [0%float])
      ([0%float] ++ map f (interior (rsn d)) ++ [0%float])
      (map f (tcn d)).

Lemma pack_as_map d : pack d = map (fun v => (v + 1)%float) (free d).
Proof. reflexivity. Qed.

Lemma pinned_interior qN l :
  pinned qN l -> l = [0%float] ++ interior l ++ [0%float] /\ len (interior l) = qN - 1.
Proof.
  intros (mid & -> & Hm). unfold interior. rewrite slice_interior. auto.
Qed.

Lemma through_id f d qN :
  valid qN d -> Forall (fun e => f e = e) (free d) -> through f d = d.
Proof.
  intros (_ & Ht & Hr & _) Hall. unfold free in Hall.
  apply Forall_app in Hall as [Hnv Hall]. apply Forall_app in Hall as [Hrc Hall].
  apply Forall_app in Hall as [Hts Hall]. apply Forall_app in Hall as [Hrs Htc].
  assert (Hid : forall l, Forall (fun e => f e = e) l -> map f l = l).
  { intros l H. induction H as [| x l Hx _ IH]; simpl; congruence. }
  apply pinned_interior in Ht as [Ht _]. apply pinned_interior in Hr as [Hr _].
  inversion Hnv as [| ? ? Hn _]. subst.
  destruct d as [n rc ts rs tc]. unfold through. simpl in *.
  rewrite Hn, !Hid by assumption. rewrite <- Ht, <- Hr. reflexivity.
Qed.

Lemma qN_of_size qN : (4 * qN + 1 - 1) / 4 = qN.
Proof. replace (4 * qN + 1 - 1) with (qN * 4) by lia. apply Z.div_mul. lia. Qed.

(** Unpacking a vector given by its five pieces. *)
Lemma unpack_pieces qN x0 (R T S C : list float) :
  1 <= qN ->
  len R = qN + 1 -> len T = qN - 1 -> len S = qN - 1 -> len C = qN + 1 ->
  _unpack_dof ([x0] ++ R ++ T ++ S ++ C) =
  Ok (Dof (x0 - 1)%float
          (map (fun v => (v - 1)%float) R)
          ([0%float] ++ map (fun v => (v - 1)%float) T ++ [0%float])
          ([0%float] ++ map (fun v => (v - 1)%float) S ++ [0%float])
          (map (fun v => (v - 1)%float) C)).
Proof.
  intros Hq HR HT HS HC.
  set (A := [x0]). assert (HA : len A = 1) by reflexivity.
  assert (Hlen : len (A ++ R ++ T ++ S ++ C) = 4 * qN + 1)
    by (rewrite !len_app; lia).
  unfold _unpack_dof. rewrite Hlen, qN_of_size.
  rewrite (slice_app_mid A R (T ++ S ++ C)) by lia.
  replace (slice (A ++ R ++ T ++ S ++ C) (qN + 2) (Some (2 * qN + 1))) with T.
  2:{ symmetry. replace (A ++ R ++ T ++ S ++ C) with ((A ++ R) ++ T ++ (S ++ C))
        by (rewrite <- !app_assoc; reflexivity).
      apply slice_app_mid; rewrite ?len_app; lia. }
  replace (slice (A ++ R ++ T ++ S ++ C) (2 * qN + 1) (Some (3 * qN))) with S.
  2:{ symmetry. replace (A ++ R ++ T ++ S ++ C) with ((A ++ R ++ T) ++ S ++ C)
        by (rewrite <- !app_assoc; reflexivity).
      apply slice_app_mid; rewrite ?len_app; lia. }
  replace (slice (A ++ R ++ T ++ S ++ C) (3 * qN) None) with C.
  2:{ symmetry. replace (A ++ R ++ T ++ S ++ C) with ((A ++ R ++ T ++ S) ++ C)
        by (rewrite <- !app_assoc; reflexivity).
      apply slice_app_tail; rewrite ?len_app; lia. }
  unfold A. simpl ([x0] ++ _). rewrite getitem_head. reflexivity.
Qed.

(** Unpacking a packed tuple: every free entry goes through [+1 - 1]. *)
Lemma unpack_pack qN d :
  1 <= qN -> valid qN d -> _unpack_dof (pack d) = Ok (through there_and_back d).
Proof.
  intros Hq (Hrc & Ht & Hr & Htc).
  apply pinned_interior in Ht as [_ Ht]. apply pinned_interior in Hr as [_ Hr].
  rewrite pack_as_map. unfold free. rewrite !map_app. simpl (map _ [nv d]).
  rewrite (unpack_pieces qN) by (rewrite ?len_map; lia).
  unfold through, there_and_back. rewrite !map_map. reflexivity.
Qed.

(** Packing an unpacked vector: every entry goes through [-1 + 1]. *)
Lemma pack_unpack qN v :
  1 <= qN -> len v = 4 * qN + 1 ->
  exists d, _unpack_dof v = Ok d /\ valid qN d /\ pack d = map back_and_there v.
Proof.
  intros Hq Hv.
  destruct v as [| x0 w]; [change (len (@nil float)) with 0 in Hv; lia |].
  rewrite len_cons in Hv.
  set (R := slice w 0 (Some (qN + 1))).
  set (T := slice w (qN + 1) (Some (2 * qN))).
  set (S := slice w (2 * qN) (Some (3 * qN - 1))).
  set (C := slice w (3 * qN - 1) None).
  assert (HR : len R = qN + 1) by (unfold R; rewrite len_slice; lia).
  assert (HT : len T = qN - 1) by (unfold T; rewrite len_slice; lia).
  assert (HS : len S = qN - 1) by (unfold S; rewrite len_slice; lia).
  assert (HC : len C = qN + 1) by (unfold C; rewrite len_slice_open; lia).
  assert (Hw : w = R ++ T ++ S ++ C).
  { unfold R, T, S, C.
    rewrite (slice_cat w (2 * qN) (3 * qN - 1)) by lia.
    rewrite (slice_cat w (qN + 1) (2 * qN)) by lia.
    rewrite (slice_cat w 0 (qN + 1)) by lia.
    rewrite slice_open by lia. reflexivity. }
  change (x0 :: w) with ([x0] ++ w). rewrite Hw.
  rewrite (unpack_pieces qN) by assumption.
  eexists. split; [reflexivity |]. split.
  - unfold valid, pinned. cbn [nv rcn tsn rsn tcn]. rewrite !len_map.
    repeat split; try assumption.
    + eexists. split; [reflexivity | rewrite len_map; assumption].
    + eexists. split; [reflexivity | rewrite len_map; assumption].
  - rewrite pack_as_map. unfold free, interior. cbn [nv rcn tsn rsn tcn].
    rewrite !(slice_interior 0%float 0%float).
    unfold back_and_there. rewrite !map_app, !map_map. reflexivity.
Qed.

Lemma map_fixed {A} (f : A -> A) (l : list A) :
  Forall (fun e => f e = e) l -> map f l = l.
Proof.
  intros H. induction H as [| x l Hx _ IH]; simpl; congruence.
Qed.

(** C1 (as amended). For [qN >= 1] the codec is a two-sided inverse pair up
    to the rounding of its offsets: unpacking a packed valid tuple returns
    the tuple with every free entry [e] replaced by [(e + 1) - 1], and
    packing an unpacked vector of length [4*qN + 1] returns the vector with
    every entry [e] replaced by [(e - 1) + 1], both in binary64 arithmetic;
    the pinned zero endpoints are restored exactly.  Each round trip is
    the identity whenever these two roundings are exact on the entries. *)
Theorem dof_codec_round_trip qN d v :
  1 <= qN -> valid qN d -> len v = 4 * qN + 1 ->
  (_unpack_dof (pack d) = Ok (through there_and_back d) /\
   (Forall (fun e => there_and_back e = e) (free d) ->
    _unpack_dof (pack d) = Ok d)) /\
  (exists d', _unpack_dof v = Ok d' /\ valid qN d' /\
     pack d' = map back_and_there v /\
     (Forall (fun e => back_and_there e = e) v -> pack d' = v)).
Proof.
  intros Hq Hd Hv. split.
  - split; [apply (unpack_pack qN); assumption |].
    intros Hexact. rewrite (unpack_pack qN) by assumption.
    f_equal. apply (through_id _ _ qN); assumption.
  - destruct (pack_unpack qN v Hq Hv) as (d' & Hu & Hval & Hp).
    exists d'. split; [exact Hu |]. split; [exact Hval |]. split; [exact Hp |].
    intros Hexact. rewrite Hp. apply map_fixed. exact Hexact.
Qed.

Definition sample_dof : dof :=
  Dof 2%float [1; 3]%float [0; 0]%float [0; 0]%float [4; 5]%float.

Definition sample_vector : list float := [3; 2; 4; 5; 6]%float.

Lemma dof_codec_round_trip_witness :
  _unpack_dof (pack sample_dof) = Ok sample_dof /\
  exists d', _unpack_dof sample_vector = Ok d' /\ pack d' = sample_vector.
Proof.
  assert (Hd : valid 1 sample_dof).
  { unfold valid, pinned. repeat split.
    - exists []. split; reflexivity.
    - exists []. split; reflexivity. }
  assert (Hv : len sample_vector = 4 * 1 + 1) by reflexivity.
  destruct (dof_codec_round_trip 1 sample_dof sample_vector ltac:(lia) Hd Hv)
    as [[_ Hback] (d' & Hu & _ & _ & Hforth)].
  split.
  - apply Hback. repeat constructor.
  - exists d'. split; [exact Hu |]. apply Hforth. repeat constructor.
Defined.

(** The tuple whose multiplier [2^-60] is absorbed by the offset, and the
    vector whose first entry [2^-60] is. *)
Definition tiny_dof : dof :=
  Dof 0x1p-60%float [0; 0]%float [0; 0]%float [0; 0]%float [0; 0]%float.

Definition tiny_vector : list float := [0x1p-60; 1; 1; 1; 1]%float.

(** C1 as stated fails: the round trips are not exact. *)
Lemma dof_codec_not_exact :
  (valid 1 tiny_dof /\
   exists d', _unpack_dof (pack tiny_dof) = Ok d' /\
              PrimFloat.eqb (nv d') (nv tiny_dof) = false) /\
  (len tiny_vector = 4 * 1 + 1 /\
   exists d' x, _unpack_dof tiny_vector = Ok d' /\
                getitem (pack d') 0 = Ok x /\
                PrimFloat.eqb x 0x1p-60%float = false).
Proof.
  split; split.
  - unfold valid, pinned. repeat split.
    + exists []. split; reflexivity.
    + exists []. split; reflexivity.
  - eexists. split; [vm_compute; reflexivity | reflexivity].
  - reflexivity.
  - eexists. eexists. split; [vm_compute; reflexivity |].
    split; vm_compute; reflexivity.
Qed.

End CodecFacts.

(** ** numpy operations *)

Module NpFacts.

Import ListFacts.

(** An [r] by [c] array. *)
Definition matrix {A} (r c : Z) (m : list (list A)) : Prop :=
  len m = r /\ Forall (fun row => len row = c) m.

(** Inversion of a monadic bind. *)
Lemma bind_ok {A B} (c : result A) (k : A -> result B) b :
  bind c k = Ok b -> exists a, c = Ok a /\ k a = Ok b.
Proof.
  destruct c as [a | e]; simpl; [| discriminate]. intros H. exists a. auto.
Qed.

Ltac inv_bind H :=
  let x := fresh "x" in
  let E := fresh "E" in
  apply bind_ok in H as (x & E & H).

Tactic Notation "unbind" hyp(H) "as" ident(x) ident(E) :=
  apply bind_ok in H as (x & E & H).

(** One successful step of a computation: from [exists x, c = Ok x /\ P x],
    replace [c] in the goal and keep [x] and [P x]. *)
Ltac step H :=
  let E := fresh "E" in
  destruct H as (? & E & ?); rewrite E; clear E; cbn [bind].

Lemma guard_ok b e u : Np.guard b e = Ok u -> b = true.
Proof. destruct b; simpl; [reflexivity | discriminate]. Qed.

Lemma guard_true b e : b = true -> Np.guard b e = Ok tt.
Proof. intros ->. reflexivity. Qed.

Lemma len_zip_with {A B C} (f : A -> B -> C) a b :
  len (Np.zip_with f a b) = Z.min (len a) (len b).
Proof.
  revert b. induction a as [| x a IH]; intros [| y b]; simpl Np.zip_with.
  - reflexivity.
  - rewrite len_cons. pose proof (len_nonneg b). change (len (@nil C)) with 0.
    change (len (@nil A)) with 0. lia.
  - rewrite len_cons. pose proof (len_nonneg a). change (len (@nil C)) with 0.
    change (len (@nil B)) with 0. lia.
  - rewrite !len_cons, IH. lia.
Qed.

Lemma ew2_same {A B C} (f : A -> B -> C) a b :
  len a = len b -> Np.ew2 f a b = Ok (Np.zip_with f a b).
Proof. intros H. unfold Np.ew2. rewrite H, Z.eqb_refl. reflexivity. Qed.

Lemma matrix_len {A} r c (m : list (list A)) : matrix r c m -> len m = r.
Proof. intros [H _]. exact H. Qed.

Lemma matrix_rows {A} r c (m : list (list A)) :
  matrix r c m -> Forall (fun row => len row = c) m.
Proof. intros [_ H]. exact H. Qed.

Lemma matrix_map {A B} (f : list A -> list B) r c c' (m : list (list A)) :
  matrix r c m -> (forall row, len row = c -> len (f row) = c') ->
  matrix r c' (map f m).
Proof.
  intros [Hr Hc] Hf. split; [rewrite len_map; exact Hr |].
  apply Forall_map. eapply Forall_impl; [| exact Hc]. exact Hf.
Qed.

Lemma matrix_ncols {A} r c (m : list (list A)) :
  matrix r c m -> 1 <= r -> Np.ncols m = c.
Proof.
  intros [Hr Hc] H. destruct m as [| row m]; [change (len (@nil (list A))) with 0 in Hr; lia |].
  inversion Hc. assumption.
Qed.


(** *** Construction *)

Lemma len_zeros_like x : len (Np.zeros_like x) = len x.
Proof. unfold Np.zeros_like. rewrite len_repeat. reflexivity. Qed.

Lemma zeros_ok n :
  0 <= n -> exists l, Np.zeros n = Ok l /\ len l = n.
Proof.
  intros H. unfold Np.zeros. rewrite guard_true by (apply Z.leb_le; exact H).
  cbn [bind]. eexists. split; [reflexivity |]. rewrite len_repeat. lia.
Qed.

Lemma matrix_repeat {A} (row : list A) r c :
  0 <= r -> len row = c -> matrix r c (repeat row (Z.to_nat r)).
Proof.
  intros Hr Hc. split; [rewrite len_repeat; lia |].
  apply Forall_forall. intros x Hx. apply repeat_spec in Hx. subst x. exact Hc.
Qed.

Lemma zeros2_ok r c :
  0 <= r -> 0 <= c -> exists m, Np.zeros2 r c = Ok m /\ matrix r c m.
Proof.
  intros Hr Hc. unfold Np.zeros2.
  rewrite guard_true
    by (apply andb_true_iff; split; apply Z.leb_le; assumption).
  cbn [bind]. eexists. split; [reflexivity |].
  apply matrix_repeat; [exact Hr |]. rewrite len_repeat. lia.
Qed.

Lemma zeros2_inv r c m : Np.zeros2 r c = Ok m -> matrix r c m.
Proof.
  unfold Np.zeros2. intros H. inv_bind H.
  apply guard_ok, andb_true_iff in E as [Hr Hc].
  apply Z.leb_le in Hr, Hc. injection H as <-.
  apply matrix_repeat; [exact Hr |]. rewrite len_repeat. lia.
Qed.

Lemma linspace_ok a b n :
  0 <= n -> exists l, Np.linspace a b n = Ok l /\ len l = n.
Proof.
  intros H. unfold Np.linspace. rewrite guard_true by (apply Z.leb_le; exact H).
  cbn [bind]. eexists. split; [reflexivity |]. rewrite len_map, len_range. lia.
Qed.

(** *** Elementwise operations *)

Lemma ew2_ok {A B C} (f : A -> B -> C) a b :
  len a = len b -> exists c, Np.ew2 f a b = Ok c /\ len c = len a.
Proof.
  intros H. rewrite ew2_same by exact H. eexists. split; [reflexivity |].
  rewrite len_zip_with. lia.
Qed.

Lemma stack3_ok {A} (r t z : list A) :
  len r = len t -> len r = len z ->
  exists c, Np.stack3 r t z = Ok c /\ len c = len r.
Proof.
  intros Ht Hz. unfold Np.stack3.
  rewrite guard_true
    by (apply andb_true_iff; split; apply Z.eqb_eq; assumption).
  cbn [bind]. eexists. split; [reflexivity |].
  rewrite !len_zip_with. lia.
Qed.

(** *** Slice assignment *)

Lemma setslice_len {A} (l : list A) lo hi v l' :
  Np.setslice l lo hi v = Ok l' -> len l' = len l.
Proof.
  unfold Np.setslice.
  pose proof (len_nonneg l) as Hn.
  pose proof (clip_bounds (len l) lo Hn) as Ha.
  set (a := clip (len l) lo) in *.
  set (b := match hi with Some h => clip (len l) h | None => len l end).
  assert (Hb : 0 <= b <= len l).
  { unfold b. destruct hi; [apply clip_bounds; exact Hn | lia]. }
  set (k := Z.to_nat (b - a)).
  assert (Hlen : forall w : list A, len w = Z.of_nat k ->
            len (firstn (Z.to_nat a) l ++ w ++ skipn (Z.to_nat a + k) l) = len l).
  { intros w Hw. rewrite !len_app, len_firstn, len_skipn, Hw. unfold k. lia. }
  destruct (Z.eqb_spec (len v) (Z.of_nat k)) as [E | N].
  - intros [= <-]. apply Hlen. exact E.
  - destruct v as [| x [| y v]]; try discriminate.
    intros [= <-]. apply Hlen. apply len_repeat.
Qed.

Lemma setslice_ok {A} (l : list A) lo hi v :
  0 <= lo <= hi -> hi <= len l -> len v = hi - lo ->
  exists l', Np.setslice l lo (Some hi) v = Ok l'.
Proof.
  intros H1 H2 Hv. unfold Np.setslice. rewrite !clip_inside by lia.
  replace (len v =? Z.of_nat (Z.to_nat (hi - lo))) with true
    by (symmetry; apply Z.eqb_eq; lia).
  eauto.
Qed.

Lemma setslice_open_ok {A} (l : list A) lo v :
  0 <= lo <= len l -> len v = len l - lo ->
  exists l', Np.setslice l lo None v = Ok l'.
Proof.
  intros H1 Hv. unfold Np.setslice. rewrite !clip_inside by lia.
  replace (len v =? Z.of_nat (Z.to_nat (len l - lo))) with true
    by (symmetry; apply Z.eqb_eq; lia).
  eauto.
Qed.

(** A slice assignment from position 1 on leaves entry 0 alone. *)
Lemma setslice_keeps_head {A} (x : A) l lo hi v l' :
  1 <= lo -> Np.setslice (x :: l) lo hi v = Ok l' -> exists t, l' = x :: t.
Proof.
  intros Hlo. unfold Np.setslice.
  pose proof (len_nonneg l) as Hn.
  assert (Ha : 1 <= clip (len (x :: l)) lo).
  { rewrite len_cons. unfold clip. destruct (Z.ltb_spec lo 0); lia. }
  destruct (Z.to_nat (clip (len (x :: l)) lo)) as [| a'] eqn:Ea; [lia |].
  cbn [firstn app].
  destruct (_ =? _).
  - intros [= <-]. eauto.
  - destruct v as [| y [| z v]]; try discriminate. intros [= <-]. eauto.
Qed.

Lemma setitem_keeps_tail {A} (l : list A) (x : A) l' :
  setitem l 0 x = Ok l' -> exists t, l' = x :: t /\ len l' = len l.
Proof.
  intros H. pose proof (setitem_len _ _ _ _ H) as Hl.
  unfold setitem, index in H. cbn [Z.ltb Z.compare] in H.
  destruct ((0 <=? 0) && (0 <? len l)) eqn:E; [| discriminate].
  cbn [bind Z.to_nat] in H. injection H as <-.
  destruct l as [| y l]; [apply andb_true_iff in E as [_ E];
    apply Z.ltb_lt in E; change (len (@nil A)) with 0 in E; lia |].
  simpl. eauto.
Qed.

(** *** Broadcasting a column *)

Lemma ew2_singleton {A B C} (f : A -> B -> C) x row :
  exists y, Np.ew2 f [x] row = Ok y /\ len y = len row.
Proof.
  unfold Np.ew2. destruct (Z.eqb_spec (len [x]) (len row)) as [E | N].
  - eexists. split; [reflexivity |]. rewrite len_zip_with. lia.
  - eexists. split; [reflexivity |]. apply len_map.
Qed.

Lemma sequence_column_rows {A B C} (f : A -> B -> C) (c : list A) M n :
  len c = len M -> Forall (fun row => len row = n) M ->
  exists P, Np.sequence (Np.zip_with (Np.ew2 f) (Np.column c) M) = Ok P /\
            matrix (len M) n P.
Proof.
  revert M. induction c as [| x c IH]; intros [| row M] Hl HM.
  - exists []. split; [reflexivity | split; [reflexivity | constructor]].
  - rewrite len_cons in Hl. pose proof (len_nonneg M).
    change (len (@nil A)) with 0 in Hl. lia.
  - rewrite len_cons in Hl. pose proof (len_nonneg c).
    change (len (@nil (list B))) with 0 in Hl. lia.
  - rewrite !len_cons in Hl. apply Forall_cons_iff in HM as [Hrow HM'].
    destruct (IH M ltac:(lia) HM') as (P & EP & HP1 & HP2).
    destruct (ew2_singleton f x row) as (y & Ey & Hy).
    cbn [Np.column map Np.zip_with Np.sequence].
    rewrite Ey. cbn [bind]. fold (Np.column c). rewrite EP. cbn [bind].
    eexists. split; [reflexivity |].
    split; [rewrite !len_cons; lia | constructor; [lia | exact HP2]].
Qed.

(** A column times a matrix of as many rows. *)
Lemma ew2_2d_column {A B C} (f : A -> B -> C) (c : list A) M r n :
  len c = r -> matrix r n M ->
  exists P, Np.ew2_2d f (Np.column c) M = Ok P /\ matrix r n P.
Proof.
  intros Hc [Hr HM]. unfold Np.ew2_2d.
  rewrite ew2_same by (unfold Np.column; rewrite len_map; lia). cbn [bind].
  destruct (sequence_column_rows f c M n ltac:(lia) HM) as (P & -> & HP).
  rewrite Hr in HP. eauto.
Qed.

Lemma len_sum_axis0 r n m :
  matrix r n m -> 1 <= r -> len (Np.sum_axis0 m) = n.
Proof.
  intros [Hr Hm] H1.
  destruct m as [| row m]; [change (len (@nil (list float))) with 0 in Hr; lia |].
  apply Forall_cons_iff in Hm as [Hrow Hm']. cbn [Np.sum_axis0]. clear - Hrow Hm'.
  revert row Hrow. induction Hm' as [| x m Hx _ IH]; intros row Hrow; simpl.
  - exact Hrow.
  - apply IH. rewrite len_zip_with. lia.
Qed.

Lemma len_arange lo hi : lo <= hi -> len (Np.arange lo hi) = hi - lo.
Proof. intros H. unfold Np.arange. rewrite len_map, len_range. lia. Qed.

End NpFacts.

(** ** The spectral transforms *)

Module SpectralFacts.

Import Spectral ListFacts NpFacts.

(** The output shapes [numpy.fft] documents. *)
Record fft_shapes (fft : FFT) : Prop := {
  rfft_len : forall a, 1 <= len a -> len (rfft fft a) = len a / 2 + 1;
  irfft_len : forall a n, 1 <= n -> len (irfft fft a n) = n;
  rfft2_shape : forall a r c,
    matrix r c a -> 1 <= r -> 1 <= c -> matrix (r / 2 + 1) c (rfft2 fft a);
  irfft2_shape : forall a r c,
    matrix r c a -> 2 <= r -> 1 <= c -> matrix (2 * (r - 1)) c (irfft2 fft a)
}.

Lemma np_fft_irfft_len fft a n f :
  fft_shapes fft -> np_fft_irfft fft a n = Ok f -> len f = n.
Proof.
  intros Hs H. unfold np_fft_irfft in H. inv_bind H.
  apply guard_ok, Z.leb_le in E. injection H as <-.
  apply (irfft_len fft Hs). exact E.
Qed.

(** Whatever the inputs, a result of [irfft1D] has [2 * Nfft] points. *)
Lemma irfft1D_len fft cos_in sin_in m f :
  fft_shapes fft -> irfft1D fft cos_in sin_in m = Ok f ->
  len f = 2 * (m * (len cos_in - 1)).
Proof.
  intros Hs H. unfold irfft1D in H.
  do 5 inv_bind H.
  apply (np_fft_irfft_len fft _ _ _ Hs H).
Qed.

(** On well-formed input [irfft1D] returns. *)
Lemma irfft1D_returns fft cos_in sin_in m :
  2 <= len cos_in -> len sin_in = len cos_in -> 1 <= m ->
  exists f, irfft1D fft cos_in sin_in m = Ok f.
Proof.
  intros Hc Hsn Hm. unfold irfft1D.
  rewrite setitem_inside by lia. cbn [bind].
  assert (E : forall l : list float, len l = len sin_in ->
                setitem l (-1) 0%float = Ok (update l (Z.to_nat (-1 + len l)) 0%float)).
  { intros l Hl. unfold setitem. rewrite index_from_end by lia. reflexivity. }
  rewrite E by apply len_update. cbn [bind].
  rewrite ew2_same by lia. cbn [bind].
  set (ffft := Np.zip_with _ _ _).
  assert (Hf : len ffft = len cos_in) by (unfold ffft; rewrite len_zip_with; lia).
  destruct (getitem_inside ffft 0 ltac:(lia)) as (f0 & -> & _). cbn [bind].
  rewrite setitem_inside by lia. cbn [bind].
  unfold np_fft_irfft. rewrite guard_true by (apply Z.leb_le; nia).
  cbn [bind]. eauto.
Qed.

(** *** The reference transform has numpy's shapes *)

Lemma transpose_n_shape {A} (c : nat) (m : list (list A)) :
  Forall (fun row => length row = c) m ->
  length (Reference.transpose_n c m) = c /\
  Forall (fun col => length col = length m) (Reference.transpose_n c m).
Proof.
  revert m. induction c as [| c IH]; intros m Hm; simpl.
  - split; constructor.
  - assert (Htl : Forall (fun row => length row = c) (map (@tl A) m)).
    { apply Forall_map. eapply Forall_impl; [| exact Hm].
      intros [| x row] H; simpl in *; lia. }
    destruct (IH _ Htl) as [H1 H2]. split; [simpl; lia |].
    constructor.
    + clear - Hm. induction Hm as [| row m Hrow _ IHm]; [reflexivity |].
      destruct row as [| x row]; [discriminate |]. simpl. rewrite IHm. reflexivity.
    + rewrite length_map in H2. exact H2.
Qed.

Lemma transpose_shape {A} r c (m : list (list A)) :
  matrix r c m -> 1 <= r -> matrix c r (Reference.transpose m).
Proof.
  intros [Hr Hc] H1. unfold Reference.transpose.
  destruct m as [| row m]; [change (len (@nil (list A))) with 0 in Hr; lia |].
  simpl hd.
  assert (Hrows : Forall (fun x => length x = length row) (row :: m)).
  { inversion Hc; subst. eapply Forall_impl; [| exact Hc].
    unfold len. intros. lia. }
  destruct (transpose_n_shape (length row) (row :: m) Hrows) as [H2 H3].
  inversion Hc; subst. split; [unfold len in *; lia |].
  eapply Forall_impl; [| exact H3]. unfold len. intros. cbv beta in *. lia.
Qed.

Lemma along_columns_shape {A B} (f : list A -> list B) r r' c (m : list (list A)) :
  matrix r c m -> 1 <= r -> 1 <= c -> 1 <= r' ->
  (forall col, len col = r -> len (f col) = r') ->
  matrix r' c (Reference.along_columns f m).
Proof.
  intros Hm Hr Hc Hr' Hf. unfold Reference.along_columns.
  apply transpose_shape; [| exact Hc].
  apply (matrix_map f c r r'); [| exact Hf].
  apply transpose_shape; assumption.
Qed.

Lemma len_rfft_c a : len (Reference.rfft_c a) = len a / 2 + 1.
Proof.
  unfold Reference.rfft_c. rewrite len_map, len_range.
  pose proof (len_nonneg a). pose proof (Z.div_pos (len a) 2). lia.
Qed.

Lemma len_irfft_c a n : 0 <= n -> len (Reference.irfft_c a n) = n.
Proof.
  intros H. unfold Reference.irfft_c. rewrite len_map, len_range. lia.
Qed.

Lemma len_fft_c a : len (Reference.fft_c a) = len a.
Proof.
  unfold Reference.fft_c. rewrite len_map, len_range.
  pose proof (len_nonneg a). lia.
Qed.

Lemma len_ifft_c a : len (Reference.ifft_c a) = len a.
Proof.
  unfold Reference.ifft_c. rewrite len_map, len_range.
  pose proof (len_nonneg a). lia.
Qed.

Lemma dft_shapes : fft_shapes Reference.dft.
Proof.
  constructor; unfold Reference.dft; cbn [rfft irfft rfft2 irfft2].
  - intros a _. apply len_rfft_c.
  - intros a n H. apply len_irfft_c. lia.
  - intros a r c Hm Hr Hc.
    apply (matrix_map _ (r / 2 + 1) c c).
    + apply (along_columns_shape _ r); try assumption.
      * pose proof (Z.div_pos r 2). lia.
      * intros col <-. apply len_rfft_c.
    + intros row <-. apply len_fft_c.
  - intros a r c Hm Hr Hc.
    apply (along_columns_shape _ r); try lia.
    + apply (matrix_map _ r c c); [exact Hm |]. intros row <-. apply len_ifft_c.
    + intros col <-. apply len_irfft_c. lia.
Qed.

(** *** [irfft1D]: number of output points *)





(** *** Sine coefficients without a counterpart *)

(** [rfft1D] returns a sine array whose entry 0 is zero. *)
Lemma rfft1D_sin_zero fft f :
  fft_shapes fft -> 1 <= len f ->
  exists c s, rfft1D fft f = Ok (c, s) /\ getitem s 0 = Ok 0%float.
Proof.
  intros Hs Hf. unfold rfft1D, np_fft_rfft.
  rewrite guard_true by (apply Z.leb_le; exact Hf). cbn [bind].
  pose proof (rfft_len fft Hs f Hf) as Hl.
  pose proof (len_nonneg f). pose proof (Z.div_pos (len f) 2 ltac:(lia) ltac:(lia)).
  set (c := map _ (rfft fft f)). set (s := map _ (rfft fft f)).
  assert (Hc : len c = len f / 2 + 1) by (unfold c; rewrite len_map; exact Hl).
  assert (Hsn : len s = len f / 2 + 1) by (unfold s; rewrite len_map; exact Hl).
  destruct (getitem_inside c 0 ltac:(lia)) as (c0 & -> & _). cbn [bind].
  rewrite setitem_inside by lia. cbn [bind].
  rewrite setitem_inside by lia. cbn [bind].
  eexists. eexists. split; [reflexivity |].
  destruct s as [| s0 s']; [change (len (@nil float)) with 0 in Hsn; lia |].
  apply getitem_head.
Qed.

(** C3, the code at a failing input.  With sine coefficients [0, 0, 1]
    and multiplier 2, [irfft1D] hands [numpy.fft.irfft] a spectrum whose
    last entry still carries the sine coefficient (imaginary part [-4]),
    for eight output points; with the reference transform the result
    differs from that of the nulled coefficients [0, 0, 0]. *)
Theorem irfft1D_transforms_sine_as_given :
  (forall fft,
     irfft1D fft [0; 0; 0]%float [0; 0; 1]%float 2 =
     Ok (irfft fft [Cx 0 0; Cx 0 0; Cx 0 (-4)] 8)) /\
  irfft1D Reference.dft [0; 0; 0]%float [0; 0; 1]%float 2 <>
  irfft1D Reference.dft [0; 0; 0]%float [0; 0; 0]%float 2.
Proof.
  split.
  - intros fft. reflexivity.
  - vm_compute. discriminate.
Qed.

End SpectralFacts.

(** ** The action gradient *)

Module GradientFacts.

Import Spectral QFM ListFacts NpFacts SpectralFacts.

Lemma setitem_keeps_head {A} (x : A) l i y l' :
  1 <= i -> setitem (x :: l) i y = Ok l' -> exists t, l' = x :: t.
Proof.
  intros Hi H. unfold setitem in H. inv_bind H.
  unfold index in E. destruct (Z.ltb_spec i 0); [lia |].
  destruct (_ && _); [| discriminate]. injection E as <-.
  injection H as <-.
  destruct (Z.to_nat i) as [| j] eqn:Ej; [lia |]. simpl. eauto.
Qed.

(** The residual assignments keep the length of [ff] and its entry 0. *)
Lemma residual_real_inv qN cv rhs_rdot rhs_tdot x ff0 ff :
  0 <= qN ->
  residual_real qN cv rhs_rdot rhs_tdot (x :: ff0) = Ok ff ->
  len ff = len (x :: ff0) /\ exists t, ff = x :: t.
Proof.
  intros Hq H. unfold residual_real in H.
  unbind H as v1 V1. unbind H as f1 F1. unbind H as v2 V2.
  pose proof (setslice_len _ _ _ _ _ F1) as L1.
  apply setslice_keeps_head in F1 as (t1 & ->); [| lia].
  pose proof (setslice_len _ _ _ _ _ H) as L2.
  apply setslice_keeps_head in H as (t2 & ->); [| lia].
  split; [lia | eauto].
Qed.

Lemma residual_fourier_inv fft self d iota qq qN rhs_rdot rhs_tdot x ff0 ff :
  0 <= qN ->
  residual_fourier fft self d iota qq qN rhs_rdot rhs_tdot (x :: ff0) = Ok ff ->
  len ff = len (x :: ff0) /\ exists t, ff = x :: t.
Proof.
  intros Hq H. unfold residual_fourier in H.
  unbind H as p1 P1. destruct p1 as [tc ts].
  unbind H as p2 P2. destruct p2 as [rc rs].
  unbind H as nl Hnl. unbind H as a1 A1. unbind H as v1 V1.
  unbind H as f1 F1.
  pose proof (setslice_len _ _ _ _ _ F1) as L1.
  apply setslice_keeps_head in F1 as (t1 & ->); [| lia].
  unbind H as a2 A2. unbind H as v2 V2. unbind H as f2 F2.
  pose proof (setslice_len _ _ _ _ _ F2) as L2.
  apply setslice_keeps_head in F2 as (t2 & ->); [| lia].
  unbind H as a3 A3. unbind H as v3 V3. unbind H as f3 F3.
  pose proof (setslice_len _ _ _ _ _ F3) as L3.
  apply setslice_keeps_head in F3 as (t3 & ->); [| lia].
  unbind H as y Y. unbind H as f4 F4.
  pose proof (setitem_len _ _ _ _ F4) as L4.
  apply setitem_keeps_head in F4 as (t4 & ->); [| lia].
  unbind H as a4 A4. unbind H as v4 V4.
  pose proof (setslice_len _ _ _ _ _ H) as L5.
  apply setslice_keeps_head in H as (t5 & ->); [| lia].
  split; [lia | eauto].
Qed.

(** Whatever [action_gradient] returns has the length of [xx], and its
    entry 0 is [tcn[0] - a] for the decoded [tcn]. *)
Lemma action_gradient_inv fft self xx pp qq a mode ff :
  action_gradient fft self xx pp qq a mode = Ok ff ->
  exists d area,
    Codec._unpack_dof xx = Ok d /\ getitem (Codec.tcn d) 0 = Ok area /\
    len ff = len xx /\ getitem ff 0 = Ok (area - a)%float.
Proof.
  intros H. unfold action_gradient in H.
  unbind H as iota Hiota. unbind H as d Hd.
  unbind H as cv Hcv. unbind H as area Harea.
  unbind H as coords Hco. unbind H as rhs_tdot Ht. unbind H as q1 Hq1.
  unbind H as rhs_rdot Hr. unbind H as ff0 E5.
  assert (Hxx : 1 <= len xx).
  { unfold Codec._unpack_dof in Hd. unbind Hd as x0 X0.
    unfold getitem in X0. unbind X0 as j J. apply index_ok in J. lia. }
  assert (Hq : 0 <= (len xx - 1) / 4) by (apply Z.div_pos; lia).
  destruct (setitem_keeps_tail _ _ _ E5) as (t & -> & Hl).
  rewrite len_zeros_like in Hl.
  exists d, area. split; [exact Hd |]. split; [exact Harea |].
  assert (Hres : len ff = len ((area - a)%float :: t)
                 /\ exists t', ff = (area - a)%float :: t').
  { destruct (String.eqb mode "fourier").
    - eapply residual_fourier_inv; eassumption.
    - destruct (String.eqb mode "real").
      + eapply residual_real_inv; eassumption.
      + injection H as <-. split; eauto. }
  destruct Hres as (Hlen & t' & ->).
  split; [lia | apply getitem_head].
Qed.

(** *** The call returns in both recognised modes *)

(** The attributes [action] installs, sized for [qN] toroidal modes. *)
Definition prepared (self : QFM) (qN : Z) : Prop :=
  exists nlist zeta cnzq snzq Nfft,
    _nlist self = Some nlist /\ len nlist = qN + 1 /\
    _zeta self = Some zeta /\ len zeta = Nfft /\
    _cnzq self = Some cnzq /\ matrix (qN + 1) Nfft cnzq /\
    _snzq self = Some snzq /\ matrix (qN + 1) Nfft snzq /\
    2 * qN <= Nfft.

Lemma irfft1D_ok fft c s m :
  fft_shapes fft -> 2 <= len c -> len s = len c -> 1 <= m ->
  exists f, irfft1D fft c s m = Ok f /\ len f = 2 * (m * (len c - 1)).
Proof.
  intros Hs Hc Hsn Hm.
  destruct (irfft1D_returns fft c s m Hc Hsn Hm) as (f & Hf).
  exists f. split; [exact Hf | apply (irfft1D_len fft _ _ _ _ Hs Hf)].
Qed.

Lemma rfft1D_ok fft f :
  fft_shapes fft -> 1 <= len f ->
  exists c s, rfft1D fft f = Ok (c, s) /\
              len c = len f / 2 + 1 /\ len s = len f / 2 + 1.
Proof.
  intros Hs Hf. unfold rfft1D, np_fft_rfft.
  rewrite guard_true by (apply Z.leb_le; exact Hf). cbn [bind].
  pose proof (rfft_len fft Hs f Hf) as Hl.
  pose proof (Z.div_pos (len f) 2 ltac:(lia) ltac:(lia)).
  set (c := map _ (rfft fft f)). set (s := map _ (rfft fft f)).
  assert (Hc : len c = len f / 2 + 1) by (unfold c; rewrite len_map; exact Hl).
  assert (Hsn : len s = len f / 2 + 1) by (unfold s; rewrite len_map; exact Hl).
  destruct (getitem_inside c 0 ltac:(lia)) as (c0 & -> & _). cbn [bind].
  rewrite !setitem_inside by lia. cbn [bind].
  eexists. eexists. split; [reflexivity |]. rewrite !len_update. auto.
Qed.

Lemma synthesis_ok c s cnzq snzq qN Nfft :
  0 <= qN -> len c = qN + 1 -> len s = qN + 1 ->
  matrix (qN + 1) Nfft cnzq -> matrix (qN + 1) Nfft snzq ->
  exists r, synthesis c s cnzq snzq = Ok r /\ len r = Nfft.
Proof.
  intros Hq Hc Hs Hcn Hsn. unfold synthesis.
  destruct (ew2_2d_column PrimFloat.mul c cnzq _ _ Hc Hcn) as (pc & -> & Hpc).
  cbn [bind].
  destruct (ew2_2d_column PrimFloat.mul s snzq _ _ Hs Hsn) as (ps & -> & Hps).
  cbn [bind].
  pose proof (len_sum_axis0 _ _ _ Hpc ltac:(lia)) as L1.
  pose proof (len_sum_axis0 _ _ _ Hps ltac:(lia)) as L2.
  destruct (ew2_ok PrimFloat.add (Np.sum_axis0 pc) (Np.sum_axis0 ps) ltac:(lia))
    as (r & -> & Hr).
  exists r. split; [reflexivity | lia].
Qed.

Lemma times_n_over_q_ok s nlist qq :
  len s = len nlist ->
  exists v, times_n_over_q s nlist qq = Ok v /\ len v = len s.
Proof. intros H. unfold times_n_over_q. apply ew2_ok. exact H. Qed.

Lemma len_neg c : len (neg c) = len c.
Proof. unfold neg. apply len_map. Qed.

Lemma len_interior {A} (l : list A) :
  2 <= len l -> len (slice l 1 (Some (-1))) = len l - 2.
Proof.
  intros H. rewrite slice_minus_one by lia. rewrite len_slice by lia. lia.
Qed.

Lemma curve_real_ok fft self d iota qq qN :
  fft_shapes fft -> 1 <= qN -> prepared self qN ->
  len (Codec.rcn d) = qN + 1 -> len (Codec.rsn d) = qN + 1 ->
  len (Codec.tcn d) = qN + 1 -> len (Codec.tsn d) = qN + 1 ->
  exists cv, curve_real fft self d iota qq = Ok cv /\
    len (c_r cv) = 2 * qN /\ len (c_t cv) = 2 * qN /\ len (c_z cv) = 2 * qN /\
    len (c_rdot cv) = 2 * qN /\ len (c_tdot cv) = 2 * qN.
Proof.
  intros Hs Hq (nlist & zeta & cnzq & snzq & Nfft & Hnl & Lnl & _) Hrc Hrs Htc Hts.
  unfold curve_real.
  step (irfft1D_ok fft (Codec.rcn d) (Codec.rsn d) 1 Hs ltac:(lia) ltac:(lia) ltac:(lia)).
  rename x into r. rename H into Lr.
  step (linspace_ok 0 (float_of_Z (2 * qq) * Np.pi) (len r) (len_nonneg r)).
  rename x into z. rename H into Lz.
  step (irfft1D_ok fft (Codec.tcn d) (Codec.tsn d) 1 Hs ltac:(lia) ltac:(lia) ltac:(lia)).
  rename x into t0. rename H into Lt0.
  step (ew2_ok PrimFloat.add t0 (map (fun zz => (iota * zz)%float) z)
          ltac:(rewrite len_map; lia)).
  rename x into t. rename H into Lt.
  rewrite Hnl. cbn [attr bind].
  step (times_n_over_q_ok (Codec.rsn d) nlist qq ltac:(lia)).
  rename x into rc. rename H into Lrc.
  step (times_n_over_q_ok (neg (Codec.rcn d)) nlist qq ltac:(rewrite len_neg; lia)).
  rename x into rs. rename H into Lrs. rewrite len_neg in Lrs.
  step (irfft1D_ok fft rc rs 1 Hs ltac:(lia) ltac:(lia) ltac:(lia)).
  rename x into rdot. rename H into Lrdot.
  step (times_n_over_q_ok (Codec.tsn d) nlist qq ltac:(lia)).
  rename x into tc. rename H into Ltc.
  step (times_n_over_q_ok (neg (Codec.tcn d)) nlist qq ltac:(rewrite len_neg; lia)).
  rename x into ts. rename H into Lts. rewrite len_neg in Lts.
  step (irfft1D_ok fft tc ts 1 Hs ltac:(lia) ltac:(lia) ltac:(lia)).
  rename x into tdot. rename H into Ltdot.
  eexists. split; [reflexivity |]. cbn [c_r c_t c_z c_rdot c_tdot].
  rewrite len_map. repeat split; lia.
Qed.

Lemma curve_fourier_ok self d iota qN :
  1 <= qN -> prepared self qN ->
  len (Codec.rcn d) = qN + 1 -> len (Codec.rsn d) = qN + 1 ->
  len (Codec.tcn d) = qN + 1 -> len (Codec.tsn d) = qN + 1 ->
  exists cv Nfft, curve_fourier self d iota = Ok cv /\ 2 * qN <= Nfft /\
    len (c_r cv) = Nfft /\ len (c_t cv) = Nfft /\ len (c_z cv) = Nfft.
Proof.
  intros Hq (nlist & zeta & cnzq & snzq & Nfft & _ & _ & Hz & Lz & Hcn & Mcn
             & Hsn & Msn & HN) Hrc Hrs Htc Hts.
  unfold curve_fourier. rewrite Hcn, Hsn. cbn [attr bind].
  step (synthesis_ok (Codec.rcn d) (Codec.rsn d) cnzq snzq qN Nfft
          ltac:(lia) Hrc Hrs Mcn Msn).
  rename x into r. rename H into Lr.
  step (synthesis_ok (Codec.tcn d) (Codec.tsn d) cnzq snzq qN Nfft
          ltac:(lia) Htc Hts Mcn Msn).
  rename x into t0. rename H into Lt0.
  rewrite Hz. cbn [attr bind].
  step (ew2_ok PrimFloat.add t0 (map (fun zz => (iota * zz)%float) zeta)
          ltac:(rewrite len_map; lia)).
  rename x into t. rename H into Lt.
  eexists. exists Nfft. split; [reflexivity |]. cbn [c_r c_t c_z].
  repeat split; lia.
Qed.

(** The field samples and the two right-hand sides along a curve. *)
Lemma rhs_ok problem (nv : float) r t z n :
  len r = n -> len t = n -> len z = n ->
  exists coords, Np.stack3 r t z = Ok coords /\
    let Bv := B_many problem coords in
    let gBr := map (fun b => fst (fst b)) Bv in
    let gBt := map (fun b => snd (fst b)) Bv in
    let gBz := map (fun b => snd b) Bv in
    exists rhs_tdot q1 rhs_rdot,
      Np.ew2 PrimFloat.div gBt gBz = Ok rhs_tdot /\
      Np.ew2 PrimFloat.div gBr gBz = Ok q1 /\
      Np.ew2 PrimFloat.sub q1 (map (fun g => (nv / g)%float) gBz) = Ok rhs_rdot /\
      len rhs_tdot = n /\ len rhs_rdot = n.
Proof.
  intros Hr Ht Hz.
  destruct (stack3_ok r t z ltac:(lia) ltac:(lia)) as (coords & Ec & Lc).
  exists coords. split; [exact Ec |]. cbv zeta. unfold B_many.
  set (Bv := map (B problem) coords).
  assert (LB : len Bv = n) by (unfold Bv; rewrite len_map; lia).
  destruct (ew2_ok PrimFloat.div (map (fun b => snd (fst b)) Bv) (map (fun b => snd b) Bv)
              ltac:(rewrite !len_map; reflexivity)) as (rhs_tdot & E1 & L1).
  destruct (ew2_ok PrimFloat.div (map (fun b => fst (fst b)) Bv) (map (fun b => snd b) Bv)
              ltac:(rewrite !len_map; reflexivity)) as (q1 & E2 & L2).
  destruct (ew2_ok PrimFloat.sub q1
              (map (fun g => (nv / g)%float) (map (fun b => snd b) Bv))
              ltac:(rewrite L2, !len_map; reflexivity)) as (rhs_rdot & E3 & L3).
  exists rhs_tdot, q1, rhs_rdot. rewrite len_map in *.
  repeat split; try assumption; lia.
Qed.

Lemma residual_real_ok qN cv rhs_rdot rhs_tdot ff :
  1 <= qN -> len ff = 4 * qN + 1 ->
  len (c_rdot cv) = 2 * qN -> len (c_tdot cv) = 2 * qN ->
  len rhs_rdot = 2 * qN -> len rhs_tdot = 2 * qN ->
  exists ff', residual_real qN cv rhs_rdot rhs_tdot ff = Ok ff'.
Proof.
  intros Hq Lff Lrd Ltd Lr Lt. unfold residual_real.
  step (ew2_ok PrimFloat.sub (c_rdot cv) rhs_rdot ltac:(lia)).
  rename x into v1. rename H into L1.
  destruct (setslice_ok ff 1 (2 * qN + 1) v1 ltac:(lia) ltac:(lia) ltac:(lia))
    as (f1 & E1).
  rewrite E1. cbn [bind]. apply setslice_len in E1.
  step (ew2_ok PrimFloat.sub (c_tdot cv) rhs_tdot ltac:(lia)).
  rename x into v2. rename H into L2.
  apply setslice_open_ok; lia.
Qed.

Lemma residual_fourier_ok fft self d iota qq qN rhs_rdot rhs_tdot ff Nfft :
  fft_shapes fft -> 1 <= qN -> prepared self qN -> len ff = 4 * qN + 1 ->
  len (Codec.rcn d) = qN + 1 -> len (Codec.rsn d) = qN + 1 ->
  len (Codec.tcn d) = qN + 1 -> len (Codec.tsn d) = qN + 1 ->
  2 * qN <= Nfft -> len rhs_rdot = Nfft -> len rhs_tdot = Nfft ->
  exists ff', residual_fourier fft self d iota qq qN rhs_rdot rhs_tdot ff = Ok ff'.
Proof.
  intros Hs Hq (nlist & _ & _ & _ & _ & Hnl & Lnl & _) Lff Hrc Hrs Htc Hts HN Lr Lt.
  unfold residual_fourier.
  assert (HD : qN + 1 <= Nfft / 2 + 1).
  { assert (qN <= Nfft / 2) by (apply Z.div_le_lower_bound; lia). lia. }
  destruct (rfft1D_ok fft rhs_tdot Hs ltac:(lia)) as (tc & ts & -> & Ltc & Lts).
  cbn [bind].
  destruct (rfft1D_ok fft rhs_rdot Hs ltac:(lia)) as (rc & rs & -> & Lrc & Lrs).
  cbn [bind]. rewrite Hnl. cbn [attr bind].
  rewrite Lt in Ltc, Lts. rewrite Lr in Lrc, Lrs.
  set (h := Nfft / 2) in *.
  step (times_n_over_q_ok (Codec.rsn d) nlist qq ltac:(lia)).
  rename x into a1. rename H into La1.
  step (ew2_ok PrimFloat.sub a1 (slice rc 0 (Some (qN + 1)))
          ltac:(rewrite len_slice; lia)).
  rename x into v1. rename H into Lv1.
  destruct (setslice_ok ff 1 (qN + 2) v1 ltac:(lia) ltac:(lia) ltac:(lia))
    as (f1 & E1).
  rewrite E1. cbn [bind]. apply setslice_len in E1.
  step (times_n_over_q_ok (neg (Codec.rcn d)) nlist qq ltac:(rewrite len_neg; lia)).
  rename x into a2. rename H into La2. rewrite len_neg in La2.
  step (ew2_ok PrimFloat.sub a2 (slice rs 0 (Some (qN + 1)))
          ltac:(rewrite len_slice; lia)).
  rename x into v2. rename H into Lv2.
  destruct (setslice_ok f1 (qN + 2) (2 * qN + 1) (slice v2 1 (Some (-1)))
              ltac:(lia) ltac:(lia) ltac:(rewrite len_interior; lia))
    as (f2 & E2).
  rewrite E2. cbn [bind]. apply setslice_len in E2.
  step (times_n_over_q_ok (Codec.tsn d) nlist qq ltac:(lia)).
  rename x into a3. rename H into La3.
  step (ew2_ok PrimFloat.sub a3 (slice tc 0 (Some (qN + 1)))
          ltac:(rewrite len_slice; lia)).
  rename x into v3. rename H into Lv3.
  destruct (setslice_ok f2 (2 * qN + 1) (3 * qN + 2) v3
              ltac:(lia) ltac:(lia) ltac:(lia)) as (f3 & E3).
  rewrite E3. cbn [bind]. apply setslice_len in E3.
  destruct (getitem_inside f3 (2 * qN + 1) ltac:(lia)) as (y & -> & _).
  cbn [bind]. rewrite setitem_inside by lia. cbn [bind].
  step (times_n_over_q_ok (neg (Codec.tcn d)) nlist qq ltac:(rewrite len_neg; lia)).
  rename x into a4. rename H into La4. rewrite len_neg in La4.
  step (ew2_ok PrimFloat.sub a4 (slice ts 0 (Some (qN + 1)))
          ltac:(rewrite len_slice; lia)).
  rename x into v4. rename H into Lv4.
  apply setslice_open_ok; rewrite ?len_update, ?len_interior; lia.
Qed.

(** The real-space residual stores [2 * qN] samples per equation: with
    the [qN] samples that [nfft_multiplier * (len(cos) - 1)] output points
    would give, the slice assignment [ff[1 : 2*qN + 1] = ...] raises. *)
Lemma residual_real_needs_doubled_points qN cv rhs_rdot rhs_tdot ff :
  2 <= qN -> len ff = 4 * qN + 1 ->
  len (c_rdot cv) = qN -> len rhs_rdot = qN ->
  residual_real qN cv rhs_rdot rhs_tdot ff = Raise Np.assign_error.
Proof.
  intros Hq Lff Lrd Lr. unfold residual_real.
  step (ew2_ok PrimFloat.sub (c_rdot cv) rhs_rdot ltac:(lia)).
  rename x into v1. rename H into L1.
  unfold Np.setslice. rewrite !clip_inside by lia.
  destruct (Z.eqb_spec (len v1) (Z.of_nat (Z.to_nat (2 * qN + 1 - 1)))) as [E | _];
    [lia |].
  destruct v1 as [| x [| y v1]]; try reflexivity.
  change (len [x]) with 1 in L1. lia.
Qed.

Definition recognised (mode : string) : Prop :=
  mode = "real"%string \/ mode = "fourier"%string.

Lemma pinned_len qN l : CodecFacts.pinned qN l -> len l = qN + 1.
Proof.
  intros (mid & -> & Hm). rewrite !len_app.
  change (len [0%float]) with 1. lia.
Qed.

(** The shared prefix of the call: [iota], the decoded tuple and its
    area term. *)
Lemma gradient_prefix xx qq qN (pp : Z) :
  1 <= qN -> len xx = 4 * qN + 1 -> qq <> 0 ->
  exists iota d area,
    fdiv (float_of_Z pp) qq = Ok iota /\ Codec._unpack_dof xx = Ok d /\
    getitem (Codec.tcn d) 0 = Ok area /\
    len (Codec.rcn d) = qN + 1 /\ len (Codec.rsn d) = qN + 1 /\
    len (Codec.tcn d) = qN + 1 /\ len (Codec.tsn d) = qN + 1.
Proof.
  intros Hq Hxx Hqq.
  destruct (CodecFacts.pack_unpack qN xx Hq Hxx) as (d & Hd & (Hrc & Hts & Hrs & Htc) & _).
  apply pinned_len in Hts, Hrs.
  destruct (getitem_inside (Codec.tcn d) 0 ltac:(lia)) as (area & Ha & _).
  unfold fdiv. destruct (Z.eqb_spec qq 0); [contradiction |].
  eexists. exists d, area. repeat split; try eassumption; reflexivity.
Qed.

Lemma action_gradient_returns fft self xx pp qq a mode qN :
  fft_shapes fft -> 1 <= qN -> prepared self qN ->
  len xx = 4 * qN + 1 -> qq <> 0 -> recognised mode ->
  exists ff, action_gradient fft self xx pp qq a mode = Ok ff.
Proof.
  intros Hs Hq Hp Hxx Hqq Hmode.
  destruct (gradient_prefix xx qq qN pp Hq Hxx Hqq)
    as (iota & d & area & Ei & Ed & Ea & Hrc & Hrs & Htc & Hts).
  unfold action_gradient. rewrite Ei, Ed. cbn [bind].
  rewrite Hxx, CodecFacts.qN_of_size.
  assert (Lff : len (Np.zeros_like xx) = 4 * qN + 1)
    by (rewrite len_zeros_like; exact Hxx).
  destruct Hmode as [-> | ->]; cbn [String.eqb Ascii.eqb Bool.eqb].
  - destruct (curve_real_ok fft self d iota qq qN Hs Hq Hp Hrc Hrs Htc Hts)
      as (cv & -> & Lr & Lt & Lz & Lrd & Ltd).
    cbn [bind]. rewrite Ea. cbn [bind].
    destruct (rhs_ok (_problem self) (Codec.nv d) _ _ _ _ Lr Lt Lz)
      as (coords & Ec & Hrhs).
    cbv zeta in Hrhs.
    destruct Hrhs as (rhs_tdot & q1 & rhs_rdot & E1 & E2 & E3 & L1 & L2).
    rewrite Ec. cbn [bind]. cbv zeta. rewrite E1. cbn [bind].
    rewrite E2. cbn [bind]. rewrite E3. cbn [bind].
    rewrite setitem_inside by lia. cbn [bind].
    apply residual_real_ok; rewrite ?len_update; assumption.
  - destruct (curve_fourier_ok self d iota qN Hq Hp Hrc Hrs Htc Hts)
      as (cv & Nfft & -> & HN & Lr & Lt & Lz).
    cbn [bind]. rewrite Ea. cbn [bind].
    destruct (rhs_ok (_problem self) (Codec.nv d) _ _ _ _ Lr Lt Lz)
      as (coords & Ec & Hrhs).
    cbv zeta in Hrhs.
    destruct Hrhs as (rhs_tdot & q1 & rhs_rdot & E1 & E2 & E3 & L1 & L2).
    rewrite Ec. cbn [bind]. cbv zeta. rewrite E1. cbn [bind].
    rewrite E2. cbn [bind]. rewrite E3. cbn [bind].
    rewrite setitem_inside by lia. cbn [bind].
    apply (residual_fourier_ok fft self d iota qq qN _ _ _ Nfft);
      rewrite ?len_update; assumption.
Qed.

Lemma action_gradient_rejects fft self xx pp qq a mode qN :
  1 <= qN -> len xx = 4 * qN + 1 -> qq <> 0 -> ~ recognised mode ->
  action_gradient fft self xx pp qq a mode =
  Raise (ValueError "space should be 'real' or 'fourier' ").
Proof.
  intros Hq Hxx Hqq Hmode.
  destruct (gradient_prefix xx qq qN pp Hq Hxx Hqq)
    as (iota & d & area & Ei & Ed & _).
  unfold action_gradient. rewrite Ei, Ed. cbn [bind].
  destruct (String.eqb_spec mode "fourier") as [-> | _];
    [exfalso; apply Hmode; right; reflexivity |].
  destruct (String.eqb_spec mode "real") as [-> | _];
    [exfalso; apply Hmode; left; reflexivity |].
  reflexivity.
Qed.

(** [action] prepares the object for its own calls of the gradient. *)
Lemma install_prepared np_cos np_sin self qq pqNtor MM dz_ :
  1 <= qq -> 1 <= pqNtor -> 2 <= MM ->
  prepared (install np_cos np_sin self qq (qq * pqNtor) (MM * qq * pqNtor) dz_)
           (qq * pqNtor).
Proof.
  intros Hq Hn HM.
  set (qN := qq * pqNtor). set (Nfft := MM * qq * pqNtor).
  assert (HqN : 1 <= qN) by (unfold qN; nia).
  assert (HN : 2 * qN <= Nfft) by (unfold qN, Nfft; nia).
  unfold prepared, install. cbn [_nlist _zeta _cnzq _snzq].
  do 4 eexists. exists Nfft.
  assert (Lz : forall f : Z -> float, len (map f (Np.arange 0 Nfft)) = Nfft)
    by (intros f; rewrite len_map, len_arange; lia).
  assert (Mz : forall (g : float -> float) (f : Z -> float -> float),
            matrix (qN + 1) Nfft
              (map (map g)
                 (map (fun n => map (f n) (map (fun k => (float_of_Z k * dz_)%float)
                                              (Np.arange 0 Nfft)))
                      (Np.arange 0 (qN + 1))))).
  { intros g f. split; [rewrite !len_map, len_arange; lia |].
    apply Forall_map, Forall_map, Forall_forall. intros n _.
    rewrite !len_map, len_arange; lia. }
  split; [reflexivity |]. split; [rewrite len_arange; lia |].
  split; [reflexivity |]. split; [apply Lz |].
  split; [reflexivity |]. split; [apply Mz |].
  split; [reflexivity |]. split; [apply Mz | exact HN].
Qed.


(** C8. On a prepared object, for a DOF vector [xx] of length [4*qN + 1]
    with [qN >= 1], [qq <> 0] and a recognised mode, [action_gradient]
    returns a residual of the length of [xx] whose entry 0 is
    [tcn[0] - a], with [tcn] the angular cosine spectrum decoded from
    [xx]. *)
Theorem action_gradient_residual fft self xx pp qq a mode qN :
  fft_shapes fft -> 1 <= qN -> prepared self qN ->
  len xx = 4 * qN + 1 -> qq <> 0 -> recognised mode ->
  exists ff d tcn0,
    action_gradient fft self xx pp qq a mode = Ok ff /\
    Codec._unpack_dof xx = Ok d /\ getitem (Codec.tcn d) 0 = Ok tcn0 /\
    len ff = len xx /\ getitem ff 0 = Ok (tcn0 - a)%float.
Proof.
  intros Hs Hq Hp Hxx Hqq Hmode.
  destruct (action_gradient_returns fft self xx pp qq a mode qN
              Hs Hq Hp Hxx Hqq Hmode) as (ff & E).
  destruct (action_gradient_inv _ _ _ _ _ _ _ _ E) as (d & area & Hd & Ha & Hl & H0).
  exists ff, d, area. auto.
Qed.

(** A prepared object and a DOF vector for one toroidal mode. *)
Definition sample_self : QFM :=
  install Reference.cos Reference.sin
    (__init__ Reference.uniform_field
       {| ntheta := None; nfft_multiplier := Some 1; pqNtor := Some 1;
          pqMpol := Some 2; action_gradient_mode := None |})
    1 (1 * 1) (2 * 1 * 1) Np.pi.

Definition sample_xx : list float := [1; 2; 1; 1; 4]%float.

Lemma sample_prepared : prepared sample_self 1.
Proof. apply (install_prepared _ _ _ 1 1 2); lia. Qed.


Lemma action_gradient_residual_witness :
  exists ff d tcn0,
    action_gradient Reference.dft sample_self sample_xx 1 1 0.5 "real" = Ok ff /\
    Codec._unpack_dof sample_xx = Ok d /\ getitem (Codec.tcn d) 0 = Ok tcn0 /\
    len ff = len sample_xx /\ getitem ff 0 = Ok (tcn0 - 0.5)%float.
Proof.
  apply (action_gradient_residual Reference.dft sample_self sample_xx 1 1
           0.5%float "real" 1).
  - exact dft_shapes.
  - lia.
  - exact sample_prepared.
  - reflexivity.
  - lia.
  - left. reflexivity.
Defined.

End GradientFacts.
(** ** The surface assembler and the root solver *)

Module ActionFacts.

Import Spectral QFM ListFacts NpFacts.

Section Trace.

Variable fft : FFT.
Variable root :
  (list float -> result (list float)) -> list float -> string -> float ->
  result (list float * bool).
Variable str_float : float -> string.

(** The solver reply "not converged". *)
Definition failed (c : solver_call) : Prop :=
  exists x, call_reply c = Ok (x, false).

(** One curve makes at most one solver call, for its own target area; a
    failed call ends the curve with the error that names it, and the curve
    completes only after a converged call. *)
Lemma solve_curve_trace self pp qq qN rguess dt method st jpq tr r :
  solve_curve fft root str_float self pp qq qN rguess dt method st jpq = (tr, r) ->
  (tr = [] /\ exists e, r = Raise e) \/
  (exists c, tr = [c] /\ call_a c = (float_of_Z jpq * dt)%float /\
     (failed c -> r = Raise (not_found str_float pp qq (call_a c))) /\
     (forall st', r = Ok st' -> ~ failed c)).
Proof.
  unfold solve_curve, tbind, lift, call_root.
  destruct (initial_guess jpq qN rguess dt st) as [xx0 | e].
  2:{ intros [= <- <-]. left. split; [reflexivity | eauto]. }
  destruct (root _ xx0 method _) as [[x success] | e].
  - intros [= <- <-]. right. eexists. split; [reflexivity |].
    cbn [call_a call_reply]. split; [reflexivity |]. split.
    + intros (x' & [= _ ->]). reflexivity.
    + intros st' Hst (x' & [= _ ->]). discriminate.
  - intros [= <- <-]. right. eexists. split; [reflexivity |].
    cbn [call_a call_reply]. split; [reflexivity |]. split.
    + intros (x' & Hx). discriminate.
    + intros st' Hst. discriminate.
Qed.

(** The loop calls the solver once per curve, in order, and stops at the
    first failed call. *)
Lemma solve_curves_trace self pp qq qN rguess dt method jpqs st tr r :
  solve_curves (solve_curve fft root str_float self pp qq qN rguess dt method)
    jpqs st = (tr, r) ->
  (exists n, (n <= length jpqs)%nat /\
     map call_a tr = map (fun j => (float_of_Z j * dt)%float) (firstn n jpqs)) /\
  (forall c, In c tr -> failed c ->
     r = Raise (not_found str_float pp qq (call_a c)) /\
     exists earlier, tr = earlier ++ [c]).
Proof.
  revert st tr r. induction jpqs as [| jpq rest IH]; intros st tr r H.
  - injection H as <- <-. split; [exists 0%nat; split; [lia | reflexivity] |].
    intros c [].
  - cbn [solve_curves] in H. unfold tbind in H.
    destruct (solve_curve fft root str_float self pp qq qN rguess dt method st jpq)
      as [tr1 r1] eqn:E1.
    apply solve_curve_trace in E1.
    destruct r1 as [st' | e].
    + destruct (solve_curves _ rest st') as [tr2 r2] eqn:E2.
      injection H as <- <-.
      destruct (IH _ _ _ E2) as [(n & Hn & Hmap) Hfail].
      destruct E1 as [[_ (e & He)] | (c & -> & Ha & _ & Hok)]; [discriminate |].
      split.
      * exists (S n). split; [simpl; lia |].
        cbn [app map firstn]. rewrite Ha, Hmap. reflexivity.
      * intros c' [<- | Hin] Hf; [exfalso; exact (Hok st' eq_refl Hf) |].
        destruct (Hfail c' Hin Hf) as (Hr & earlier & ->).
        split; [exact Hr | exists (c :: earlier); reflexivity].
    + injection H as <- <-.
      destruct E1 as [[-> _] | (c & -> & Ha & Hf & _)].
      * split; [exists 0%nat; split; [simpl; lia | reflexivity] |]. intros c [].
      * split.
        -- exists 1%nat. split; [simpl; lia |]. cbn [map firstn]. rewrite Ha.
           reflexivity.
        -- intros c' [<- | []] Hc. split; [exact (Hf Hc) | exists []; reflexivity].
Qed.

Lemma firstn_seq_le n s m : (n <= m)%nat -> firstn n (seq s m) = seq s n.
Proof.
  revert s m. induction n as [| n IH]; intros s m H; [reflexivity |].
  destruct m as [| m]; [lia |]. simpl. f_equal. apply IH. lia.
Qed.

Lemma firstn_range n m :
  (n <= Z.to_nat m)%nat -> firstn n (range m) = range (Z.of_nat n).
Proof.
  intros H. unfold range. rewrite firstn_map, firstn_seq_le by exact H.
  rewrite Nat2Z.id. reflexivity.
Qed.

End Trace.

(** C6. Whenever the root solver reports non-convergence for a trial
    curve, [QFM.action] raises a [RuntimeError] whose message names [pp],
    [qq] and the target area [a] of that curve; the failed call is the last
    solver call of the run, and the calls of the run are one per curve, for
    the areas [0 * dt, 1 * dt, ...] in order: later curves are not
    attempted and the failed curve is not retried. *)
Theorem action_solver_failure fft root np_cos np_sin str_float
    self pp qq rguess method trace res call x :
  action fft root np_cos np_sin str_float self pp qq rguess method = (trace, res) ->
  In call trace -> call_reply call = Ok (x, false) ->
  res = Raise (RuntimeError
                 ("QFM orbit for pp=" ++ str_int pp ++ ",qq=" ++ str_int qq
                    ++ ",a=" ++ str_float (call_a call) ++ " not found.")) /\
  (exists earlier, trace = earlier ++ [call]) /\
  map call_a trace =
  map (fun jpq =>
         (float_of_Z jpq
          * (Np.pi * 2 / float_of_Z qq / float_of_Z (_MM self * _pqNtor self)))%float)
      (range (len trace)).
Proof.
  intros H Hin Hreply.
  assert (Hf : failed call) by (exists x; exact Hreply).
  unfold action in H. unfold tbind at 1, lift at 1 in H.
  unfold fdiv in H.
  destruct (qq =? 0) eqn:Eq; cbn [bind] in H;
    [injection H as <- <-; destruct Hin |].
  destruct (_MM self * _pqNtor self =? 0) eqn:Ef; cbn [bind] in H;
    [injection H as <- <-; destruct Hin |].
  cbn [bind] in H.
  set (dt := (Np.pi * 2 / float_of_Z qq / float_of_Z (_MM self * _pqNtor self))%float) in *.
  destruct (_ <- Np.zeros2 _ _ ;; _) as [[[self' dt'] st] | e] eqn:Epre in H;
    [| injection H as <- <-; destruct Hin].
  assert (dt' = dt).
  { repeat (apply bind_ok in Epre as (? & _ & Epre)). injection Epre as _ <- _.
    reflexivity. }
  subst dt'. unfold tbind in H.
  destruct (solve_curves _ (range (_MM self * _pqNtor self)) st) as [tr r] eqn:Eloop.
  apply solve_curves_trace in Eloop as [(n & Hn & Hmap) Hfail].
  assert (Htr : trace = tr /\ (forall e, r = Raise e -> res = Raise e)).
  { destruct r as [st' | e].
    - unfold lift in H. injection H as <- <-. rewrite app_nil_r.
      split; [reflexivity | discriminate].
    - injection H as <- <-. split; [reflexivity |]. intros e' [= <-]. reflexivity. }
  destruct Htr as [-> Hres].
  destruct (Hfail call Hin Hf) as (Hr & Hlast).
  split; [apply Hres; exact Hr |]. split; [exact Hlast |].
  assert (Hlen : length tr = n).
  { apply (f_equal (@length float)) in Hmap.
    rewrite !length_map, length_firstn in Hmap. lia. }
  rewrite Hmap, firstn_range.
  - unfold len. rewrite Hlen. reflexivity.
  - unfold range in Hn. rewrite length_map, length_seq in Hn. exact Hn.
Qed.

Lemma action_solver_failure_witness :
  exists trace res call x,
    action Reference.dft Reference.root_reject Reference.cos Reference.sin
      Reference.str_float GradientFacts.sample_self 1 1 0.5 "hybr" = (trace, res) /\
    In call trace /\ call_reply call = Ok (x, false) /\
    res = Raise (RuntimeError "QFM orbit for pp=1,qq=1,a=0.0 not found.") /\
    (exists earlier, trace = earlier ++ [call]) /\
    map call_a trace =
    map (fun jpq =>
           (float_of_Z jpq
            * (Np.pi * 2 / float_of_Z 1
               / float_of_Z (_MM GradientFacts.sample_self
                             * _pqNtor GradientFacts.sample_self)))%float)
        (range (len trace)).
Proof.
  do 4 eexists.
  assert (E : action Reference.dft Reference.root_reject Reference.cos Reference.sin
                Reference.str_float GradientFacts.sample_self 1 1 0.5 "hybr"
              = ([SolverCall 0
                    [1; 1.5; 1; 1; 1]%float (Ok ([1; 1.5; 1; 1; 1]%float, false))],
                 Raise (RuntimeError "QFM orbit for pp=1,qq=1,a=0.0 not found.")))
    by (vm_compute; reflexivity).
  split; [exact E |].
  assert (Hin : In (SolverCall 0 [1; 1.5; 1; 1; 1]%float
                      (Ok ([1; 1.5; 1; 1; 1]%float, false)))
                   [SolverCall 0 [1; 1.5; 1; 1; 1]%float
                      (Ok ([1; 1.5; 1; 1; 1]%float, false))])
    by (left; reflexivity).
  split; [exact Hin |]. split; [reflexivity |].
  exact (action_solver_failure _ _ _ _ _ _ _ _ _ _ _ _ _ _ E Hin eq_refl).
Defined.

End ActionFacts.

(** ** Two-dimensional arrays *)

Module MatrixFacts.

Import ListFacts NpFacts.

Lemma sequence_map_ok {A C} (g : A -> result C) (P : A -> Prop) (R : C -> Prop) l :
  Forall P l -> (forall x, P x -> exists z, g x = Ok z /\ R z) ->
  exists zs, Np.sequence (map g l) = Ok zs /\ len zs = len l /\ Forall R zs.
Proof.
  intros Hl Hg. induction Hl as [| x l Hx _ IH].
  - exists []. repeat split. constructor.
  - destruct IH as (zs & E & L & F). destruct (Hg x Hx) as (z & Ez & Rz).
    cbn [map Np.sequence]. rewrite Ez, E. cbn [bind].
    exists (z :: zs). split; [reflexivity |].
    split; [rewrite !len_cons; lia | constructor; assumption].
Qed.

Lemma sequence_zip_ok {A B C} (g : A -> B -> result C)
    (P : A -> Prop) (Q : B -> Prop) (R : C -> Prop) a b :
  len a = len b -> Forall P a -> Forall Q b ->
  (forall x y, P x -> Q y -> exists z, g x y = Ok z /\ R z) ->
  exists zs, Np.sequence (Np.zip_with g a b) = Ok zs /\ len zs = len a /\ Forall R zs.
Proof.
  intros Hl Ha Hb Hg. revert b Hl Hb.
  induction Ha as [| x a Hx _ IH]; intros [| y b] Hl Hb.
  - exists []. repeat split. constructor.
  - rewrite len_cons in Hl. pose proof (len_nonneg b).
    change (len (@nil A)) with 0 in Hl. lia.
  - rewrite len_cons in Hl. pose proof (len_nonneg a).
    change (len (@nil B)) with 0 in Hl. lia.
  - rewrite !len_cons in Hl. apply Forall_cons_iff in Hb as [Hy Hb].
    destruct (IH b ltac:(lia) Hb) as (zs & E & L & F).
    destruct (Hg x y Hx Hy) as (z & Ez & Rz).
    cbn [Np.zip_with Np.sequence]. rewrite Ez, E. cbn [bind].
    exists (z :: zs). split; [reflexivity |].
    split; [rewrite !len_cons; lia | constructor; assumption].
Qed.

(** Elementwise operation on two arrays of one shape. *)
Lemma ew2_2d_same {A B C} (f : A -> B -> C) a b r c :
  matrix r c a -> matrix r c b ->
  exists m, Np.ew2_2d f a b = Ok m /\ matrix r c m.
Proof.
  intros [Ha Fa] [Hb Fb]. unfold Np.ew2_2d.
  rewrite ew2_same by lia. cbn [bind].
  destruct (sequence_zip_ok (Np.ew2 f) _ _ (fun z => len z = c) a b
              ltac:(lia) Fa Fb) as (m & E & L & F).
  - intros x y Hx Hy. destruct (ew2_ok f x y ltac:(lia)) as (z & Ez & Lz).
    exists z. split; [exact Ez | lia].
  - exists m. split; [exact E |]. split; [lia | exact F].
Qed.

Lemma ew2_right {A B C} (g : A -> B -> C) a y :
  len a <> 1 -> Np.ew2 g a [y] = Ok (map (fun x => g x y) a).
Proof.
  intros H. unfold Np.ew2. change (len [y]) with 1.
  destruct (Z.eqb_spec (len a) 1) as [E | _]; [contradiction |].
  destruct a as [| x [| x' a]]; [reflexivity | | reflexivity].
  exfalso. apply H. reflexivity.
Qed.

(** A column against a row: the outer combination. *)
Lemma ew2_2d_outer {A B C} (f : A -> B -> C) (ms : list A) (row : list B) :
  exists m, Np.ew2_2d f (Np.column ms) [row] = Ok m /\ matrix (len ms) (len row) m.
Proof.
  unfold Np.ew2_2d.
  assert (Hrows : exists m,
            Np.sequence (map (fun x => Np.ew2 f x row) (Np.column ms)) = Ok m /\
            matrix (len ms) (len row) m).
  { destruct (sequence_map_ok (fun x => Np.ew2 f x row)
                (fun x => exists y, x = [y]) (fun z => len z = len row)
                (Np.column ms)) as (m & E & L & F).
    - apply Forall_map, Forall_forall. intros y _. eauto.
    - intros x (y & ->). apply ew2_singleton.
    - exists m. split; [exact E |]. unfold Np.column in L. rewrite len_map in L.
      split; assumption. }
  destruct (Z.eq_dec (len (Np.column ms)) 1) as [E1 | N1].
  - rewrite ew2_same by exact E1. cbn [bind].
    destruct ms as [| x [| y ms]]; try discriminate E1.
    + cbn [Np.column map Np.zip_with]. exact Hrows.
    + unfold Np.column in E1. rewrite len_map, !len_cons in E1.
      pose proof (len_nonneg ms). lia.
  - rewrite ew2_right by exact N1. cbn [bind]. exact Hrows.
Qed.

Lemma len_flatten {A} r c (m : list (list A)) :
  matrix r c m -> len (Np.flatten m) = r * c.
Proof.
  intros [Hr Hc]. subst r. unfold Np.flatten.
  induction Hc as [| row m Hrow _ IH]; [reflexivity |].
  cbn [concat]. rewrite len_app, len_cons, IH, Hrow. lia.
Qed.

Lemma chunks_shape {A} (r c : nat) (a : list A) :
  length a = (r * c)%nat ->
  length (Np.chunks r c a) = r /\
  Forall (fun row => length row = c) (Np.chunks r c a).
Proof.
  revert a. induction r as [| r IH]; intros a Ha; cbn [Np.chunks].
  - split; constructor.
  - destruct (IH (skipn c a)) as [L F]; [rewrite length_skipn; lia |].
    split; [simpl; lia |]. constructor; [| exact F].
    rewrite length_firstn. lia.
Qed.

Lemma reshape_ok {A} (a : list A) r c :
  0 <= r -> 0 <= c -> len a = r * c ->
  exists m, Np.reshape a r c = Ok m /\ matrix r c m.
Proof.
  intros Hr Hc Ha. unfold Np.reshape.
  rewrite guard_true
    by (rewrite !andb_true_iff; repeat split;
        [apply Z.leb_le | apply Z.leb_le | apply Z.eqb_eq]; assumption).
  cbn [bind]. eexists. split; [reflexivity |].
  destruct (chunks_shape (Z.to_nat r) (Z.to_nat c) a) as [L F];
    [unfold len in Ha; nia |].
  split; [unfold len; lia |].
  eapply Forall_impl; [| exact F]. unfold len. intros. cbv beta in *. lia.
Qed.

Lemma matrix_update {A} r c (m : list (list A)) j row :
  matrix r c m -> len row = c -> matrix r c (update m j row).
Proof.
  intros [Hr Hc] Hrow. split; [rewrite len_update; exact Hr |].
  clear Hr. revert j. induction Hc as [| x m Hx Hm IH]; intros [| j]; simpl;
    constructor; auto.
Qed.

Lemma matrix_getitem {A} r c (m : list (list A)) i row :
  matrix r c m -> getitem m i = Ok row -> len row = c.
Proof.
  intros [_ Hc] H. unfold getitem in H. unbind H as j J.
  destruct (nth_error m j) as [x |] eqn:E; [| discriminate].
  injection H as <-. apply nth_error_In in E.
  rewrite Forall_forall in Hc. apply Hc. exact E.
Qed.

(** The first or last row, rewritten entry by entry. *)
Lemma maprow_ok {A} (f : A -> A) r c (m : list (list A)) i :
  matrix r c m -> 1 <= r -> i = 0 \/ i = -1 ->
  exists m', Np.maprow f m i = Ok m' /\ matrix r c m'.
Proof.
  intros Hm Hr Hi. pose proof Hm as [L _]. unfold Np.maprow.
  assert (Hidx : exists j, index (len m) i = Ok j).
  { destruct Hi as [-> | ->];
      [rewrite index_inside by lia | rewrite index_from_end by lia]; eauto. }
  destruct Hidx as (j & Ej).
  assert (Hget : exists row, getitem m i = Ok row).
  { unfold getitem. rewrite Ej. cbn [bind].
    destruct (nth_error m j) as [x |] eqn:E; [eauto |].
    apply nth_error_None in E. apply index_ok in Ej. unfold len in Ej. lia. }
  destruct Hget as (row & Er). rewrite Er. cbn [bind].
  unfold setitem. rewrite Ej. cbn [bind]. eexists. split; [reflexivity |].
  apply matrix_update; [exact Hm |]. rewrite len_map.
  apply (matrix_getitem r c m i); assumption.
Qed.

(** *** Index arrays *)

Lemma range_bounds n : Forall (fun i => 0 <= i < n) (range n).
Proof.
  apply Forall_forall. intros i Hi. unfold range in Hi.
  apply in_map_iff in Hi as (k & <- & Hk). apply in_seq in Hk. lia.
Qed.

Lemma len_idxlist N : 0 <= N -> len (Spectral.idxlist N) = 2 * N + 1.
Proof.
  intros H. unfold Spectral.idxlist, Np.arange_down.
  rewrite !len_app, !len_map, len_arange, len_range by lia.
  change (len [0]) with 1. lia.
Qed.

Lemma idxlist_bounds N :
  0 <= N -> Forall (fun i => - N <= i <= N) (Spectral.idxlist N).
Proof.
  intros H. unfold Spectral.idxlist, Np.arange, Np.arange_down.
  apply Forall_app. split; [constructor; [lia | constructor] |].
  apply Forall_app. split.
  - apply Forall_map, Forall_map.
    eapply Forall_impl; [| apply range_bounds]. cbv beta. intros i Hi. lia.
  - apply Forall_map.
    eapply Forall_impl; [| apply range_bounds]. cbv beta. intros i Hi. lia.
Qed.

Lemma index_within n i N :
  - N <= i <= N -> N < n -> exists j, index n i = Ok j.
Proof.
  intros Hi Hn. destruct (Z.lt_ge_cases i 0).
  - rewrite index_from_end by lia. eauto.
  - rewrite index_inside by lia. eauto.
Qed.

Lemma getitem_within {A} (row : list A) i N :
  - N <= i <= N -> N < len row -> exists x, getitem row i = Ok x.
Proof.
  intros Hi Hn. unfold getitem.
  destruct (index_within (len row) i N Hi Hn) as (j & Ej). rewrite Ej. cbn [bind].
  destruct (nth_error row j) as [x |] eqn:E; [eauto |].
  apply nth_error_None in E. apply index_ok in Ej. unfold len in Ej. lia.
Qed.

(** Gathering by an index array. *)
Lemma take_ok {A} (row : list A) idx N :
  N < len row -> Forall (fun i => - N <= i <= N) idx ->
  exists v, Np.take row idx = Ok v /\ len v = len idx.
Proof.
  intros Hn Hidx. unfold Np.take.
  destruct (sequence_map_ok (getitem row) _ (fun _ => True) idx Hidx)
    as (v & E & L & _).
  - intros i Hi. destruct (getitem_within row i N Hi Hn) as (x & Ex). eauto.
  - eauto.
Qed.

Lemma len_fold_update {A} (jx : list (nat * A)) (row : list A) :
  len (fold_left (fun acc p => update acc (fst p) (snd p)) jx row) = len row.
Proof.
  revert row. induction jx as [| p jx IH]; intros row; [reflexivity |].
  cbn [fold_left]. rewrite IH. apply len_update.
Qed.

(** Scattering by an index array. *)
Lemma put_ok {A} (row : list A) idx v N :
  N < len row -> Forall (fun i => - N <= i <= N) idx -> len v = len idx ->
  exists row', Np.put row idx v = Ok row' /\ len row' = len row.
Proof.
  intros Hn Hidx Hv. unfold Np.put.
  destruct (sequence_map_ok (index (len row)) _ (fun _ => True) idx Hidx)
    as (js & -> & _ & _).
  - intros i Hi. destruct (index_within (len row) i N Hi Hn) as (j & Ej). eauto.
  - cbn [bind]. rewrite Hv, Z.eqb_refl. cbn [bind].
    eexists. split; [reflexivity | apply len_fold_update].
Qed.

Lemma Forall_firstn {A} (P : A -> Prop) n l : Forall P l -> Forall P (firstn n l).
Proof.
  intros H. rewrite <- (firstn_skipn n l) in H. apply Forall_app in H. tauto.
Qed.

Lemma Forall_skipn {A} (P : A -> Prop) n l : Forall P l -> Forall P (skipn n l).
Proof.
  intros H. rewrite <- (firstn_skipn n l) in H. apply Forall_app in H. tauto.
Qed.

Lemma matrix_slice {A} r c (m : list (list A)) a b :
  matrix r c m -> 0 <= a <= b -> b <= r -> matrix (b - a) c (slice m a (Some b)).
Proof.
  intros [Hr Hc] Ha Hb. split; [apply len_slice; lia |].
  rewrite slice_inside by lia. apply Forall_firstn, Forall_skipn. exact Hc.
Qed.

Lemma matrix_slice_open {A} r c (m : list (list A)) a :
  matrix r c m -> 0 <= a <= r -> matrix (r - a) c (slice m a None).
Proof.
  intros [Hr Hc] Ha. split; [rewrite len_slice_open; lia |].
  rewrite slice_open by lia. apply Forall_skipn. exact Hc.
Qed.

(** [m[0:R, idxlist]] *)
Lemma take_cols_ok {A} r c (m : list (list A)) R idx N :
  matrix r c m -> 0 <= R <= r -> N < c -> Forall (fun i => - N <= i <= N) idx ->
  exists v, Np.take_cols m 0 (Some R) idx = Ok v /\ matrix R (len idx) v.
Proof.
  intros Hm HR Hn Hidx. unfold Np.take_cols.
  destruct (matrix_slice r c m 0 R Hm ltac:(lia) ltac:(lia)) as [L F].
  destruct (sequence_map_ok (fun row => Np.take row idx) _
              (fun v => len v = len idx) _ F) as (v & E & Lv & Fv).
  - intros row Hrow. apply (take_ok row idx N); [lia | exact Hidx].
  - exists v. split; [exact E |]. split; [lia | exact Fv].
Qed.

(** The rows [a .. b-1] of an array, replaced. *)
Lemma matrix_splice {A} r c (m mid' : list (list A)) a k :
  matrix r c m -> (a + k <= length m)%nat ->
  length mid' = k -> Forall (fun row => len row = c) mid' ->
  matrix r c (firstn a m ++ mid' ++ skipn (a + k) m).
Proof.
  intros [Hr Hc] Hak Hk Hmid. split.
  - unfold len in *. rewrite !length_app, length_firstn, length_skipn. lia.
  - apply Forall_app. split; [apply Forall_firstn; exact Hc |].
    apply Forall_app. split; [exact Hmid | apply Forall_skipn; exact Hc].
Qed.

(** [m[0:R, idxlist] = v] *)
Lemma put_cols_ok {A} r c (m v : list (list A)) R idx N :
  matrix r c m -> 0 <= R <= r -> N < c -> Forall (fun i => - N <= i <= N) idx ->
  matrix R (len idx) v ->
  exists m', Np.put_cols m 0 (Some R) idx v = Ok m' /\ matrix r c m'.
Proof.
  intros Hm HR Hn Hidx [Lv Fv]. pose proof Hm as [Lm Fm]. unfold Np.put_cols.
  rewrite !clip_inside by lia. rewrite Z.sub_0_r.
  replace (len v =? Z.of_nat (Z.to_nat R)) with true by (symmetry; apply Z.eqb_eq; lia).
  cbn [bind].
  destruct (sequence_zip_ok (fun row val => Np.put row idx val)
              (fun row => len row = c) (fun val => len val = len idx)
              (fun row => len row = c)
              (firstn (Z.to_nat R) (skipn (Z.to_nat 0) m)) v)
    as (mid' & -> & L' & F').
  - rewrite len_firstn, len_skipn. lia.
  - apply Forall_firstn, Forall_skipn. exact Fm.
  - exact Fv.
  - intros row val Hrow Hval.
    destruct (put_ok row idx val N ltac:(lia) Hidx Hval) as (row' & E & L).
    exists row'. split; [exact E | lia].
  - cbn [bind]. eexists. split; [reflexivity |].
    apply matrix_splice; try assumption.
    + unfold len in *. lia.
    + rewrite len_firstn, len_skipn in L'. unfold len in *. lia.
Qed.

(** [m[a:b, :] = v], whole rows. *)
Lemma setslice2_rows_ok {A} r c (m v : list (list A)) a hi b :
  matrix r c m -> 0 <= a <= b -> b <= r ->
  match hi with Some h => h = b | None => b = r end ->
  matrix (b - a) c v ->
  exists m', Np.setslice2 m a hi 0 None v = Ok m' /\ matrix r c m'.
Proof.
  intros Hm Ha Hb Hhi [Lv Fv]. pose proof Hm as [Lm Fm]. unfold Np.setslice2.
  rewrite (clip_inside (len m) a) by lia.
  replace (match hi with Some h => clip (len m) h | None => len m end) with b.
  2:{ destruct hi as [h |]; [subst h; rewrite clip_inside by lia |]; lia. }
  replace (len v =? Z.of_nat (Z.to_nat (b - a))) with true
    by (symmetry; apply Z.eqb_eq; lia).
  cbn [bind].
  destruct (sequence_zip_ok (fun row val => Np.setslice row 0 None val)
              (fun row => len row = c) (fun val => len val = c)
              (fun row => len row = c)
              (firstn (Z.to_nat (b - a)) (skipn (Z.to_nat a) m)) v)
    as (mid' & -> & L' & F').
  - rewrite len_firstn, len_skipn. lia.
  - apply Forall_firstn, Forall_skipn. exact Fm.
  - exact Fv.
  - intros row val Hrow Hval.
    destruct (setslice_open_ok row 0 val) as (row' & E);
      [pose proof (len_nonneg row); lia | lia |].
    exists row'. split; [exact E |]. apply setslice_len in E. lia.
  - cbn [bind]. eexists. split; [reflexivity |].
    apply matrix_splice; try assumption.
    + unfold len in *. lia.
    + rewrite len_firstn, len_skipn in L'. unfold len in *. lia.
Qed.

Lemma max_ok a : 1 <= len a -> exists x, Np.max a = Ok x.
Proof.
  intros H. destruct a as [| x a]; [change (len (@nil float)) with 0 in H; lia |].
  cbn [Np.max]. eauto.
Qed.

End MatrixFacts.
(** ** Comparisons of binary64 numbers *)

Module FloatFacts.

Lemma cont_eq m1 m2 : PosDef.Pos.compare_cont Eq m1 m2 = Pos.compare m1 m2.
Proof. reflexivity. Qed.

Ltac cmp_cases :=
  repeat match goal with
  | |- context [PosDef.Pos.compare_cont Eq ?a ?b] =>
      change (PosDef.Pos.compare_cont Eq a b) with (Pos.compare a b) in *
  | H : context [PosDef.Pos.compare_cont Eq ?a ?b] |- _ =>
      change (PosDef.Pos.compare_cont Eq a b) with (Pos.compare a b) in *
  end;
  repeat match goal with
  | |- context [Z.compare ?a ?b] => destruct (Z.compare_spec a b)
  | H : context [Z.compare ?a ?b] |- _ => destruct (Z.compare_spec a b)
  | |- context [Pos.compare ?a ?b] => destruct (Pos.compare_spec a b)
  | H : context [Pos.compare ?a ?b] |- _ => destruct (Pos.compare_spec a b)
  end.

Lemma SFcompare_trans b a t c :
  SFcompare b a = Some c -> c <> Gt -> SFcompare a t = Some Lt ->
  SFcompare b t = Some Lt.
Proof.
  destruct b as [sb | sb | | sb mb eb], a as [sa | sa | | sa ma ea],
    t as [st | st | | st mt et];
    try destruct sb; try destruct sa; try destruct st;
    cbn [SFcompare]; rewrite ?cont_eq;
    intros H1 Hc H2; try discriminate; try reflexivity;
    try (injection H1 as <-; contradiction);
    try (exfalso; apply Hc; congruence).
  all: cmp_cases; subst; cbn in *; try discriminate; try reflexivity;
    try lia; try (exfalso; apply Hc; congruence).
Qed.

Lemma SFcompare_antisym b a :
  SFcompare b a = Some Gt -> SFcompare a b = Some Lt.
Proof.
  destruct b as [sb | sb | | sb mb eb], a as [sa | sa | | sa ma ea];
    try destruct sb; try destruct sa;
    cbn [SFcompare]; intros H; try discriminate; try reflexivity.
  all: cmp_cases; subst; cbn in *; try discriminate; try reflexivity; try lia.
Qed.

Lemma SFcompare_total b a :
  b <> S754_nan -> a <> S754_nan -> exists c, SFcompare b a = Some c.
Proof.
  destruct b, a; cbn [SFcompare]; intros Hb Ha; try contradiction; eauto.
Qed.

Lemma spec_float_eq_nan (x : spec_float) : x = S754_nan \/ x <> S754_nan.
Proof. destruct x; [right | right | left | right]; try discriminate. reflexivity. Qed.

Lemma SFcompare_refl x : x <> S754_nan -> SFcompare x x = Some Eq.
Proof.
  destruct x as [s | s | | s m e]; cbn [SFcompare]; try destruct s;
    intros H; try reflexivity; try contradiction.
  - rewrite Z.compare_refl.
    change (PosDef.Pos.compare_cont Eq m m) with (Pos.compare m m).
    rewrite Pos.compare_refl. reflexivity.
  - rewrite Z.compare_refl.
    change (PosDef.Pos.compare_cont Eq m m) with (Pos.compare m m).
    rewrite Pos.compare_refl. reflexivity.
Qed.

Lemma is_nan_spec x : PrimFloat.is_nan x = true <-> Prim2SF x = S754_nan.
Proof.
  unfold PrimFloat.is_nan. rewrite eqb_spec. unfold SFeqb.
  destruct (spec_float_eq_nan (Prim2SF x)) as [E | N].
  - rewrite E. cbn. split; reflexivity.
  - rewrite (SFcompare_refl _ N). cbn. split; [discriminate | contradiction].
Qed.

(** The larger of two numbers is below a bound exactly when both are;
    with a NaN among them neither side holds. *)
Lemma maximum_below a b t :
  PrimFloat.ltb (Np.maximum a b) t = PrimFloat.ltb a t && PrimFloat.ltb b t.
Proof.
  unfold Np.maximum.
  destruct (PrimFloat.leb b a) eqn:Hle; cbn [orb].
  - destruct (PrimFloat.ltb a t) eqn:Hat; [| reflexivity]. cbn [andb].
    rewrite leb_spec in Hle. rewrite ltb_spec in Hat. rewrite ltb_spec.
    unfold SFleb, SFltb in *.
    destruct (SFcompare (Prim2SF b) (Prim2SF a)) as [c |] eqn:Eba; [| discriminate].
    destruct (SFcompare (Prim2SF a) (Prim2SF t)) as [[] |] eqn:Eat; try discriminate.
    rewrite (SFcompare_trans _ _ _ c Eba); [reflexivity | | exact Eat].
    intros ->. discriminate.
  - destruct (PrimFloat.is_nan a) eqn:Hnan.
    + apply is_nan_spec in Hnan.
      replace (PrimFloat.ltb a t) with false; [reflexivity |].
      rewrite ltb_spec. unfold SFltb. rewrite Hnan. reflexivity.
    + destruct (PrimFloat.ltb b t) eqn:Hbt; [| rewrite andb_false_r; reflexivity].
      rewrite andb_true_r. symmetry.
      rewrite leb_spec in Hle. rewrite ltb_spec in Hbt. rewrite ltb_spec.
      unfold SFleb, SFltb in *.
      destruct (SFcompare (Prim2SF b) (Prim2SF t)) as [[] |] eqn:Ebt; try discriminate.
      assert (Ha : Prim2SF a <> S754_nan).
      { intros E. apply is_nan_spec in E. congruence. }
      assert (Hb : Prim2SF b <> S754_nan).
      { intros E. rewrite E in Ebt. discriminate. }
      destruct (SFcompare_total _ _ Hb Ha) as (c & Eba). rewrite Eba in Hle.
      destruct c; try discriminate.
      apply SFcompare_antisym in Eba.
      rewrite (SFcompare_trans _ _ _ Lt Eba); [reflexivity | discriminate | exact Ebt].
Qed.

End FloatFacts.

(** ** Boundary straightening *)

Module BoundaryFacts.

Import Spectral QFM ListFacts NpFacts MatrixFacts SpectralFacts.

Lemma matrix_map_map {A B} (f : A -> B) r c (m : list (list A)) :
  matrix r c m -> matrix r c (map (map f) m).
Proof.
  intros Hm. apply (matrix_map _ r c c); [exact Hm |].
  intros row Hrow. rewrite len_map. exact Hrow.
Qed.

(** *** Shapes of the two-angle transforms *)

Lemma pad_ok N h cn :
  1 <= N <= h -> matrix (N + 1) (2 * N + 1) cn ->
  exists p, pad N h N h cn = Ok p /\ matrix (h + 1) (2 * h) p.
Proof.
  intros HN Hcn. unfold pad.
  step (zeros2_ok (h + 1) (2 * h) ltac:(lia) ltac:(lia)).
  rename x into z. rename H into Hz.
  assert (Hv : matrix (N + 1) (len (idxlist N)) cn)
    by (rewrite len_idxlist by lia; exact Hcn).
  step (put_cols_ok (h + 1) (2 * h) z cn (N + 1) (idxlist N) N Hz
          ltac:(lia) ltac:(lia) (idxlist_bounds N ltac:(lia)) Hv).
  rename x into p1. rename H into H1.
  step (maprow_ok (fun x => (x * 2)%float) (h + 1) (2 * h) p1 0 H1
          ltac:(lia) ltac:(left; reflexivity)).
  rename x into p2. rename H into H2.
  apply (maprow_ok _ (h + 1) (2 * h)); [exact H2 | lia | right; reflexivity].
Qed.

Lemma irfft2D_ok fft cn sn N h :
  fft_shapes fft -> 1 <= N <= h ->
  matrix (N + 1) (2 * N + 1) cn -> matrix (N + 1) (2 * N + 1) sn ->
  exists f, irfft2D fft cn sn (Some (2 * h)) (Some (2 * h)) = Ok f /\
            matrix (2 * h) (2 * h) f.
Proof.
  intros Hs HN Hcn Hsn. unfold irfft2D.
  rewrite (matrix_len _ _ _ Hcn), (matrix_ncols _ _ _ Hcn) by lia.
  replace (N + 1 - 1) with N by lia.
  replace ((2 * N + 1 - 1) / 2) with N
    by (replace (2 * N + 1 - 1) with (N * 2) by lia; symmetry; apply Z.div_mul; lia).
  replace (2 * h / 2) with h
    by (replace (2 * h) with (h * 2) by lia; symmetry; apply Z.div_mul; lia).
  step (pad_ok N h cn HN Hcn). rename x into cp. rename H into Hcp.
  step (pad_ok N h sn HN Hsn). rename x into sp. rename H into Hsp.
  step (ew2_2d_same (fun c s => csub (of_real c) (cmul (Cx 0 1) (of_real s)))
          cp sp _ _ Hcp Hsp).
  rename x into spec. rename H into Hspec.
  unfold np_fft_irfft2.
  rewrite (matrix_len _ _ _ Hspec), (matrix_ncols _ _ _ Hspec) by lia.
  rewrite guard_true
    by (apply andb_true_iff; split; apply Z.leb_le; lia).
  cbn [bind]. eexists. split; [reflexivity |].
  apply matrix_map_map.
  pose proof (irfft2_shape fft Hs spec (h + 1) (2 * h) Hspec ltac:(lia) ltac:(lia)) as Ho.
  replace (2 * (h + 1 - 1)) with (2 * h) in Ho by lia. exact Ho.
Qed.

Lemma half_weight_ok part r c r0 c0 (fftout : list (list complex)) :
  matrix r c fftout -> 1 <= r ->
  exists a, half_weight part r0 c0 fftout = Ok a /\ matrix r c a.
Proof.
  intros Hm Hr. unfold half_weight.
  pose proof (matrix_map_map
                (fun z => (part z / float_of_Z r0 / float_of_Z c0 * 2)%float)
                r c fftout Hm) as H0.
  step (maprow_ok (fun x => (x / 2)%float) r c _ 0 H0 Hr ltac:(left; reflexivity)).
  apply (maprow_ok _ r c); [assumption | exact Hr | right; reflexivity].
Qed.

Lemma rfft2D_ok fft f N h :
  fft_shapes fft -> 1 <= N <= h -> matrix (2 * h) (2 * h) f ->
  exists cn sn, rfft2D fft f (Some N) (Some N) = Ok (cn, sn) /\
    matrix (N + 1) (2 * N + 1) cn /\ matrix (N + 1) (2 * N + 1) sn.
Proof.
  intros Hs HN Hf. unfold rfft2D, np_fft_rfft2.
  rewrite (matrix_len _ _ _ Hf), (matrix_ncols _ _ _ Hf) by lia.
  rewrite guard_true by (apply andb_true_iff; split; apply Z.leb_le; lia).
  cbn [bind].
  pose proof (rfft2_shape fft Hs f (2 * h) (2 * h) Hf ltac:(lia) ltac:(lia)) as Ho.
  replace (2 * h / 2) with h in Ho
    by (replace (2 * h) with (h * 2) by lia; symmetry; apply Z.div_mul; lia).
  step (half_weight_ok re (h + 1) (2 * h) (2 * h) (2 * h) _ Ho ltac:(lia)).
  rename x into fc. rename H into Hfc.
  step (half_weight_ok (fun z => (- im z)%float) (h + 1) (2 * h) (2 * h) (2 * h)
          _ Ho ltac:(lia)).
  rename x into fs. rename H into Hfs.
  step (zeros2_ok (N + 1) (2 * N + 1) ltac:(lia) ltac:(lia)).
  rename x into cn0. rename H into Hcn0.
  destruct (take_cols_ok (h + 1) (2 * h) fc (N + 1) (idxlist N) N Hfc
              ltac:(lia) ltac:(lia) (idxlist_bounds N ltac:(lia))) as (vc & -> & Hvc).
  cbn [bind]. rewrite len_idxlist in Hvc by lia.
  destruct (setslice2_rows_ok (N + 1) (2 * N + 1) cn0 vc 0 (Some (N + 1)) (N + 1)
              Hcn0 ltac:(lia) ltac:(lia) eq_refl
              ltac:(rewrite Z.sub_0_r; exact Hvc)) as (cn & -> & Hcn).
  cbn [bind].
  destruct (take_cols_ok (h + 1) (2 * h) fs (N + 1) (idxlist N) N Hfs
              ltac:(lia) ltac:(lia) (idxlist_bounds N ltac:(lia))) as (vs & -> & Hvs).
  cbn [bind]. rewrite len_idxlist in Hvs by lia.
  destruct (setslice2_rows_ok (N + 1) (2 * N + 1) cn0 vs 0 (Some (N + 1)) (N + 1)
              Hcn0 ltac:(lia) ltac:(lia) eq_refl
              ltac:(rewrite Z.sub_0_r; exact Hvs)) as (sn & -> & Hsn).
  cbn [bind]. eauto.
Qed.

(** *** One round keeps the shape of the spectra *)

(** Spectra of [N + 1] poloidal by [2 * N + 1] toroidal modes. *)
Definition shaped (N : Z) (st : boundary) : Prop :=
  matrix (N + 1) (2 * N + 1) (lambda_cn st) /\
  matrix (N + 1) (2 * N + 1) (lambda_sn st).

Lemma getitem_row {A} r c (m : list (list A)) i :
  matrix r c m -> 0 <= i < r ->
  exists row, getitem m i = Ok row /\ len row = c.
Proof.
  intros Hm Hi. pose proof Hm as [L _].
  destruct (getitem_inside m i ltac:(lia)) as (row & E & _).
  exists row. split; [exact E | apply (matrix_getitem r c m i row Hm E)].
Qed.

Lemma update_row0_ok lam spec mlist nlist den N :
  0 <= N -> matrix (N + 1) (2 * N + 1) lam -> matrix (N + 1) (2 * N + 1) spec ->
  len mlist = N + 1 -> len nlist = 2 * N + 1 ->
  exists lam', update_row0 lam spec mlist nlist den = Ok lam' /\
               matrix (N + 1) (2 * N + 1) lam'.
Proof.
  intros HN Hlam Hspec Hm Hn. unfold update_row0.
  step (getitem_row _ _ spec 0 Hspec ltac:(lia)). rename x into s0. rename H into Ls0.
  destruct (getitem_inside mlist 0 ltac:(lia)) as (m0 & -> & _). cbn [bind].
  step (ew2_singleton den m0 (slice nlist 1 None)). rename x into d. rename H into Ld.
  rewrite len_slice_open in Ld by lia.
  step (ew2_ok PrimFloat.div (slice s0 1 None) d
          ltac:(rewrite len_slice_open; lia)).
  rename x into v. rename H into Lv. rewrite len_slice_open in Lv by lia.
  step (getitem_row _ _ lam 0 Hlam ltac:(lia)). rename x into l0. rename H into Ll0.
  destruct (setslice_open_ok l0 1 v ltac:(lia) ltac:(lia)) as (l1 & E1).
  rewrite E1. cbn [bind]. apply setslice_len in E1.
  pose proof Hlam as [L _].
  rewrite setitem_inside by lia. eexists. split; [reflexivity |].
  apply matrix_update; [exact Hlam | lia].
Qed.

Lemma update_rows_ok lam spec mlist nlist den N :
  0 <= N -> matrix (N + 1) (2 * N + 1) lam -> matrix (N + 1) (2 * N + 1) spec ->
  len mlist = N + 1 -> len nlist = 2 * N + 1 ->
  exists lam', update_rows lam spec mlist nlist den = Ok lam' /\
               matrix (N + 1) (2 * N + 1) lam'.
Proof.
  intros HN Hlam Hspec Hm Hn. unfold update_rows.
  step (ew2_2d_outer den (slice mlist 1 None) nlist).
  rename x into d. rename H into Hd.
  rewrite len_slice_open, Hm, Hn in Hd by lia.
  pose proof (matrix_slice_open _ _ spec 1 Hspec ltac:(lia)) as Hs1.
  step (ew2_2d_same PrimFloat.div (slice spec 1 None) d _ _ Hs1 Hd).
  rename x into v. rename H into Hv.
  apply (setslice2_rows_ok (N + 1) (2 * N + 1) lam v 1 None (N + 1));
    [exact Hlam | lia | lia | reflexivity | exact Hv].
Qed.

Lemma zero_mode_ok lam N :
  0 <= N -> matrix (N + 1) (2 * N + 1) lam ->
  exists lam', zero_mode lam = Ok lam' /\ matrix (N + 1) (2 * N + 1) lam'.
Proof.
  intros HN Hlam. unfold zero_mode.
  step (getitem_row _ _ lam 0 Hlam ltac:(lia)). rename x into l0. rename H into Ll0.
  rewrite setitem_inside by lia. cbn [bind].
  pose proof Hlam as [L _].
  rewrite setitem_inside by lia. eexists. split; [reflexivity |].
  apply matrix_update; [exact Hlam | rewrite len_update; exact Ll0].
Qed.

Lemma round_ok fft self rho N h rarr zarr mlist nlist st :
  fft_shapes fft -> 1 <= N <= h ->
  matrix (2 * h) (2 * h) rarr -> matrix (2 * h) (2 * h) zarr ->
  len mlist = N + 1 -> len nlist = 2 * N + 1 -> shaped N st ->
  exists st', round fft self rho N N (2 * h) (2 * h) rarr zarr mlist nlist st = Ok st'
              /\ shaped N st'.
Proof.
  intros Hs HN Hr Hz Hm Hn [Hcn Hsn]. unfold round.
  step (irfft2D_ok fft (lambda_cn st) (lambda_sn st) N h Hs HN Hcn Hsn).
  rename x into lambda_real. rename H into Hreal.
  step (linspace_ok 0 (Np.pi * 2) (2 * h) ltac:(lia)).
  rename x into th. rename H into Lth.
  step (ew2_2d_column PrimFloat.add th lambda_real _ _ Lth Hreal).
  rename x into tarr. rename H into Ht.
  step (stack3_ok (Np.flatten rarr) (Np.flatten tarr) (Np.flatten zarr)
          ltac:(rewrite (len_flatten _ _ _ Hr), (len_flatten _ _ _ Ht); reflexivity)
          ltac:(rewrite (len_flatten _ _ _ Hr), (len_flatten _ _ _ Hz); reflexivity)).
  rename x into coords. rename H into Lc.
  rewrite (len_flatten _ _ _ Hr) in Lc.
  unfold B_many.
  assert (LB : forall g : float * float * float -> float,
            len (map g (map (B (_problem self)) coords)) = 2 * h * (2 * h))
    by (intros g; rewrite !len_map; exact Lc).
  step (reshape_ok (map (fun b => fst (fst b)) (map (B (_problem self)) coords))
          (2 * h) (2 * h) ltac:(lia) ltac:(lia) (LB _)).
  rename x into Bs. rename H into HBs.
  step (reshape_ok (map (fun b => snd (fst b)) (map (B (_problem self)) coords))
          (2 * h) (2 * h) ltac:(lia) ltac:(lia) (LB _)).
  rename x into Bt. rename H into HBt.
  step (reshape_ok (map (fun b => snd b) (map (B (_problem self)) coords))
          (2 * h) (2 * h) ltac:(lia) ltac:(lia) (LB _)).
  rename x into Bz. rename H into HBz.
  step (ew2_2d_same PrimFloat.div Bt Bz _ _ HBt HBz).
  rename x into ratio. rename H into Hratio.
  destruct (rfft2D_ok fft ratio N h Hs HN Hratio) as (cn & sn & -> & Hc & Hsn').
  cbn [bind].
  step (getitem_row _ _ cn 0 Hc ltac:(lia)). rename x into cn0. rename H into Lcn0.
  destruct (getitem_inside cn0 0 ltac:(lia)) as (iota' & -> & _). cbn [bind].
  step (update_row0_ok (lambda_cn st) sn mlist nlist
          (fun m n => (float_of_Z (- m) * iota' + float_of_Z n)%float) N
          ltac:(lia) Hcn Hsn' Hm Hn).
  rename x into c1. rename H into Hc1.
  step (update_row0_ok (lambda_sn st) cn mlist nlist
          (fun m n => (float_of_Z m * iota' - float_of_Z n)%float) N
          ltac:(lia) Hsn Hc Hm Hn).
  rename x into s1. rename H into Hs1.
  step (update_rows_ok c1 sn mlist nlist
          (fun m n => (float_of_Z (- m) * iota' + float_of_Z n)%float) N
          ltac:(lia) Hc1 Hsn' Hm Hn).
  rename x into c2. rename H into Hc2.
  step (update_rows_ok s1 cn mlist nlist
          (fun m n => (float_of_Z m * iota' - float_of_Z n)%float) N
          ltac:(lia) Hs1 Hc Hm Hn).
  rename x into s2. rename H into Hs2.
  step (zero_mode_ok c2 N ltac:(lia) Hc2). rename x into c3. rename H into Hc3.
  step (zero_mode_ok s2 N ltac:(lia) Hs2). rename x into s3. rename H into Hs3.
  eexists. split; [reflexivity |]. split; assumption.
Qed.

End BoundaryFacts.

(** ** The straightening loop *)

Module StraightenFacts.

Import Spectral QFM ListFacts NpFacts MatrixFacts SpectralFacts BoundaryFacts.

(** *** Shapes are kept whenever a round returns *)

Lemma sequence_zip_inv {A B C} (g : A -> B -> result C) (R : C -> Prop) a b zs :
  Np.sequence (Np.zip_with g a b) = Ok zs ->
  (forall x y z, In x a -> g x y = Ok z -> R z) ->
  len zs = Z.min (len a) (len b) /\ Forall R zs.
Proof.
  revert b zs. induction a as [| x a IH]; intros [| y b] zs H HR;
    cbn [Np.zip_with Np.sequence] in H.
  - injection H as <-. split; [reflexivity | constructor].
  - injection H as <-. split; [| constructor].
    rewrite len_cons. pose proof (len_nonneg b). change (len (@nil A)) with 0.
    change (len (@nil C)) with 0. lia.
  - injection H as <-. split; [| constructor].
    rewrite len_cons. pose proof (len_nonneg a). change (len (@nil B)) with 0.
    change (len (@nil C)) with 0. lia.
  - unbind H as z Ez. unbind H as zs' Ezs. injection H as <-.
    destruct (IH b zs' Ezs) as [L F]; [intros; eapply HR; eauto; right; assumption |].
    split; [rewrite !len_cons; lia |].
    constructor; [eapply HR; [left; reflexivity | exact Ez] | exact F].
Qed.

Lemma setitem_matrix {A} r c (m : list (list A)) i row m' :
  matrix r c m -> len row = c -> setitem m i row = Ok m' -> matrix r c m'.
Proof.
  intros Hm Hrow H. unfold setitem in H. unbind H as j J. injection H as <-.
  apply matrix_update; assumption.
Qed.

Lemma setslice2_matrix {A} r c (m : list (list A)) r0 r1 c0 c1 v m' :
  matrix r c m -> Np.setslice2 m r0 r1 c0 c1 v = Ok m' -> matrix r c m'.
Proof.
  intros Hm H. pose proof Hm as [Lm Fm]. unfold Np.setslice2 in H.
  pose proof (len_nonneg m) as Hn.
  pose proof (clip_bounds (len m) r0 Hn) as Ha.
  set (a := clip (len m) r0) in *.
  set (b := match r1 with Some h => clip (len m) h | None => len m end) in *.
  assert (Hb : 0 <= b <= len m).
  { unfold b. destruct r1; [apply clip_bounds; exact Hn | lia]. }
  set (k := Z.to_nat (b - a)) in *.
  unbind H as vs Evs. unbind H as mid' Emid. injection H as <-.
  assert (Lvs : len vs = Z.of_nat k).
  { destruct (Z.eqb_spec (len v) (Z.of_nat k)) as [E | N].
    - injection Evs as <-. exact E.
    - destruct v as [| x [| y v]]; try discriminate. injection Evs as <-.
      apply len_repeat. }
  destruct (sequence_zip_inv _ (fun row => len row = c) _ _ _ Emid) as [L F].
  - intros row val row' Hin E. apply setslice_len in E.
    assert (Hrow : Forall (fun row => len row = c)
                     (firstn k (skipn (Z.to_nat a) m)))
      by (apply Forall_firstn, Forall_skipn; exact Fm).
    rewrite Forall_forall in Hrow. rewrite E. apply Hrow. exact Hin.
  - rewrite len_firstn, len_skipn in L.
    apply matrix_splice; try assumption; unfold len in *; lia.
Qed.

Lemma update_row0_matrix lam spec mlist nlist den r c lam' :
  matrix r c lam -> update_row0 lam spec mlist nlist den = Ok lam' ->
  matrix r c lam'.
Proof.
  intros Hm H. unfold update_row0 in H.
  unbind H as s0 E0. unbind H as m0 E1. unbind H as d E2. unbind H as v E3.
  unbind H as l0 E4. unbind H as l1 E5.
  apply (setitem_matrix r c lam 0 l1); [exact Hm | | exact H].
  rewrite (setslice_len _ _ _ _ _ E5). apply (matrix_getitem r c lam 0 l0 Hm E4).
Qed.

Lemma update_rows_matrix lam spec mlist nlist den r c lam' :
  matrix r c lam -> update_rows lam spec mlist nlist den = Ok lam' ->
  matrix r c lam'.
Proof.
  intros Hm H. unfold update_rows in H.
  unbind H as d E0. unbind H as v E1.
  apply (setslice2_matrix r c lam _ _ _ _ _ lam' Hm H).
Qed.

Lemma zero_mode_matrix lam r c lam' :
  matrix r c lam -> zero_mode lam = Ok lam' -> matrix r c lam'.
Proof.
  intros Hm H. unfold zero_mode in H.
  unbind H as l0 E0. unbind H as l1 E1.
  apply (setitem_matrix r c lam 0 l1); [exact Hm | | exact H].
  rewrite (setitem_len _ _ _ _ E1). apply (matrix_getitem r c lam 0 l0 Hm E0).
Qed.

(** Spectra of a given shape. *)
Definition shape (r c : Z) (st : boundary) : Prop :=
  matrix r c (lambda_cn st) /\ matrix r c (lambda_sn st).

Lemma body_shape fft self rho s r c st st' :
  shape r c st -> body fft self rho s st = Ok st' -> shape r c st'.
Proof.
  intros [Hc Hs] H. unfold body, round in H.
  unbind H as lambda_real E1. unbind H as th E2. unbind H as tarr E3.
  unbind H as coords E4. unbind H as Bs E5. unbind H as Bt E6.
  unbind H as Bz E7. unbind H as ratio E8. unbind H as cs E9.
  destruct cs as [cn sn].
  unbind H as cn0 E10. unbind H as iota' E11.
  unbind H as c1 C1. unbind H as s1 S1. unbind H as c2 C2. unbind H as s2 S2.
  unbind H as c3 C3. unbind H as s3 S3. injection H as <-.
  split; cbn [lambda_cn lambda_sn].
  - eapply zero_mode_matrix; [| exact C3].
    eapply update_rows_matrix; [| exact C2].
    eapply update_row0_matrix; [| exact C1]. exact Hc.
  - eapply zero_mode_matrix; [| exact S3].
    eapply update_rows_matrix; [| exact S2].
    eapply update_row0_matrix; [| exact S1]. exact Hs.
Qed.

Lemma iterate_shape step tol r c :
  (forall st st', shape r c st -> step st = Ok st' -> shape r c st') ->
  forall n st st', shape r c st -> iterate step tol n st = Ok st' -> shape r c st'.
Proof.
  intros Hstep. induction n as [| n IH]; intros st st' Hst H; cbn [iterate] in H.
  - injection H as <-. exact Hst.
  - unbind H as st1 E1. unbind H as errs E2. unbind H as stop E3.
    pose proof (Hstep _ _ Hst E1) as H1.
    destruct stop; [injection H as <-; exact H1 | apply (IH st1); assumption].
Qed.

(** *** A configured solver always completes its rounds *)

(** The configurations [__init__] produces from a positive FFT multiplier
    and a positive toroidal mode count. *)
Definition configured (self : QFM) : Prop :=
  1 <= _pqNtor self /\ exists k, 1 <= k /\ _MM self = k * 2.

Lemma init_configured problem p :
  1 <= default (nfft_multiplier p) 2 -> 1 <= default (pqNtor p) 4 ->
  configured (__init__ problem p).
Proof.
  intros Hm Hn. split; [exact Hn |]. exists (default (nfft_multiplier p) 2).
  split; [exact Hm | reflexivity].
Qed.

(** What [prepare] yields on a configured solver, with
    [N = pqNtor] and [2 * h = MM * pqNtor] grid points per angle. *)
Definition prepared_for (self : QFM) (s : setup) (N h : Z) : Prop :=
  N = _pqNtor self /\ 1 <= N <= h /\
  s_mpol s = N /\ s_ntor s = N /\
  s_nfft_theta s = 2 * h /\ s_nfft_zeta s = 2 * h /\
  matrix (2 * h) (2 * h) (s_rarr s) /\ matrix (2 * h) (2 * h) (s_zarr s) /\
  len (s_mlist s) = N + 1 /\ len (s_nlist s) = 2 * N + 1 /\
  shaped N (s_start s).

Lemma prepare_ok self rho :
  configured self ->
  exists s N h, prepare self rho = Ok s /\ prepared_for self s N h.
Proof.
  intros (HN & k & Hk & HMM). unfold prepare.
  set (N := _pqNtor self) in *.
  assert (Hn : _MM self * N = 2 * (k * N)) by (rewrite HMM; lia).
  rewrite Hn.
  assert (Hh : 1 <= N <= k * N) by nia.
  step (linspace_ok 0 (Np.pi * 2) (2 * (k * N)) ltac:(lia)).
  rename x into zarr. rename H into Lz.
  rewrite guard_true by (apply Z.leb_le; lia). cbn [bind].
  step (zeros2_ok (N + 1) (2 * N + 1) ltac:(lia) ltac:(lia)).
  rename x into z0. rename H into Hz0.
  eexists. exists N, (k * N). split; [reflexivity |].
  unfold prepared_for.
  cbn [s_mpol s_ntor s_nfft_theta s_nfft_zeta s_rarr s_zarr s_mlist s_nlist s_start].
  repeat split; try reflexivity; try lia.
  - rewrite len_repeat. lia.
  - apply Forall_forall. intros row Hrow. apply repeat_spec in Hrow. subst row.
    rewrite len_repeat. lia.
  - rewrite len_repeat. lia.
  - apply Forall_forall. intros row Hrow. apply repeat_spec in Hrow. subst row.
    exact Lz.
  - rewrite len_arange; lia.
  - rewrite len_map, len_app, !len_arange; lia.
  - apply Hz0.
  - apply Hz0.
  - apply Hz0.
  - apply Hz0.
Qed.

Lemma body_ok fft self rho s N h st :
  fft_shapes fft -> prepared_for self s N h -> shaped N st ->
  exists st', body fft self rho s st = Ok st' /\ shaped N st'.
Proof.
  intros Hs (_ & HN & E1 & E2 & E3 & E4 & Hr & Hz & Lm & Ln & _) Hst.
  unfold body. rewrite E1, E2, E3, E4.
  apply (round_ok fft self rho _ h); assumption.
Qed.

Lemma max_abs_diff_ok a b r c :
  1 <= r -> 1 <= c -> matrix r c a -> matrix r c b ->
  exists e, max_abs_diff a b = Ok e.
Proof.
  intros Hr Hc Ha Hb. unfold max_abs_diff.
  step (ew2_2d_same PrimFloat.sub a b r c Ha Hb). rename x into d. rename H into Hd.
  apply max_ok.
  rewrite (len_flatten r c) by (apply matrix_map_map; exact Hd). nia.
Qed.

Lemma errors_ok N old new :
  0 <= N -> shaped N old -> shaped N new -> exists e, errors old new = Ok e.
Proof.
  intros HN [Oc Os] [Nc Ns]. unfold errors.
  destruct (max_abs_diff_ok (lambda_cn new) (lambda_cn old) (N + 1) (2 * N + 1)
              ltac:(lia) ltac:(lia) Nc Oc) as (e1 & ->).
  destruct (max_abs_diff_ok (lambda_sn new) (lambda_sn old) (N + 1) (2 * N + 1)
              ltac:(lia) ltac:(lia) Ns Os) as (e2 & ->).
  cbn [bind]. eauto.
Qed.

(** *** The convergence test *)

(** The changes of a round all fall below the tolerance. *)
Definition all_below (tol : float) (old new : boundary) : Prop :=
  exists erriota errcn errsn,
    errors old new = Ok (erriota, errcn, errsn) /\
    PrimFloat.ltb erriota tol = true /\
    PrimFloat.ltb errcn tol = true /\
    PrimFloat.ltb errsn tol = true.

Lemma converged_spec erriota errcn errsn tol :
  converged (erriota, errcn, errsn) tol =
  Ok (PrimFloat.ltb erriota tol && PrimFloat.ltb errcn tol && PrimFloat.ltb errsn tol).
Proof.
  unfold converged. cbn [Np.max fold_left bind].
  rewrite !FloatFacts.maximum_below. reflexivity.
Qed.

Lemma stop_iff_all_below tol old new errs :
  errors old new = Ok errs ->
  (converged errs tol = Ok true <-> all_below tol old new) /\
  (converged errs tol = Ok true \/ converged errs tol = Ok false).
Proof.
  intros He. destruct errs as [[e1 e2] e3]. rewrite converged_spec. split.
  - split.
    + intros [= H]. apply andb_true_iff in H as [H H3].
      apply andb_true_iff in H as [H1 H2]. exists e1, e2, e3. auto.
    + intros (a1 & a2 & a3 & Ha & H1 & H2 & H3).
      rewrite He in Ha. injection Ha as <- <- <-. rewrite H1, H2, H3. reflexivity.
  - destruct (_ && _); auto.
Qed.

(** [k] rounds, without the test. *)
Fixpoint rounds (step : boundary -> result boundary) (k : nat) (st : boundary)
  : result boundary :=
  match k with
  | O => Ok st
  | S k' => st' <- step st ;; rounds step k' st'
  end.

(** The loop runs the rounds up to the first one whose changes all fall
    below the tolerance, or all [n] of them. *)
Lemma iterate_spec step tol (Inv : boundary -> Prop) :
  (forall st, Inv st ->
     exists st', step st = Ok st' /\ Inv st' /\ exists e, errors st st' = Ok e) ->
  forall n st, Inv st ->
  exists k st_k,
    (k <= n)%nat /\ iterate step tol n st = Ok st_k /\
    rounds step k st = Ok st_k /\
    (forall j sj sj', (S j < k)%nat -> rounds step j st = Ok sj ->
       step sj = Ok sj' -> ~ all_below tol sj sj') /\
    ((k < n)%nat ->
     exists sp, (1 <= k)%nat /\ rounds step (k - 1) st = Ok sp /\
                all_below tol sp st_k).
Proof.
  intros Hstep. induction n as [| n IH]; intros st Hst.
  - exists 0%nat, st. repeat split; try reflexivity; lia.
  - destruct (Hstep st Hst) as (st' & Est & Hst' & errs & Eerr).
    destruct (stop_iff_all_below tol st st' errs Eerr) as [Hiff [Hstop | Hgo]].
    + exists 1%nat, st'. split; [lia |]. cbn [iterate rounds].
      rewrite Est. cbn [bind]. rewrite Eerr. cbn [bind]. rewrite Hstop. cbn [bind].
      repeat split; try reflexivity.
      * intros j sj sj' Hj. lia.
      * intros _. exists st. repeat split; [lia | apply Hiff; exact Hstop].
    + destruct (IH st' Hst') as (k & st_k & Hk & Eit & Ernd & Hbefore & Hlast).
      exists (S k), st_k. split; [lia |]. cbn [iterate rounds].
      rewrite Est. cbn [bind]. rewrite Eerr. cbn [bind]. rewrite Hgo. cbn [bind].
      split; [exact Eit |]. split; [exact Ernd |]. split.
      * intros [| j] sj sj' Hj Hsj Hstepj.
        -- injection Hsj as <-. rewrite Est in Hstepj. injection Hstepj as <-.
           intros Hb. apply Hiff in Hb. rewrite Hgo in Hb. discriminate.
        -- cbn [rounds] in Hsj. rewrite Est in Hsj. cbn [bind] in Hsj.
           apply (Hbefore j sj sj'); [lia | exact Hsj | exact Hstepj].
      * intros Hlt. destruct (Hlast ltac:(lia)) as (sp & H1 & Esp & Hb).
        exists sp. split; [lia |]. split; [| exact Hb].
        replace (S k - 1)%nat with (S (k - 1)) by lia.
        cbn [rounds]. rewrite Est. exact Esp.
Qed.

(** Every round on a prepared grid returns, with its changes defined. *)
Lemma body_total fft self rho s N h :
  fft_shapes fft -> prepared_for self s N h ->
  forall st, shaped N st ->
    exists st', body fft self rho s st = Ok st' /\ shaped N st' /\
                exists e, errors st st' = Ok e.
Proof.
  intros Hs Hprep st Hst.
  destruct (body_ok fft self rho s N h st Hs Hprep Hst) as (st' & E & Hst').
  exists st'. split; [exact E |]. split; [exact Hst' |].
  apply (errors_ok N); [destruct Hprep as (_ & HN & _); lia | assumption | assumption].
Qed.

Lemma straighten_boundary_returns fft self rho tol niter :
  fft_shapes fft -> configured self ->
  exists iota_ sn cn, straighten_boundary fft self rho tol niter = Ok (iota_, sn, cn).
Proof.
  intros Hs Hconf.
  destruct (prepare_ok self rho Hconf) as (s & N & h & Eprep & Hprep).
  destruct (iterate_spec (body fft self rho s) tol (shaped N)
              (body_total fft self rho s N h Hs Hprep)
              (Z.to_nat niter) (s_start s) ltac:(apply Hprep))
    as (k & st_k & _ & Eit & _).
  unfold straighten_boundary. rewrite Eprep. cbn [bind]. rewrite Eit. cbn [bind].
  destruct st_k. eauto.
Qed.

(** *** The two properties of [straighten_boundary] *)


(** A solver on the uniform field, with two toroidal modes. *)
Definition sample_solver : QFM :=
  __init__ Reference.uniform_field
    {| ntheta := None; nfft_multiplier := Some 1; pqNtor := Some 1;
       pqMpol := Some 3; action_gradient_mode := None |}.

Lemma sample_configured : configured sample_solver.
Proof. apply init_configured; cbn; lia. Qed.


(** The same object with another poloidal mode count. *)
Definition with_pqMpol (self : QFM) (m : Z) : QFM :=
  {| _problem := _problem self; _MM := _MM self; _pqNtor := _pqNtor self;
     _pqMpol := m;
     _action_gradient_mode := _action_gradient_mode self; Nfp := Nfp self;
     dz := dz self; _nlist := _nlist self; _zeta := _zeta self;
     _nzq := _nzq self; _cnzq := _cnzq self; _snzq := _snzq self |}.

Lemma prepare_start self rho s :
  prepare self rho = Ok s ->
  shape (_pqNtor self + 1) (2 * _pqNtor self + 1) (s_start s).
Proof.
  intros H. unfold prepare in H.
  unbind H as zarr E1. unbind H as u E2. unbind H as cn E3. unbind H as sn E4.
  injection H as <-. cbn [s_start]. split; cbn [lambda_cn lambda_sn].
  - apply zeros2_inv. exact E3.
  - apply zeros2_inv. exact E4.
Qed.

(** C10. Whatever the configuration, the [lambda] spectra that
    [straighten_boundary] returns have shape
    [(pqNtor + 1, 2 * pqNtor + 1)], and [pqMpol] has no effect on the
    call; on a configured solver with FFT routines of numpy's shapes the
    call does return. *)
Theorem straighten_boundary_shape fft self rho tol niter :
  (forall iota_ sn cn,
     straighten_boundary fft self rho tol niter = Ok (iota_, sn, cn) ->
     matrix (_pqNtor self + 1) (2 * _pqNtor self + 1) sn /\
     matrix (_pqNtor self + 1) (2 * _pqNtor self + 1) cn) /\
  (forall m,
     straighten_boundary fft (with_pqMpol self m) rho tol niter
     = straighten_boundary fft self rho tol niter) /\
  (fft_shapes fft -> configured self ->
   exists iota_ sn cn, straighten_boundary fft self rho tol niter = Ok (iota_, sn, cn)).
Proof.
  split; [| split].
  - intros iota_ sn cn H. unfold straighten_boundary in H.
    unbind H as s Es. unbind H as st Est.
    pose proof (prepare_start self rho s Es) as Hstart.
    pose proof (iterate_shape (body fft self rho s) tol _ _
                  (body_shape fft self rho s _ _) _ _ _ Hstart Est) as [Hc Hsn].
    destruct st as [i c sn']. injection H as _ <- <-. split; assumption.
  - intros m. reflexivity.
  - apply straighten_boundary_returns.
Qed.

Lemma straighten_boundary_shape_witness :
  exists iota_ sn cn,
    straighten_boundary Reference.dft sample_solver 1 0x1p-30 10 = Ok (iota_, sn, cn) /\
    matrix (1 + 1) (2 * 1 + 1) sn /\ matrix (1 + 1) (2 * 1 + 1) cn /\
    straighten_boundary Reference.dft (with_pqMpol sample_solver 8) 1 0x1p-30 10
    = Ok (iota_, sn, cn).
Proof.
  destruct (straighten_boundary_shape Reference.dft sample_solver 1 0x1p-30 10)
    as (Hshape & Hm & Hret).
  destruct (Hret dft_shapes sample_configured) as (i & sn & cn & E).
  exists i, sn, cn. split; [exact E |].
  destruct (Hshape i sn cn E) as [H1 H2].
  split; [exact H1 |]. split; [exact H2 |]. rewrite Hm. exact E.
Defined.

End StraightenFacts.

(* ================================================================== *)
(** * Part III: further properties of the code *)
(* ================================================================== *)

(** ** The DOF codec on arbitrary sizes *)

Module CodecEdges.

Import Codec ListFacts CodecFacts.

(** The length of a slice with non-negative bounds, wherever they fall. *)
Lemma len_slice_clipped {A} (l : list A) a b :
  0 <= a -> 0 <= b ->
  len (slice l a (Some b)) = Z.max 0 (Z.min b (len l) - Z.min a (len l)).
Proof.
  intros Ha Hb. pose proof (len_nonneg l). unfold slice, clip.
  destruct (Z.ltb_spec a 0); [lia |]. destruct (Z.ltb_spec b 0); [lia |].
  rewrite len_firstn, len_skipn. lia.
Qed.

(** The mode count [qN = (n - 1) // 4] of a vector of [n] entries. *)
Lemma qN_bounds n : 1 <= n -> 0 <= (n - 1) / 4 /\ 4 * ((n - 1) / 4) <= n - 1 < 4 * ((n - 1) / 4) + 4.
Proof.
  intros H. pose proof (Z.div_mod (n - 1) 4 ltac:(lia)).
  pose proof (Z.mod_pos_bound (n - 1) 4 ltac:(lia)).
  split; [apply Z.div_pos; lia | lia].
Qed.

(** A list of at least two entries, by its two ends. *)
Lemma ends_split {A} (l : list A) :
  2 <= len l -> exists a mid b, l = [a] ++ mid ++ [b] /\ len mid = len l - 2.
Proof.
  intros H. destruct l as [| a t]; [change (len (@nil A)) with 0 in H; lia |].
  rewrite len_cons in H.
  destruct (exists_last (l := t)) as (mid & b & ->).
  { intros ->. change (len (@nil A)) with 0 in H. lia. }
  exists a, mid, b. split; [reflexivity |].
  rewrite len_cons, len_app. change (len [b]) with 1. lia.
Qed.

(** X1. [_unpack_dof] checks no size.  It raises [IndexError] on the empty
    vector and returns on every other one: for [n] entries and
    [qN = (n - 1) // 4], the multiplier is [xx[0] - 1], [rcn] has
    [min(qN + 1, n - 1)] entries, [tsn] and [rsn] have [max(qN - 1, 0) + 2]
    entries of which the first and the last are zero, and [tcn] takes all
    the [n - 3 * qN] entries that are left. *)
Theorem unpack_dof_sizes xx :
  (len xx = 0 -> _unpack_dof xx = Raise IndexError) /\
  (1 <= len xx ->
   let qN := (len xx - 1) / 4 in
   exists d x0 mt mr,
     _unpack_dof xx = Ok d /\
     getitem xx 0 = Ok x0 /\ nv d = (x0 - 1)%float /\
     len (rcn d) = Z.min (qN + 1) (len xx - 1) /\
     tsn d = [0%float] ++ mt ++ [0%float] /\ len mt = Z.max (qN - 1) 0 /\
     rsn d = [0%float] ++ mr ++ [0%float] /\ len mr = Z.max (qN - 1) 0 /\
     len (tcn d) = len xx - 3 * qN).
Proof.
  split.
  - destruct xx as [| x0 w]; [reflexivity |].
    rewrite len_cons. pose proof (len_nonneg w). lia.
  - intros Hn qN. destruct (qN_bounds (len xx) Hn) as [Hq Hb]. fold qN in Hq, Hb.
    destruct xx as [| x0 w]; [change (len (@nil float)) with 0 in Hn; lia |].
    unfold _unpack_dof. fold qN. rewrite getitem_head. cbn [bind].
    eexists. exists x0. eexists. eexists.
    split; [reflexivity |]. cbn [nv rcn tsn rsn tcn].
    split; [reflexivity |]. split; [reflexivity |].
    split; [rewrite len_map, len_slice_clipped by lia; lia |].
    split; [reflexivity |].
    split; [rewrite len_map, len_slice_clipped by lia; lia |].
    split; [reflexivity |].
    split; [rewrite len_map, len_slice_clipped by lia; lia |].
    rewrite len_map. unfold slice. rewrite clip_inside by lia.
    rewrite len_firstn, len_skipn. lia.
Qed.

Lemma unpack_dof_sizes_witness :
  exists d, _unpack_dof [3; 2; 4; 5; 6; 7; 8]%float = Ok d /\
            len (rcn d) = 2 /\ len (tsn d) = 2 /\ len (tcn d) = 4.
Proof.
  destruct (unpack_dof_sizes [3; 2; 4; 5; 6; 7; 8]%float) as [_ H].
  destruct (H ltac:(unfold len; simpl; lia))
    as (d & x0 & mt & mr & E & _ & _ & Hr & Ht & Hmt & _ & _ & Hc).
  exists d. split; [exact E |]. split; [exact Hr |].
  split; [| exact Hc].
  rewrite Ht, !len_app, Hmt. reflexivity.
Defined.

(** A vector of at least five entries, cut where [_unpack_dof] cuts it. *)
Lemma unpack_cut (w : list float) qN :
  1 <= qN -> 4 * qN <= len w ->
  w = slice w 0 (Some (qN + 1)) ++ slice w (qN + 1) (Some (2 * qN))
        ++ slice w (2 * qN) (Some (3 * qN - 1)) ++ slice w (3 * qN - 1) None.
Proof.
  intros Hq Hw.
  rewrite (slice_cat w (2 * qN) (3 * qN - 1)) by lia.
  rewrite (slice_cat w (qN + 1) (2 * qN)) by lia.
  rewrite (slice_cat w 0 (qN + 1)) by lia.
  rewrite slice_open by lia. reflexivity.
Qed.

(** Unpacking a vector given by its pieces, the last of any length. *)
Lemma unpack_pieces_long qN x0 (R T S C : list float) :
  1 <= qN ->
  len R = qN + 1 -> len T = qN - 1 -> len S = qN - 1 ->
  qN + 1 <= len C <= qN + 4 ->
  _unpack_dof ([x0] ++ R ++ T ++ S ++ C) =
  Ok (Dof (x0 - 1)%float
          (map (fun v => (v - 1)%float) R)
          ([0%float] ++ map (fun v => (v - 1)%float) T ++ [0%float])
          ([0%float] ++ map (fun v => (v - 1)%float) S ++ [0%float])
          (map (fun v => (v - 1)%float) C)).
Proof.
  intros Hq HR HT HS HC.
  set (A := [x0]). assert (HA : len A = 1) by reflexivity.
  assert (Hlen : len (A ++ R ++ T ++ S ++ C) = 3 * qN + len C)
    by (rewrite !len_app; lia).
  assert (HqN : (len (A ++ R ++ T ++ S ++ C) - 1) / 4 = qN).
  { rewrite Hlen. symmetry. apply (Z.div_unique _ 4 qN (len C - qN - 1)); lia. }
  unfold _unpack_dof. rewrite HqN.
  rewrite (slice_app_mid A R (T ++ S ++ C)) by lia.
  replace (slice (A ++ R ++ T ++ S ++ C) (qN + 2) (Some (2 * qN + 1))) with T.
  2:{ symmetry. replace (A ++ R ++ T ++ S ++ C) with ((A ++ R) ++ T ++ (S ++ C))
        by (rewrite <- !app_assoc; reflexivity).
      apply slice_app_mid; rewrite ?len_app; lia. }
  replace (slice (A ++ R ++ T ++ S ++ C) (2 * qN + 1) (Some (3 * qN))) with S.
  2:{ symmetry. replace (A ++ R ++ T ++ S ++ C) with ((A ++ R ++ T) ++ S ++ C)
        by (rewrite <- !app_assoc; reflexivity).
      apply slice_app_mid; rewrite ?len_app; lia. }
  replace (slice (A ++ R ++ T ++ S ++ C) (3 * qN) None) with C.
  2:{ symmetry. replace (A ++ R ++ T ++ S ++ C) with ((A ++ R ++ T ++ S) ++ C)
        by (rewrite <- !app_assoc; reflexivity).
      apply slice_app_tail; rewrite ?len_app; lia. }
  unfold A. simpl ([x0] ++ _). rewrite getitem_head. reflexivity.
Qed.

(** X2. Packing what [_unpack_dof] returns gives back a vector of at least
    five entries, whatever its length, with every entry [e] replaced by the
    binary64 value [(e - 1) + 1]; for a vector of one to four entries
    (no toroidal mode) the packed vector is longer than the one
    unpacked. *)
Theorem pack_unpack_by_length v :
  1 <= len v ->
  exists d,
    _unpack_dof v = Ok d /\
    (5 <= len v -> pack d = map back_and_there v) /\
    (len v <= 4 -> len v < len (pack d)).
Proof.
  intros Hn. destruct (qN_bounds (len v) Hn) as [Hq Hb].
  destruct v as [| x0 w]; [change (len (@nil float)) with 0 in Hn; lia |].
  rewrite len_cons in *. replace (1 + len w - 1) with (len w) in * by lia.
  destruct (Z_lt_le_dec (len w) 4) as [Hshort | Hlong].
  - (* no toroidal mode *)
    assert (E0 : len w / 4 = 0) by (apply Z.div_small; pose proof (len_nonneg w); lia).
    eexists. split; [unfold _unpack_dof; rewrite len_cons;
      replace (1 + len w - 1) with (len w) by lia; rewrite E0, getitem_head;
      cbn [bind]; reflexivity |].
    split; [lia |]. intros _.
    unfold pack, _pack_dof. cbn [nv rcn tsn rsn tcn].
    rewrite len_map, !len_app, !len_map.
    change (len [(x0 - 1)%float]) with 1.
    pose proof (len_nonneg (slice ([0%float] ++ map (fun v => (v - 1)%float)
      (slice (x0 :: w) (0 + 2) (Some (2 * 0 + 1))) ++ [0%float]) 1 (Some (-1)))).
    pose proof (len_nonneg (slice ([0%float] ++ map (fun v => (v - 1)%float)
      (slice (x0 :: w) (2 * 0 + 1) (Some (3 * 0))) ++ [0%float]) 1 (Some (-1)))).
    pose proof (len_nonneg (slice (x0 :: w) 1 (Some (0 + 2)))).
    rewrite (len_slice_open (x0 :: w) (3 * 0)) by (rewrite len_cons; lia).
    rewrite len_cons. lia.
  - set (qN := len w / 4) in *.
    assert (Hq1 : 1 <= qN).
    { unfold qN. apply (Z.div_le_lower_bound (len w) 4 1); lia. }
    pose proof (unpack_cut w qN Hq1 ltac:(lia)) as Hw.
    set (R := slice w 0 (Some (qN + 1))) in *.
    set (T := slice w (qN + 1) (Some (2 * qN))) in *.
    set (S := slice w (2 * qN) (Some (3 * qN - 1))) in *.
    set (C := slice w (3 * qN - 1) None) in *.
    assert (HR : len R = qN + 1) by (unfold R; rewrite len_slice; lia).
    assert (HT : len T = qN - 1) by (unfold T; rewrite len_slice; lia).
    assert (HS : len S = qN - 1) by (unfold S; rewrite len_slice; lia).
    assert (HC : len C = len w - (3 * qN - 1)) by (unfold C; rewrite len_slice_open; lia).
    change (x0 :: w) with ([x0] ++ w). rewrite Hw.
    rewrite (unpack_pieces_long qN) by lia.
    eexists. split; [reflexivity |]. split; [| rewrite <- Hw; lia].
    intros _. rewrite pack_as_map. unfold free, interior. cbn [nv rcn tsn rsn tcn].
    rewrite !(slice_interior 0%float 0%float).
    unfold back_and_there. rewrite !map_app, !map_map. reflexivity.
Qed.

Lemma pack_unpack_by_length_witness :
  exists d, _unpack_dof [3; 2; 4; 5; 6; 7; 8]%float = Ok d /\
            pack d = [3; 2; 4; 5; 6; 7; 8]%float.
Proof.
  destruct (pack_unpack_by_length [3; 2; 4; 5; 6; 7; 8]%float
              ltac:(unfold len; simpl; lia)) as (d & E & H5 & _).
  exists d. split; [exact E |].
  rewrite H5 by (unfold len; simpl; lia). reflexivity.
Defined.

(** X3. For [qN >= 1], packing and unpacking a tuple of four arrays of
    [qN + 1] entries pins the sine spectra: whatever [tsn[0]], [tsn[-1]],
    [rsn[0]] and [rsn[-1]] were, they come back as zero, and the packed
    vector does not depend on them; every other entry [e] comes back as
    [(e + 1) - 1]. *)
Theorem unpack_pack_pins_endpoints qN d :
  1 <= qN ->
  len (rcn d) = qN + 1 -> len (tsn d) = qN + 1 ->
  len (rsn d) = qN + 1 -> len (tcn d) = qN + 1 ->
  _unpack_dof (pack d) = Ok (through there_and_back d) /\
  (exists mt mr, tsn (through there_and_back d) = [0%float] ++ mt ++ [0%float] /\
                 rsn (through there_and_back d) = [0%float] ++ mr ++ [0%float]) /\
  (forall a b c e,
     pack (Dof (nv d) (rcn d) ([a] ++ interior (tsn d) ++ [b])
             ([c] ++ interior (rsn d) ++ [e]) (tcn d)) = pack d).
Proof.
  intros Hq Hrc Hts Hrs Htc.
  destruct (ends_split (tsn d) ltac:(lia)) as (a & mt & b & Et & Lt).
  destruct (ends_split (rsn d) ltac:(lia)) as (c & mr & e & Er & Lr).
  assert (It : interior (tsn d) = mt) by (unfold interior; rewrite Et; apply slice_interior).
  assert (Ir : interior (rsn d) = mr) by (unfold interior; rewrite Er; apply slice_interior).
  split; [| split].
  - rewrite pack_as_map. unfold free. rewrite It, Ir, !map_app. simpl (map _ [nv d]).
    rewrite (unpack_pieces qN) by (rewrite ?len_map; lia).
    unfold through, there_and_back. rewrite It, Ir, !map_map. reflexivity.
  - unfold through. cbn [tsn rsn]. eauto.
  - intros a' b' c' e'. rewrite !pack_as_map. unfold free. cbn [nv rcn tsn rsn tcn].
    unfold interior. rewrite !slice_interior. reflexivity.
Qed.

Lemma unpack_pack_pins_endpoints_witness :
  _unpack_dof (pack (Dof 2 [1; 3] [7; 9] [5; 6] [4; 5])%float)
  = Ok (Dof 2 [1; 3] [0; 0] [0; 0] [4; 5])%float.
Proof.
  destruct (unpack_pack_pins_endpoints 1 (Dof 2 [1; 3] [7; 9] [5; 6] [4; 5])%float
              ltac:(lia) eq_refl eq_refl eq_refl eq_refl) as (H & _).
  rewrite H. reflexivity.
Defined.

End CodecEdges.

(** ** The transforms at the edges of their domain *)

Module SpectralEdges.

Import Spectral ListFacts NpFacts SpectralFacts MatrixFacts BoundaryFacts.

(** X4. [rfft1D] raises [ValueError] on an empty array; on an array of
    [n >= 1] samples it returns cosine and sine arrays of [n // 2 + 1]
    entries each, and the sine entry of mode 0 is zero. *)
Theorem rfft1D_spectrum fft f :
  fft_shapes fft ->
  (len f = 0 -> rfft1D fft f = Raise invalid_points) /\
  (1 <= len f ->
   exists c s, rfft1D fft f = Ok (c, s) /\
     len c = len f / 2 + 1 /\ len s = len f / 2 + 1 /\
     getitem s 0 = Ok 0%float).
Proof.
  intros Hs. split.
  - intros H0. unfold rfft1D, np_fft_rfft. rewrite H0. reflexivity.
  - intros Hf.
    destruct (GradientFacts.rfft1D_ok fft f Hs Hf) as (c & s & E & Hc & Hsn).
    destruct (rfft1D_sin_zero fft f Hs Hf) as (c' & s' & E' & H0).
    rewrite E in E'. injection E' as <- <-.
    exists c, s. auto.
Qed.

Lemma rfft1D_spectrum_witness :
  exists c s, rfft1D Reference.dft [1; 2; 3; 4; 5]%float = Ok (c, s) /\
    len c = 3 /\ len s = 3 /\ getitem s 0 = Ok 0%float.
Proof.
  destruct (rfft1D_spectrum Reference.dft [1; 2; 3; 4; 5]%float dft_shapes)
    as [_ H].
  destruct (H ltac:(unfold len; simpl; lia)) as (c & s & E & Hc & Hsn & H0).
  exists c, s. auto.
Defined.

(** X5. [irfft1D] asks [numpy.fft.irfft] for
    [2 * nfft_multiplier * (len(cos_in) - 1)] points and so raises
    [ValueError] when that is not positive: for a single coefficient,
    whatever the multiplier, and for a multiplier of zero or less.  On
    an empty sine array it raises [IndexError]. *)
Theorem irfft1D_degenerate fft cos_in sin_in multiplier :
  (len sin_in = 0 -> irfft1D fft cos_in sin_in multiplier = Raise IndexError) /\
  (1 <= len cos_in -> len sin_in = len cos_in ->
   multiplier * (len cos_in - 1) <= 0 ->
   irfft1D fft cos_in sin_in multiplier = Raise invalid_points).
Proof.
  split.
  - intros H0. destruct sin_in as [| s0 t]; [reflexivity |].
    rewrite len_cons in H0. pose proof (len_nonneg t). lia.
  - intros Hc Hsn Hm. unfold irfft1D.
    rewrite setitem_inside by lia. cbn [bind].
    unfold setitem at 1. rewrite index_from_end by (rewrite len_update; lia).
    cbn [bind].
    rewrite ew2_same by lia. cbn [bind].
    set (ffft := Np.zip_with _ _ _).
    assert (Hf : len ffft = len cos_in) by (unfold ffft; rewrite len_zip_with; lia).
    destruct (getitem_inside ffft 0 ltac:(lia)) as (f0 & -> & _). cbn [bind].
    rewrite setitem_inside by lia. cbn [bind].
    unfold np_fft_irfft.
    destruct (Z.leb_spec 1 (2 * (multiplier * (len cos_in - 1)))); [lia |].
    reflexivity.
Qed.

Lemma irfft1D_degenerate_witness :
  irfft1D Reference.dft [1]%float [0]%float 3 = Raise invalid_points /\
  irfft1D Reference.dft [1; 2; 3]%float [0; 1; 0]%float 0 = Raise invalid_points.
Proof.
  split.
  - apply (irfft1D_degenerate Reference.dft [1]%float [0]%float 3);
      unfold len; simpl; lia.
  - apply (irfft1D_degenerate Reference.dft [1; 2; 3]%float [0; 1; 0]%float 0);
      unfold len; simpl; lia.
Defined.

(** X6. The two 1D transforms compose on every array of [n >= 2] samples:
    [irfft1D] applied to the pair [rfft1D(f)] returns [2 * (n // 2)] samples, as many as [f]
    has when [n] is even and one fewer when [n] is odd. *)
Theorem irfft1D_after_rfft1D fft f :
  fft_shapes fft -> 2 <= len f ->
  exists c s g,
    rfft1D fft f = Ok (c, s) /\ irfft1D fft c s 1 = Ok g /\
    len g = 2 * (len f / 2) /\
    (len f mod 2 = 0 -> len g = len f) /\
    (len f mod 2 = 1 -> len g = len f - 1).
Proof.
  intros Hs Hf.
  destruct (GradientFacts.rfft1D_ok fft f Hs ltac:(lia)) as (c & s & E & Hc & Hsn).
  assert (Hh : 1 <= len f / 2) by (apply (Z.div_le_lower_bound (len f) 2 1); lia).
  destruct (GradientFacts.irfft1D_ok fft c s 1 Hs ltac:(lia) ltac:(lia) ltac:(lia))
    as (g & Eg & Hg).
  exists c, s, g. split; [exact E |]. split; [exact Eg |].
  pose proof (Z.div_mod (len f) 2 ltac:(lia)).
  repeat split; lia.
Qed.

Lemma irfft1D_after_rfft1D_witness :
  exists c s g,
    rfft1D Reference.dft [1; 2; 3; 4; 5]%float = Ok (c, s) /\
    irfft1D Reference.dft c s 1 = Ok g /\ len g = 4.
Proof.
  destruct (irfft1D_after_rfft1D Reference.dft [1; 2; 3; 4; 5]%float dft_shapes
              ltac:(unfold len; simpl; lia)) as (c & s & g & E & Eg & Hg & _).
  exists c, s, g. auto.
Defined.

(** *** The two-angle transforms *)

(** The rows up to a bound at or past the end are all the rows. *)
Lemma slice_all {A} (l : list A) b : len l <= b -> slice l 0 (Some b) = l.
Proof.
  intros H. pose proof (len_nonneg l). unfold slice, clip.
  destruct (Z.ltb_spec b 0); [lia |]. cbn [Z.ltb Z.compare].
  replace (Z.min 0 (len l)) with 0 by lia.
  replace (Z.min b (len l)) with (len l) by lia.
  cbn [Z.to_nat skipn]. apply firstn_all2. unfold len. lia.
Qed.

Lemma take_cols_all {A} r c (m : list (list A)) R idx N :
  matrix r c m -> r <= R -> N < c -> Forall (fun i => - N <= i <= N) idx ->
  exists v, Np.take_cols m 0 (Some R) idx = Ok v /\ matrix r (len idx) v.
Proof.
  intros Hm HR Hn Hidx. pose proof Hm as [L F]. unfold Np.take_cols.
  rewrite slice_all by lia.
  destruct (sequence_map_ok (fun row => Np.take row idx) _
              (fun v => len v = len idx) _ F) as (v & E & Lv & Fv).
  - intros row Hrow. apply (take_ok row idx N); [lia | exact Hidx].
  - exists v. split; [exact E |]. split; [lia | exact Fv].
Qed.

(** The spectra [fftcos], [fftsin] of an [r] by [c] array. *)
Lemma rfft2D_spectra fft f r c :
  fft_shapes fft -> matrix r c f -> 1 <= r -> 1 <= c ->
  exists out fc fs,
    np_fft_rfft2 fft f = Ok out /\
    half_weight re r c out = Ok fc /\
    half_weight (fun z => (- im z)%float) r c out = Ok fs /\
    matrix (r / 2 + 1) c fc /\ matrix (r / 2 + 1) c fs.
Proof.
  intros Hs Hf Hr Hc. unfold np_fft_rfft2.
  rewrite (matrix_len _ _ _ Hf), (matrix_ncols _ _ _ Hf) by lia.
  rewrite guard_true by (apply andb_true_iff; split; apply Z.leb_le; lia).
  cbn [bind].
  pose proof (rfft2_shape fft Hs f r c Hf Hr Hc) as Ho.
  pose proof (Z.div_pos r 2 ltac:(lia) ltac:(lia)) as Hh.
  destruct (half_weight_ok re (r / 2 + 1) c r c _ Ho ltac:(lia)) as (fc & Efc & Hfc).
  destruct (half_weight_ok (fun z => (- im z)%float) (r / 2 + 1) c r c _ Ho
              ltac:(lia)) as (fs & Efs & Hfs).
  exists (rfft2 fft f), fc, fs. auto.
Qed.

(** [rfft2D] within the resolution of the data. *)
Lemma rfft2D_returns fft f r c mpol ntor :
  fft_shapes fft -> matrix r c f -> 1 <= r -> 1 <= c ->
  let M := QFM.default mpol (r / 4) in
  let N := QFM.default ntor (c / 4) in
  0 <= M <= r / 2 -> 0 <= N < c ->
  exists cn sn, rfft2D fft f mpol ntor = Ok (cn, sn) /\
    matrix (M + 1) (2 * N + 1) cn /\ matrix (M + 1) (2 * N + 1) sn.
Proof.
  intros Hs Hf Hr Hc M N HM HN. unfold rfft2D.
  destruct (rfft2D_spectra fft f r c Hs Hf Hr Hc)
    as (out & fc & fs & -> & Efc & Efs & Hfc & Hfs).
  cbn [bind].
  rewrite (matrix_len _ _ _ Hf), (matrix_ncols _ _ _ Hf) by lia.
  rewrite Efc, Efs. cbn [bind].
  change (match mpol with Some m => m | None => r / 4 end) with M.
  change (match ntor with Some n => n | None => c / 4 end) with N.
  step (zeros2_ok (M + 1) (2 * N + 1) ltac:(lia) ltac:(lia)).
  rename x into cn0. rename H into Hcn0.
  destruct (take_cols_ok (r / 2 + 1) c fc (M + 1) (idxlist N) N Hfc
              ltac:(lia) ltac:(lia) (idxlist_bounds N ltac:(lia))) as (vc & -> & Hvc).
  cbn [bind]. rewrite len_idxlist in Hvc by lia.
  destruct (setslice2_rows_ok (M + 1) (2 * N + 1) cn0 vc 0 (Some (M + 1)) (M + 1)
              Hcn0 ltac:(lia) ltac:(lia) eq_refl
              ltac:(rewrite Z.sub_0_r; exact Hvc)) as (cn & -> & Hcn).
  cbn [bind].
  destruct (take_cols_ok (r / 2 + 1) c fs (M + 1) (idxlist N) N Hfs
              ltac:(lia) ltac:(lia) (idxlist_bounds N ltac:(lia))) as (vs & -> & Hvs).
  cbn [bind]. rewrite len_idxlist in Hvs by lia.
  destruct (setslice2_rows_ok (M + 1) (2 * N + 1) cn0 vs 0 (Some (M + 1)) (M + 1)
              Hcn0 ltac:(lia) ltac:(lia) eq_refl
              ltac:(rewrite Z.sub_0_r; exact Hvs)) as (sn & -> & Hsn).
  cbn [bind]. eauto.
Qed.

(** X7. [rfft2D] truncates: on an [r] by [c] array ([r, c >= 1]) it
    returns cosine and sine spectra of shape [(mpol + 1, 2 * ntor + 1)]
    for every [0 <= mpol <= r // 2] and [0 <= ntor < c]; the defaults
    [mpol = r // 4] and [ntor = c // 4] always qualify. *)
Theorem rfft2D_shape fft f r c mpol ntor :
  fft_shapes fft -> matrix r c f -> 1 <= r -> 1 <= c ->
  let M := QFM.default mpol (r / 4) in
  let N := QFM.default ntor (c / 4) in
  (0 <= M <= r / 2 -> 0 <= N < c ->
   exists cn sn, rfft2D fft f mpol ntor = Ok (cn, sn) /\
     matrix (M + 1) (2 * N + 1) cn /\ matrix (M + 1) (2 * N + 1) sn) /\
  (mpol = None -> ntor = None -> 0 <= M <= r / 2 /\ 0 <= N < c).
Proof.
  intros Hs Hf Hr Hc M N. split.
  - apply rfft2D_returns; assumption.
  - intros -> ->. unfold M, N. cbn [QFM.default].
    pose proof (Z.div_pos r 4 ltac:(lia) ltac:(lia)).
    pose proof (Z.div_pos c 4 ltac:(lia) ltac:(lia)).
    pose proof (Z.div_le_compat_l r 2 4 ltac:(lia) ltac:(lia)).
    pose proof (Z.div_lt c 4 ltac:(lia) ltac:(lia)).
    lia.
Qed.

(** A six by four array of ones. *)
Definition sample_grid : list (list float) := repeat (repeat 1%float 4) 6.

Lemma sample_grid_shape : matrix 6 4 sample_grid.
Proof. apply (matrix_repeat _ 6 4); [lia | reflexivity]. Qed.

Lemma rfft2D_shape_witness :
  (exists cn sn, rfft2D Reference.dft sample_grid None None = Ok (cn, sn) /\
     matrix 2 3 cn /\ matrix 2 3 sn) /\
  (exists cn sn, rfft2D Reference.dft sample_grid (Some 3) (Some 2) = Ok (cn, sn) /\
     matrix 4 5 cn /\ matrix 4 5 sn).
Proof.
  split.
  - apply (rfft2D_shape Reference.dft sample_grid 6 4 None None dft_shapes
             sample_grid_shape); cbn; lia.
  - apply (rfft2D_shape Reference.dft sample_grid 6 4 (Some 3) (Some 2) dft_shapes
             sample_grid_shape); cbn; lia.
Defined.

(** [rfft2D] beyond the poloidal resolution of the data. *)
Lemma rfft2D_short fft f r c mpol ntor :
  fft_shapes fft -> matrix r c f -> 2 <= r -> 1 <= c ->
  r / 2 < mpol -> 0 <= ntor < c ->
  rfft2D fft f (Some mpol) (Some ntor) = Raise Np.assign_error.
Proof.
  intros Hs Hf Hr Hc HM HN. unfold rfft2D.
  destruct (rfft2D_spectra fft f r c Hs Hf ltac:(lia) Hc)
    as (out & fc & fs & -> & Efc & Efs & Hfc & Hfs).
  cbn [bind].
  rewrite (matrix_len _ _ _ Hf), (matrix_ncols _ _ _ Hf) by lia.
  rewrite Efc, Efs. cbn [bind].
  assert (Hh : 1 <= r / 2) by (apply (Z.div_le_lower_bound r 2 1); lia).
  step (zeros2_ok (mpol + 1) (2 * ntor + 1) ltac:(lia) ltac:(lia)).
  rename x into cn0. rename H into Hcn0.
  destruct (take_cols_all (r / 2 + 1) c fc (mpol + 1) (idxlist ntor) ntor Hfc
              ltac:(lia) ltac:(lia) (idxlist_bounds ntor ltac:(lia)))
    as (vc & -> & Hvc).
  cbn [bind]. unfold Np.setslice2.
  rewrite (matrix_len _ _ _ Hcn0), (matrix_len _ _ _ Hvc).
  rewrite !clip_inside by lia.
  destruct (Z.eqb_spec (r / 2 + 1) (Z.of_nat (Z.to_nat (mpol + 1 - 0)))); [lia |].
  destruct vc as [| v1 [| v2 vc]].
  - destruct Hvc as [L _]. change (len (@nil (list float))) with 0 in L. lia.
  - destruct Hvc as [L _]. change (len [v1]) with 1 in L. lia.
  - reflexivity.
Qed.

(** X8. [rfft2D] does not pad: on an array of [r >= 2] rows, a poloidal
    resolution [mpol > r // 2] makes the assignment
    [cn[0 : mpol + 1, :] = fftcos[0 : mpol + 1, idxlist]] raise
    [ValueError], the data having only [r // 2 + 1] poloidal modes. *)
Theorem rfft2D_no_padding fft f r c mpol ntor :
  fft_shapes fft -> matrix r c f -> 2 <= r -> 1 <= c ->
  r / 2 < mpol -> 0 <= ntor < c ->
  rfft2D fft f (Some mpol) (Some ntor) = Raise Np.assign_error.
Proof. apply rfft2D_short. Qed.

Lemma rfft2D_no_padding_witness :
  rfft2D Reference.dft sample_grid (Some 4) (Some 1) = Raise Np.assign_error.
Proof.
  apply (rfft2D_no_padding Reference.dft sample_grid 6 4 4 1 dft_shapes
           sample_grid_shape); cbn; lia.
Defined.

(** The padded spectrum of [irfft2D]. *)
Lemma pad_shape M ht N hz cn :
  0 <= M <= ht -> 0 <= N < 2 * hz -> matrix (M + 1) (2 * N + 1) cn ->
  exists p, pad M ht N hz cn = Ok p /\ matrix (ht + 1) (2 * hz) p.
Proof.
  intros HM HN Hcn. unfold pad.
  step (zeros2_ok (ht + 1) (2 * hz) ltac:(lia) ltac:(lia)).
  rename x into z. rename H into Hz.
  assert (Hv : matrix (M + 1) (len (idxlist N)) cn)
    by (rewrite len_idxlist by lia; exact Hcn).
  step (put_cols_ok (ht + 1) (2 * hz) z cn (M + 1) (idxlist N) N Hz
          ltac:(lia) ltac:(lia) (idxlist_bounds N ltac:(lia)) Hv).
  rename x into p1. rename H into H1.
  step (maprow_ok (fun x => (x * 2)%float) (ht + 1) (2 * hz) p1 0 H1
          ltac:(lia) ltac:(left; reflexivity)).
  rename x into p2. rename H into H2.
  apply (maprow_ok _ (ht + 1) (2 * hz)); [exact H2 | lia | right; reflexivity].
Qed.

(** X9. [irfft2D] returns an even grid: for spectra of shape
    [(M + 1, 2 * N + 1)] and requested sizes [nfft_theta], [nfft_zeta]
    with [M <= nfft_theta // 2 >= 1] and [N < 2 * (nfft_zeta // 2)] the
    result has shape [(2 * (nfft_theta // 2), 2 * (nfft_zeta // 2))], so
    an odd size is rounded down by one; the defaults give [(4 * M, 4 * N)]. *)
Theorem irfft2D_shape fft cn sn M N nfft_theta nfft_zeta :
  fft_shapes fft ->
  matrix (M + 1) (2 * N + 1) cn -> matrix (M + 1) (2 * N + 1) sn ->
  0 <= M -> 0 <= N ->
  let T := QFM.default nfft_theta (M * 4) in
  let Z := QFM.default nfft_zeta (N * 4) in
  1 <= T / 2 -> M <= T / 2 -> N < 2 * (Z / 2) ->
  exists f, irfft2D fft cn sn nfft_theta nfft_zeta = Ok f /\
            matrix (2 * (T / 2)) (2 * (Z / 2)) f.
Proof.
  intros Hs Hcn Hsn HM HN T Z HT HMT HNZ. unfold irfft2D.
  rewrite (matrix_len _ _ _ Hcn), (matrix_ncols _ _ _ Hcn) by lia.
  replace (M + 1 - 1) with M by lia.
  replace ((2 * N + 1 - 1) / 2) with N
    by (replace (2 * N + 1 - 1) with (N * 2) by lia; symmetry; apply Z.div_mul; lia).
  change (match nfft_theta with Some n => n | None => M * 4 end) with T.
  change (match nfft_zeta with Some n => n | None => N * 4 end) with Z.
  step (pad_shape M (T / 2) N (Z / 2) cn ltac:(lia) ltac:(lia) Hcn).
  rename x into cp. rename H into Hcp.
  step (pad_shape M (T / 2) N (Z / 2) sn ltac:(lia) ltac:(lia) Hsn).
  rename x into sp. rename H into Hsp.
  step (ew2_2d_same (fun c s => csub (of_real c) (cmul (Cx 0 1) (of_real s)))
          cp sp _ _ Hcp Hsp).
  rename x into spec. rename H into Hspec.
  unfold np_fft_irfft2.
  rewrite (matrix_len _ _ _ Hspec), (matrix_ncols _ _ _ Hspec) by lia.
  rewrite guard_true
    by (apply andb_true_iff; split; apply Z.leb_le; lia).
  cbn [bind]. eexists. split; [reflexivity |].
  apply matrix_map_map.
  pose proof (irfft2_shape fft Hs spec (T / 2 + 1) (2 * (Z / 2)) Hspec
                ltac:(lia) ltac:(lia)) as Ho.
  replace (2 * (T / 2 + 1 - 1)) with (2 * (T / 2)) in Ho by lia. exact Ho.
Qed.

(** Spectra of two poloidal and one toroidal mode. *)
Definition sample_spectrum : list (list float) := repeat (repeat 1%float 3) 3.

Lemma sample_spectrum_shape : matrix (2 + 1) (2 * 1 + 1) sample_spectrum.
Proof. apply (matrix_repeat _ 3 3); [lia | reflexivity]. Qed.

Lemma irfft2D_shape_witness :
  (exists f, irfft2D Reference.dft sample_spectrum sample_spectrum None None = Ok f /\
             matrix 8 4 f) /\
  (exists f, irfft2D Reference.dft sample_spectrum sample_spectrum (Some 7) (Some 5)
             = Ok f /\ matrix 6 4 f).
Proof.
  split.
  - apply (irfft2D_shape Reference.dft sample_spectrum sample_spectrum 2 1 None None
             dft_shapes sample_spectrum_shape sample_spectrum_shape); cbn; lia.
  - apply (irfft2D_shape Reference.dft sample_spectrum sample_spectrum 2 1
             (Some 7) (Some 5)
             dft_shapes sample_spectrum_shape sample_spectrum_shape); cbn; lia.
Defined.

End SpectralEdges.

(** ** The action gradient outside a run of [action] *)

Module GradientEdges.

Import Spectral QFM ListFacts NpFacts SpectralFacts GradientFacts.

(** Every non-empty vector unpacks. *)
Lemma unpack_nonempty x0 w :
  exists d, Codec._unpack_dof (x0 :: w) = Ok d.
Proof.
  unfold Codec._unpack_dof. rewrite getitem_head. cbn [bind]. eauto.
Qed.

(** X10. The errors of [action_gradient] in the order the code reaches
    them, whatever the state of the object: [qq = 0] raises
    [ZeroDivisionError] before anything else is looked at; otherwise an
    empty [xx] raises [IndexError]; otherwise a mode other than ["real"]
    and ["fourier"] raises the [ValueError], for an [xx] of any
    length. *)
Theorem action_gradient_error_order fft self xx pp qq a mode :
  (qq = 0 -> action_gradient fft self xx pp qq a mode = Raise ZeroDivisionError) /\
  (qq <> 0 -> len xx = 0 ->
   action_gradient fft self xx pp qq a mode = Raise IndexError) /\
  (qq <> 0 -> 1 <= len xx -> ~ recognised mode ->
   action_gradient fft self xx pp qq a mode =
   Raise (ValueError "space should be 'real' or 'fourier' ")).
Proof.
  split; [| split].
  - intros ->. reflexivity.
  - intros Hq H0. unfold action_gradient, fdiv.
    destruct (Z.eqb_spec qq 0); [contradiction |]. cbn [bind].
    destruct xx as [| x0 w]; [reflexivity |].
    rewrite len_cons in H0. pose proof (len_nonneg w). lia.
  - intros Hq Hn Hmode. unfold action_gradient, fdiv.
    destruct (Z.eqb_spec qq 0); [contradiction |]. cbn [bind].
    destruct xx as [| x0 w]; [change (len (@nil float)) with 0 in Hn; lia |].
    destruct (unpack_nonempty x0 w) as (d & ->). cbn [bind].
    destruct (String.eqb_spec mode "fourier") as [-> | _];
      [exfalso; apply Hmode; right; reflexivity |].
    destruct (String.eqb_spec mode "real") as [-> | _];
      [exfalso; apply Hmode; left; reflexivity |].
    reflexivity.
Qed.

Lemma action_gradient_error_order_witness :
  action_gradient Reference.dft sample_self sample_xx 1 0 0 "nowhere"
  = Raise ZeroDivisionError /\
  action_gradient Reference.dft sample_self [] 1 1 0 "nowhere" = Raise IndexError /\
  action_gradient Reference.dft sample_self [1; 2]%float 1 1 0 "nowhere"
  = Raise (ValueError "space should be 'real' or 'fourier' ").
Proof.
  destruct (action_gradient_error_order Reference.dft sample_self sample_xx
              1 0 0 "nowhere") as (H1 & _).
  destruct (action_gradient_error_order Reference.dft sample_self []
              1 1 0 "nowhere") as (_ & H2 & _).
  destruct (action_gradient_error_order Reference.dft sample_self [1; 2]%float
              1 1 0 "nowhere") as (_ & _ & H3).
  split; [apply H1; reflexivity |].
  split; [apply H2; [lia | reflexivity] |].
  apply H3; [lia | unfold len; simpl; lia |].
  intros [H | H]; discriminate.
Defined.

(** X11. [action_gradient] reads attributes that only [action] sets.  On
    an object as [__init__] builds it, with a DOF vector of length
    [4 * qN + 1], [qN >= 1], and [qq <> 0], the call raises
    [AttributeError] in both recognised modes: at [self._cnzq] in
    fourier mode and, after the two inverse transforms of the curve, at
    [self._nlist] in real mode. *)
Theorem action_gradient_before_action fft problem p xx pp qq a mode qN :
  fft_shapes fft -> 1 <= qN -> len xx = 4 * qN + 1 -> qq <> 0 ->
  recognised mode ->
  action_gradient fft (__init__ problem p) xx pp qq a mode = Raise AttributeError.
Proof.
  intros Hs Hq Hxx Hqq Hmode.
  destruct (gradient_prefix xx qq qN pp Hq Hxx Hqq)
    as (iota & d & area & Ei & Ed & Ea & Hrc & Hrs & Htc & Hts).
  unfold action_gradient. rewrite Ei, Ed. cbn [bind].
  destruct Hmode as [-> | ->]; cbn [String.eqb Ascii.eqb Bool.eqb].
  - unfold curve_real.
    destruct (irfft1D_ok fft (Codec.rcn d) (Codec.rsn d) 1 Hs
                ltac:(lia) ltac:(lia) ltac:(lia)) as (r & -> & Lr).
    cbn [bind].
    destruct (linspace_ok 0 (float_of_Z (2 * qq) * Np.pi) (len r) (len_nonneg r))
      as (z & -> & Lz).
    cbn [bind].
    destruct (irfft1D_ok fft (Codec.tcn d) (Codec.tsn d) 1 Hs
                ltac:(lia) ltac:(lia) ltac:(lia)) as (t0 & -> & Lt).
    cbn [bind].
    rewrite ew2_same by (rewrite len_map; lia). cbn [bind].
    reflexivity.
  - reflexivity.
Qed.

Lemma action_gradient_before_action_witness :
  action_gradient Reference.dft
    (__init__ Reference.uniform_field
       {| ntheta := None; nfft_multiplier := None; pqNtor := None;
          pqMpol := None; action_gradient_mode := None |})
    sample_xx 1 1 0 "real" = Raise AttributeError.
Proof.
  apply (action_gradient_before_action Reference.dft _ _ sample_xx 1 1 0 "real" 1
           dft_shapes); [lia | reflexivity | lia | left; reflexivity].
Defined.

End GradientEdges.

(** ** The curves of one run of [action] *)

Module ActionRun.

Import Spectral QFM ListFacts NpFacts SpectralFacts MatrixFacts GradientFacts
  StraightenFacts.

(** The accumulators of [fM] curves with [qN] toroidal modes. *)
Definition arrays_shape (fM qN : Z) (st : arrays) : Prop :=
  matrix fM (qN + 1) (rcnarr st) /\ matrix fM (qN + 1) (tcnarr st) /\
  matrix fM (qN + 1) (rsnarr st) /\ matrix fM (qN + 1) (tsnarr st) /\
  len (nvarr st) = fM.

(** The sizes of a tuple [action] can store. *)
Definition dof_shape (qN : Z) (d : Codec.dof) : Prop :=
  len (Codec.rcn d) = qN + 1 /\ len (Codec.tsn d) = qN + 1 /\
  len (Codec.rsn d) = qN + 1 /\ len (Codec.tcn d) = qN + 1.

(** [row[:] = v] for an array of the length of the row. *)
Lemma setslice_whole {A} (row v : list A) :
  len v = len row -> Np.setslice row 0 None v = Ok v.
Proof.
  intros H. pose proof (len_nonneg row). unfold Np.setslice.
  rewrite clip_inside by lia. rewrite Z.sub_0_r.
  replace (len v =? Z.of_nat (Z.to_nat (len row))) with true
    by (symmetry; apply Z.eqb_eq; lia).
  cbn [Z.to_nat firstn app Nat.add].
  rewrite skipn_all2 by (unfold len; lia). rewrite app_nil_r. reflexivity.
Qed.

Lemma setrow_exact {A} r c (m : list (list A)) j v :
  matrix r c m -> 0 <= j < r -> len v = c ->
  Np.setrow m j v = Ok (update m (Z.to_nat j) v).
Proof.
  intros Hm Hj Hv. unfold Np.setrow.
  destruct (BoundaryFacts.getitem_row r c m j Hm Hj) as (row & -> & Lrow).
  cbn [bind]. rewrite setslice_whole by lia. cbn [bind].
  apply setitem_inside. rewrite (matrix_len _ _ _ Hm). exact Hj.
Qed.

Lemma nth_error_update_same {A} (l : list A) j x :
  (j < length l)%nat -> nth_error (update l j x) j = Some x.
Proof.
  revert j. induction l as [| h t IH]; intros [| j] H; simpl in *;
    try lia; [reflexivity |]. apply IH. lia.
Qed.

Lemma getitem_update_same {A} (l : list A) j x :
  0 <= j < len l -> getitem (update l (Z.to_nat j) x) j = Ok x.
Proof.
  intros H. unfold getitem. rewrite len_update, index_inside by exact H.
  cbn [bind]. rewrite nth_error_update_same by (unfold len in H; lia).
  reflexivity.
Qed.

(** [store] on arrays and a tuple of matching sizes. *)
Lemma store_exact fM qN st j d :
  arrays_shape fM qN st -> 0 <= j < fM -> dof_shape qN d ->
  store st j d =
  Ok (Arrays (update (rcnarr st) (Z.to_nat j) (Codec.rcn d))
             (update (tcnarr st) (Z.to_nat j) (Codec.tcn d))
             (update (rsnarr st) (Z.to_nat j) (Codec.rsn d))
             (update (tsnarr st) (Z.to_nat j) (Codec.tsn d))
             (update (nvarr st) (Z.to_nat j) (Codec.nv d))).
Proof.
  intros (Hrc & Htc & Hrs & Hts & Hnv) Hj (Lrc & Lts & Lrs & Ltc).
  unfold store.
  rewrite (setrow_exact fM (qN + 1)) by assumption. cbn [bind].
  rewrite (setrow_exact fM (qN + 1)) by assumption. cbn [bind].
  rewrite (setrow_exact fM (qN + 1)) by assumption. cbn [bind].
  rewrite (setrow_exact fM (qN + 1)) by assumption. cbn [bind].
  rewrite setitem_inside by lia. reflexivity.
Qed.

Lemma stored_shape fM qN st j d :
  arrays_shape fM qN st -> dof_shape qN d ->
  arrays_shape fM qN
    (Arrays (update (rcnarr st) j (Codec.rcn d))
            (update (tcnarr st) j (Codec.tcn d))
            (update (rsnarr st) j (Codec.rsn d))
            (update (tsnarr st) j (Codec.tsn d))
            (update (nvarr st) j (Codec.nv d))).
Proof.
  intros (Hrc & Htc & Hrs & Hts & Hnv) (Lrc & Lts & Lrs & Ltc).
  unfold arrays_shape. cbn [rcnarr tcnarr rsnarr tsnarr nvarr].
  split; [apply matrix_update; assumption |].
  split; [apply matrix_update; assumption |].
  split; [apply matrix_update; assumption |].
  split; [apply matrix_update; assumption |].
  rewrite len_update. exact Hnv.
Qed.

(** The guess of a curve after the first is the stored previous curve
    with [tcn[0]] advanced by [dt]. *)
Lemma guess_from_previous fM qN st j (rguess dt : float) :
  arrays_shape fM qN st -> 0 <= qN -> 1 <= j <= fM ->
  exists nv0 rcn0 tsn0 rsn0 t0 tl,
    getitem (nvarr st) (j - 1) = Ok nv0 /\
    getitem (rcnarr st) (j - 1) = Ok rcn0 /\
    getitem (tsnarr st) (j - 1) = Ok tsn0 /\
    getitem (rsnarr st) (j - 1) = Ok rsn0 /\
    getitem (tcnarr st) (j - 1) = Ok (t0 :: tl) /\
    len rcn0 = qN + 1 /\ len tsn0 = qN + 1 /\ len rsn0 = qN + 1 /\
    len (t0 :: tl) = qN + 1 /\
    initial_guess j qN rguess dt st =
    Ok (Codec._pack_dof nv0 rcn0 tsn0 rsn0 ((t0 + dt)%float :: tl)).
Proof.
  intros (Hrc & Htc & Hrs & Hts & Hnv) Hq Hj.
  destruct (getitem_inside (nvarr st) (j - 1) ltac:(lia)) as (nv0 & Env & _).
  destruct (BoundaryFacts.getitem_row fM (qN + 1) _ (j - 1) Hrc ltac:(lia))
    as (rcn0 & Erc & Lrc).
  destruct (BoundaryFacts.getitem_row fM (qN + 1) _ (j - 1) Hts ltac:(lia))
    as (tsn0 & Ets & Lts).
  destruct (BoundaryFacts.getitem_row fM (qN + 1) _ (j - 1) Hrs ltac:(lia))
    as (rsn0 & Ers & Lrs).
  destruct (BoundaryFacts.getitem_row fM (qN + 1) _ (j - 1) Htc ltac:(lia))
    as (tcn0 & Etc & Ltc).
  destruct tcn0 as [| t0 tl]; [change (len (@nil float)) with 0 in Ltc; lia |].
  exists nv0, rcn0, tsn0, rsn0, t0, tl.
  repeat (split; [assumption |]).
  unfold initial_guess. destruct (Z.eqb_spec j 0); [lia |].
  rewrite Env, Erc, Etc, Ers, Ets. cbn [bind].
  rewrite getitem_head. cbn [bind].
  rewrite setitem_inside by (rewrite Ltc; lia). reflexivity.
Qed.

Lemma interior_repeat {A} (x : A) n :
  slice (repeat x (S (S n))) 1 (Some (-1)) = repeat x n.
Proof.
  change (repeat x (S (S n))) with ([x] ++ (x :: repeat x n)).
  rewrite repeat_cons. apply slice_interior.
Qed.

(** The guess of the first curve: the circle of radius [rguess]. *)
Lemma guess_first qN (rguess dt : float) st :
  1 <= qN ->
  initial_guess 0 qN rguess dt st =
  Ok ([1; rguess + 1]%float ++ repeat 1%float (Z.to_nat (4 * qN - 1))).
Proof.
  intros Hq. unfold initial_guess. cbn [Z.eqb]. unfold Np.zeros.
  rewrite guard_true by (apply Z.leb_le; lia). cbn [bind].
  destruct (Z.to_nat (qN + 1)) as [| [| n]] eqn:En; [lia | lia |].
  rewrite !setitem_inside by (rewrite len_repeat; lia). cbn [bind].
  cbn [Z.to_nat update repeat]. unfold Codec._pack_dof.
  change (0%float :: 0%float :: repeat 0%float n) with (repeat 0%float (S (S n))).
  rewrite !interior_repeat.
  change ([0%float] ++ (rguess :: 0%float :: repeat 0%float n) ++
          repeat 0%float n ++ repeat 0%float n ++ repeat 0%float (S (S n)))
    with ([0%float; rguess] ++ (repeat 0%float (S n) ++
          repeat 0%float n ++ repeat 0%float n ++ repeat 0%float (S (S n)))).
  rewrite <- !repeat_app, map_app, map_repeat.
  replace (Z.to_nat (4 * qN - 1)) with (S n + (n + (n + S (S n))))%nat by lia.
  reflexivity.
Qed.

Lemma len_pack_dof nv0 rcn0 tsn0 rsn0 tcn0 qN :
  1 <= qN -> len rcn0 = qN + 1 -> len tsn0 = qN + 1 -> len rsn0 = qN + 1 ->
  len tcn0 = qN + 1 ->
  len (Codec._pack_dof nv0 rcn0 tsn0 rsn0 tcn0) = 4 * qN + 1.
Proof.
  intros Hq Lrc Lts Lrs Ltc. unfold Codec._pack_dof.
  rewrite len_map, !len_app, !len_interior by lia.
  change (len [nv0]) with 1. lia.
Qed.

(** Every guess of a run has [4 * qN + 1] entries. *)
Lemma guess_ok fM qN st j (rguess dt : float) :
  arrays_shape fM qN st -> 1 <= qN -> 0 <= j <= fM ->
  exists xx0, initial_guess j qN rguess dt st = Ok xx0 /\ len xx0 = 4 * qN + 1.
Proof.
  intros Hst Hq Hj. destruct (Z.eq_dec j 0) as [-> | Hj0].
  - rewrite guess_first by exact Hq. eexists. split; [reflexivity |].
    rewrite len_app, len_repeat. change (len [1%float; (rguess + 1)%float]) with 2.
    lia.
  - destruct (guess_from_previous fM qN st j rguess dt Hst ltac:(lia) ltac:(lia))
      as (nv0 & rcn0 & tsn0 & rsn0 & t0 & tl & _ & _ & _ & _ & _
          & Lrc & Lts & Lrs & Ltc & ->).
    eexists. split; [reflexivity |].
    apply len_pack_dof; assumption.
Qed.

Section Run.

Variable fft : FFT.
Variable root :
  (list float -> result (list float)) -> list float -> string -> float ->
  result (list float * bool).
Variable str_float : float -> string.

(** What one pass through the loop body does, case by case. *)
Lemma solve_curve_cases self pp qq qN rguess dt method st jpq tr r :
  solve_curve fft root str_float self pp qq qN rguess dt method st jpq = (tr, r) ->
  (tr = [] /\ exists e, initial_guess jpq qN rguess dt st = Raise e /\ r = Raise e) \/
  (exists c,
     tr = [c] /\ initial_guess jpq qN rguess dt st = Ok (call_x0 c) /\
     call_reply c =
       root (fun xx => action_gradient fft self xx pp qq (float_of_Z jpq * dt)%float
                         (_action_gradient_mode self))
            (call_x0 c) method 0x1.5798ee2308c3ap-27%float /\
     r = match call_reply c with
         | Ok (x, true) => d <- Codec._unpack_dof x ;; store st jpq d
         | Ok (x, false) => Raise (not_found str_float pp qq (float_of_Z jpq * dt)%float)
         | Raise e => Raise e
         end).
Proof.
  unfold solve_curve, tbind, lift, call_root.
  destruct (initial_guess jpq qN rguess dt st) as [xx0 | e].
  2:{ intros [= <- <-]. left. split; [reflexivity | eauto]. }
  destruct (root _ xx0 method _) as [[x success] | e] eqn:Er.
  - intros [= <- <-]. right. eexists. split; [reflexivity |].
    cbn [call_x0 call_reply]. split; [reflexivity |]. split; [symmetry; exact Er |].
    destruct success; reflexivity.
  - intros [= <- <-]. right. eexists. split; [reflexivity |].
    cbn [call_x0 call_reply]. split; [reflexivity |]. split; [symmetry; exact Er |].
    reflexivity.
Qed.

(** A converged solution of the size of the guess is stored as it is. *)
Lemma stored_solution fM qN st j x :
  arrays_shape fM qN st -> 1 <= qN -> 0 <= j < fM -> len x = 4 * qN + 1 ->
  exists d st',
    Codec._unpack_dof x = Ok d /\ dof_shape qN d /\
    store st j d = Ok st' /\ arrays_shape fM qN st' /\
    getitem (nvarr st') j = Ok (Codec.nv d) /\
    getitem (rcnarr st') j = Ok (Codec.rcn d) /\
    getitem (tsnarr st') j = Ok (Codec.tsn d) /\
    getitem (rsnarr st') j = Ok (Codec.rsn d) /\
    getitem (tcnarr st') j = Ok (Codec.tcn d).
Proof.
  intros Hst Hq Hj Hx.
  destruct (CodecFacts.pack_unpack qN x Hq Hx) as (d & Ed & (Lrc & Pts & Prs & Ltc) & _).
  apply pinned_len in Pts, Prs.
  assert (Hd : dof_shape qN d) by (unfold dof_shape; auto).
  exists d. eexists. split; [exact Ed |]. split; [exact Hd |].
  split; [apply (store_exact fM qN); assumption |].
  split; [apply stored_shape; assumption |].
  destruct Hst as (Hrc & Htc & Hrs & Hts & Hnv).
  cbn [rcnarr tcnarr rsnarr tsnarr nvarr].
  repeat split; apply getitem_update_same;
    rewrite ?(matrix_len _ _ _ Hrc), ?(matrix_len _ _ _ Htc),
      ?(matrix_len _ _ _ Hrs), ?(matrix_len _ _ _ Hts), ?Hnv; exact Hj.
Qed.

(** The arrays keep their shape through whatever is stored. *)
Lemma store_shape fM qN st j d st' :
  arrays_shape fM qN st -> store st j d = Ok st' -> arrays_shape fM qN st'.
Proof.
  intros (Hrc & Htc & Hrs & Hts & Hnv) H. unfold store in H.
  assert (Hrow : forall (m : list (list float)) v m', matrix fM (qN + 1) m ->
            Np.setrow m j v = Ok m' -> matrix fM (qN + 1) m').
  { intros m v m' Hm E. unfold Np.setrow in E.
    unbind E as row Er. unbind E as row' Er'.
    apply (setitem_matrix fM (qN + 1) m j row'); [exact Hm | | exact E].
    rewrite (setslice_len _ _ _ _ _ Er'). apply (matrix_getitem fM (qN + 1) m j).
    - exact Hm.
    - exact Er. }
  unbind H as a Ea. unbind H as b Eb. unbind H as c Ec. unbind H as e Ee.
  unbind H as n En. injection H as <-.
  unfold arrays_shape. cbn [rcnarr tcnarr rsnarr tsnarr nvarr].
  split; [exact (Hrow _ _ _ Hrc Ea) |]. split; [exact (Hrow _ _ _ Htc Ec) |].
  split; [exact (Hrow _ _ _ Hrs Ee) |]. split; [exact (Hrow _ _ _ Hts Eb) |].
  rewrite (setitem_len _ _ _ _ En). exact Hnv.
Qed.

(** The loop over the curves [j0, j0 + 1, ...]: its first guess, and
    how each later guess continues the solution before it. *)
Lemma solve_curves_chain self pp qq fM qN rguess dt method n :
  1 <= qN ->
  forall j0 st tr r,
    arrays_shape fM qN st -> (j0 + n <= Z.to_nat fM)%nat ->
    solve_curves (solve_curve fft root str_float self pp qq qN rguess dt method)
      (map Z.of_nat (seq j0 n)) st = (tr, r) ->
    (forall c rest, tr = c :: rest ->
       initial_guess (Z.of_nat j0) qN rguess dt st = Ok (call_x0 c)) /\
    (forall pre c1 c2 post x,
       tr = pre ++ c1 :: c2 :: post ->
       call_reply c1 = Ok (x, true) -> len x = 4 * qN + 1 ->
       exists d t0 tl,
         Codec._unpack_dof x = Ok d /\ Codec.tcn d = t0 :: tl /\
         call_x0 c2 =
         Codec._pack_dof (Codec.nv d) (Codec.rcn d) (Codec.tsn d) (Codec.rsn d)
           ((t0 + dt)%float :: tl)).
Proof.
  intros Hq. induction n as [| n IH]; intros j0 st tr r Hst Hn H.
  - injection H as <- <-. split.
    + intros c rest [=].
    + intros [| ? ?] c1 c2 post x [=].
  - cbn [seq map solve_curves] in H. unfold tbind in H.
    destruct (solve_curve fft root str_float self pp qq qN rguess dt method st
                (Z.of_nat j0)) as [tr1 r1] eqn:E1.
    apply solve_curve_cases in E1.
    destruct E1 as [(-> & e & Eg & ->) | (c & -> & Eg & Ereply & Er1)].
    { injection H as <- <-. split.
      - intros c rest [=].
      - intros [| ? ?] c1 c2 post x [=]. }
    destruct r1 as [st' | e].
    2:{ injection H as <- <-. split.
        - intros c' rest [= <- <-]. exact Eg.
        - intros [| ? [| ? ?]] c1 c2 post x [=]. }
    destruct (solve_curves _ (map Z.of_nat (seq (S j0) n)) st') as [tr2 r2] eqn:E2.
    injection H as <- <-.
    assert (Hst' : arrays_shape fM qN st').
    { destruct (call_reply c) as [[x [|]] | e]; try discriminate.
      symmetry in Er1. unbind Er1 as d Ed.
      apply (store_shape fM qN st (Z.of_nat j0) d); assumption. }
    destruct (IH (S j0) st' tr2 r2 Hst' ltac:(lia) E2) as [IHfirst IHchain].
    split.
    + intros c' rest [= <- <-]. exact Eg.
    + intros pre c1 c2 post x Htr Hreply Hx.
      destruct pre as [| p pre'].
      * cbn [app] in Htr. injection Htr as <- Htr2.
        rewrite Hreply in Er1.
        destruct (stored_solution fM qN st (Z.of_nat j0) x Hst Hq ltac:(lia) Hx)
          as (d & st'' & Ed & (Lrc & Lts & Lrs & Ltc) & Es & _
              & Gnv & Grc & Gts & Grs & Gtc).
        rewrite Ed in Er1. cbn [bind] in Er1. rewrite Es in Er1.
        injection Er1 as <-.
        pose proof (IHfirst c2 post Htr2) as Hg.
        destruct (guess_from_previous fM qN st' (Z.of_nat (S j0)) rguess dt
                    Hst' ltac:(lia) ltac:(lia))
          as (nv0 & rcn0 & tsn0 & rsn0 & t0 & tl & Gnv' & Grc' & Gts' & Grs' & Gtc'
              & _ & _ & _ & _ & Eguess).
        replace (Z.of_nat (S j0) - 1) with (Z.of_nat j0) in * by lia.
        rewrite Gnv in Gnv'. rewrite Grc in Grc'. rewrite Gts in Gts'.
        rewrite Grs in Grs'. rewrite Gtc in Gtc'.
        injection Gnv' as <-. injection Grc' as <-. injection Gts' as <-.
        injection Grs' as <-. injection Gtc' as Htcn.
        rewrite Eguess in Hg. injection Hg as Hx0.
        exists d, t0, tl. split; [exact Ed |]. split; [exact Htcn |].
        symmetry. exact Hx0.
      * cbn [app] in Htr. injection Htr as _ Htr2.
        apply (IHchain pre' c1 c2 post x Htr2 Hreply Hx).
Qed.

(** With a solver that converges on every curve, to a vector of the
    size of its guess, the loop completes with one call per curve. *)
Lemma solve_curves_complete self pp qq fM qN rguess dt method n :
  1 <= qN ->
  (forall f x0 m t, exists x, root f x0 m t = Ok (x, true) /\ len x = len x0) ->
  forall j0 st,
    arrays_shape fM qN st -> (j0 + n <= Z.to_nat fM)%nat ->
    exists tr st',
      solve_curves (solve_curve fft root str_float self pp qq qN rguess dt method)
        (map Z.of_nat (seq j0 n)) st = (tr, Ok st') /\
      length tr = n /\ arrays_shape fM qN st' /\
      Forall (fun c => len (call_x0 c) = 4 * qN + 1) tr.
Proof.
  intros Hq Hroot. induction n as [| n IH]; intros j0 st Hst Hn.
  - exists [], st. split; [reflexivity |]. split; [reflexivity |].
    split; [exact Hst | constructor].
  - cbn [seq map solve_curves]. unfold tbind.
    destruct (solve_curve fft root str_float self pp qq qN rguess dt method st
                (Z.of_nat j0)) as [tr1 r1] eqn:E1.
    apply solve_curve_cases in E1.
    destruct (guess_ok fM qN st (Z.of_nat j0) rguess dt Hst Hq ltac:(lia))
      as (xx0 & Exx & Lxx).
    destruct E1 as [(-> & e & Eg & ->) | (c & -> & Eg & Ereply & Er1)];
      [rewrite Exx in Eg; discriminate |].
    rewrite Exx in Eg. injection Eg as Hc.
    destruct (Hroot (fun xx => action_gradient fft self xx pp qq
                                 (float_of_Z (Z.of_nat j0) * dt)%float
                                 (_action_gradient_mode self))
                (call_x0 c) method 0x1.5798ee2308c3ap-27%float)
      as (x & Ex & Lx).
    rewrite Ex in Ereply. rewrite Ereply in Er1.
    destruct (stored_solution fM qN st (Z.of_nat j0) x Hst Hq ltac:(lia)
                ltac:(rewrite Lx, <- Hc; exact Lxx))
      as (d & st1 & Ed & _ & Es & Hst1 & _).
    rewrite Ed in Er1. cbn [bind] in Er1. rewrite Es in Er1. subst r1.
    destruct (IH (S j0) st1 Hst1 ltac:(lia)) as (tr2 & st2 & E2 & L2 & Hst2 & F2).
    rewrite E2. exists ([c] ++ tr2), st2.
    split; [reflexivity |]. split; [cbn; lia |]. split; [exact Hst2 |].
    constructor; [rewrite <- Hc; exact Lxx | exact F2].
Qed.

(** An exception of the solver ends the loop where it is raised. *)
Lemma solve_curves_exception self pp qq qN rguess dt method jpqs :
  forall st tr r,
    solve_curves (solve_curve fft root str_float self pp qq qN rguess dt method)
      jpqs st = (tr, r) ->
    forall c e, In c tr -> call_reply c = Raise e ->
      r = Raise e /\ exists earlier, tr = earlier ++ [c].
Proof.
  induction jpqs as [| jpq rest IH]; intros st tr r H c e Hin Hreply.
  - injection H as <- <-. destruct Hin.
  - cbn [solve_curves] in H. unfold tbind in H.
    destruct (solve_curve fft root str_float self pp qq qN rguess dt method st jpq)
      as [tr1 r1] eqn:E1.
    apply solve_curve_cases in E1.
    destruct E1 as [(-> & e1 & _ & ->) | (c1 & -> & _ & _ & Er1)].
    { injection H as <- <-. destruct Hin. }
    destruct r1 as [st' | e1].
    + destruct (solve_curves _ rest st') as [tr2 r2] eqn:E2.
      injection H as <- <-.
      destruct Hin as [<- | Hin].
      * rewrite Hreply in Er1. discriminate.
      * destruct (IH st' tr2 r2 E2 c e Hin Hreply) as (Hr & earlier & ->).
        split; [exact Hr | exists (c1 :: earlier); reflexivity].
    + injection H as <- <-. destruct Hin as [<- | []].
      rewrite Hreply in Er1. split; [exact Er1 | exists []; reflexivity].
Qed.

End Run.

End ActionRun.

(** ** Folding the curves into a surface *)

Module SurfaceFacts.

Import Spectral QFM ListFacts NpFacts SpectralFacts MatrixFacts BoundaryFacts
  StraightenFacts SpectralEdges ActionRun.

(** *** Exact results of the array assignments *)

Lemma sequence_zip_exact {A B C} (h : A -> B -> result C) (g : A -> B -> C) a b :
  (forall x y, In x a -> In y b -> h x y = Ok (g x y)) ->
  Np.sequence (Np.zip_with h a b) = Ok (Np.zip_with g a b).
Proof.
  revert b. induction a as [| x a IH]; intros [| y b] H; try reflexivity.
  cbn [Np.zip_with Np.sequence].
  rewrite H by (left; reflexivity). cbn [bind].
  rewrite IH by (intros; apply H; right; assumption). reflexivity.
Qed.

Lemma sequence_map_exact {A C} (h : A -> result C) (g : A -> C) l :
  (forall x, In x l -> h x = Ok (g x)) ->
  Np.sequence (map h l) = Ok (map g l).
Proof.
  induction l as [| x l IH]; intros H; [reflexivity |].
  cbn [map Np.sequence]. rewrite H by (left; reflexivity). cbn [bind].
  rewrite IH by (intros; apply H; right; assumption). reflexivity.
Qed.

Lemma In_block {A} (x : A) a k l : In x (firstn k (skipn a l)) -> In x l.
Proof.
  intros H. rewrite <- (firstn_skipn a l). apply in_or_app. right.
  rewrite <- (firstn_skipn k (skipn a l)). apply in_or_app. left. exact H.
Qed.

(** [m[a:b, c0:c1] = v] when every row assignment is known. *)
Lemma setslice2_exact {A} (m v : list (list A)) a b c0 c1
    (g : list A -> list A -> list A) :
  0 <= a <= b -> b <= len m -> len v = b - a ->
  (forall row val, In row m -> In val v -> Np.setslice row c0 c1 val = Ok (g row val)) ->
  Np.setslice2 m a (Some b) c0 c1 v =
  Ok (firstn (Z.to_nat a) m
        ++ Np.zip_with g (firstn (Z.to_nat (b - a)) (skipn (Z.to_nat a) m)) v
        ++ skipn (Z.to_nat a + Z.to_nat (b - a)) m).
Proof.
  intros Ha Hb Hv Hg. unfold Np.setslice2.
  rewrite !clip_inside by lia.
  replace (len v =? Z.of_nat (Z.to_nat (b - a))) with true
    by (symmetry; apply Z.eqb_eq; lia).
  cbn [bind].
  rewrite (sequence_zip_exact _ g).
  - reflexivity.
  - intros row val Hrow Hval. apply Hg; [| exact Hval].
    apply (In_block _ _ _ _ Hrow).
Qed.

(** [row[0:k] = val] and [row[k:] = val] *)
Lemma setslice_front {A} (row val : list A) k :
  0 <= k <= len row -> len val = k ->
  Np.setslice row 0 (Some k) val = Ok (val ++ skipn (Z.to_nat k) row).
Proof.
  intros Hk Hv. unfold Np.setslice. rewrite !clip_inside by lia.
  rewrite Z.sub_0_r.
  replace (len val =? Z.of_nat (Z.to_nat k)) with true
    by (symmetry; apply Z.eqb_eq; lia).
  reflexivity.
Qed.

Lemma setslice_back {A} (row val : list A) k :
  0 <= k <= len row -> len val = len row - k ->
  Np.setslice row k None val = Ok (firstn (Z.to_nat k) row ++ val).
Proof.
  intros Hk Hv. unfold Np.setslice. rewrite !clip_inside by lia.
  replace (len val =? Z.of_nat (Z.to_nat (len row - k))) with true
    by (symmetry; apply Z.eqb_eq; lia).
  rewrite skipn_all2 by (unfold len; lia). rewrite app_nil_r. reflexivity.
Qed.

(** *** One iteration of the fold *)

(** A row read from column [k] on, then from its start: the rotation
    to the left by [k] columns. *)
Definition rotate_left {A} (k : Z) (row : list A) : list A :=
  slice row k None ++ slice row 0 (Some k).

Lemma len_rotate_left {A} k (row : list A) :
  0 <= k <= len row -> len (rotate_left k row) = len row.
Proof.
  intros H. unfold rotate_left.
  rewrite len_app, len_slice_open, len_slice by lia. lia.
Qed.

(** Writing the two halves of a rotated row over a row of the same
    length. *)
Lemma zip_two_halves {A} (mid src : list (list A)) k c :
  0 <= k <= c -> len mid = len src ->
  Forall (fun row => len row = c) mid -> Forall (fun row => len row = c) src ->
  Np.zip_with (fun row val => firstn (Z.to_nat (c - k)) row ++ val)
    (Np.zip_with (fun row val => val ++ skipn (Z.to_nat (c - k)) row) mid
       (map (fun row => slice row k None) src))
    (map (fun row => slice row 0 (Some k)) src)
  = map (rotate_left k) src.
Proof.
  intros Hk. revert src. induction mid as [| row mid IH]; intros [| s src] Hl Hm Hs.
  - reflexivity.
  - rewrite len_cons in Hl. pose proof (len_nonneg src).
    change (len (@nil (list A))) with 0 in Hl. lia.
  - rewrite len_cons in Hl. pose proof (len_nonneg mid).
    change (len (@nil (list A))) with 0 in Hl. lia.
  - rewrite !len_cons in Hl.
    apply Forall_cons_iff in Hm as [Hrow Hm]. apply Forall_cons_iff in Hs as [Hsr Hs].
    cbn [map Np.zip_with]. rewrite IH by (assumption || lia). f_equal.
    unfold rotate_left. f_equal.
    rewrite firstn_app.
    assert (L : length (slice s k None) = Z.to_nat (c - k)).
    { pose proof (len_slice_open s k ltac:(lia)) as E. unfold len in *. lia. }
    rewrite L, Nat.sub_diag. cbn [firstn]. rewrite app_nil_r.
    apply firstn_all2. lia.
Qed.

(** The row block of iteration [i] lies inside the folded array. *)
Lemma fold_rows_inside pp qq fM i :
  1 <= qq -> 0 <= fM ->
  0 <= fst (fold_rows pp qq fM i) /\
  snd (fold_rows pp qq fM i) = fst (fold_rows pp qq fM i) + fM /\
  snd (fold_rows pp qq fM i) <= qq * fM.
Proof.
  intros Hq HfM. unfold fold_rows, fold_idx. cbn [fst snd].
  pose proof (Z.mod_pos_bound (pp * i) qq ltac:(lia)). nia.
Qed.

Lemma fold_curve_exact pp qq fM W (src dst : list (list float)) i :
  1 <= qq -> 0 <= fM -> 0 <= W -> 0 <= i < qq ->
  matrix fM (qq * W) src -> matrix (qq * fM) (qq * W) dst ->
  fold_curve pp qq fM W src dst i =
  Ok (firstn (Z.to_nat (fst (fold_rows pp qq fM i))) dst
        ++ map (rotate_left (i * W)) src
        ++ skipn (Z.to_nat (snd (fold_rows pp qq fM i))) dst).
Proof.
  intros Hq HfM HW Hi Hsrc Hdst.
  destruct (fold_rows_inside pp qq fM i Hq HfM) as (Hlo & Hhi & Hin).
  unfold fold_curve.
  destruct (fold_rows pp qq fM i) as [lo hi]. cbn [fst snd] in *. subst hi.
  pose proof Hsrc as [Ls Fs]. pose proof Hdst as [Ld Fd].
  assert (HiW : 0 <= i * W <= qq * W) by nia.
  set (g1 := fun (row val : list float) =>
               val ++ skipn (Z.to_nat ((qq - i) * W)) row).
  set (g2 := fun (row val : list float) =>
               firstn (Z.to_nat ((qq - i) * W)) row ++ val).
  rewrite (setslice2_exact dst (cols src (i * W) None) lo (lo + fM) 0
             (Some ((qq - i) * W)) g1).
  2: lia. 2: lia.
  2:{ unfold cols. rewrite len_map. lia. }
  2:{ intros row val Hrow Hval. unfold cols in Hval. apply in_map_iff in Hval
        as (s & <- & Hs).
      rewrite Forall_forall in Fd, Fs.
      apply setslice_front; [rewrite (Fd row Hrow); nia |].
      rewrite len_slice_open by (rewrite (Fs s Hs); lia). rewrite (Fs s Hs). lia. }
  cbn [bind].
  set (pre := firstn (Z.to_nat lo) dst).
  set (mid := firstn (Z.to_nat (lo + fM - lo)) (skipn (Z.to_nat lo) dst)).
  set (post := skipn (Z.to_nat lo + Z.to_nat (lo + fM - lo)) dst).
  set (mid1 := Np.zip_with g1 mid (cols src (i * W) None)).
  assert (Lpre : length pre = Z.to_nat lo).
  { unfold pre. rewrite length_firstn. unfold len in Ld. lia. }
  assert (Lmid : len mid = fM).
  { unfold mid. rewrite len_firstn, len_skipn. lia. }
  assert (Fmid : Forall (fun row => len row = qq * W) mid).
  { unfold mid. apply Forall_firstn, Forall_skipn. exact Fd. }
  assert (Lmid1 : length mid1 = Z.to_nat fM).
  { assert (E : len mid1 = fM)
      by (unfold mid1, cols; rewrite len_zip_with, len_map; lia).
    unfold len in E. lia. }
  assert (Hdst1 : matrix (qq * fM) (qq * W) (pre ++ mid1 ++ post)).
  { apply (setslice2_matrix (qq * fM) (qq * W) dst lo (Some (lo + fM)) 0
             (Some ((qq - i) * W)) (cols src (i * W) None)); [exact Hdst |].
    apply (setslice2_exact dst (cols src (i * W) None) lo (lo + fM) 0
             (Some ((qq - i) * W)) g1); [lia | lia | |].
    - unfold cols. rewrite len_map. lia.
    - intros row val Hrow Hval. unfold cols in Hval. apply in_map_iff in Hval
        as (s & <- & Hs).
      rewrite Forall_forall in Fd, Fs.
      apply setslice_front; [rewrite (Fd row Hrow); nia |].
      rewrite len_slice_open by (rewrite (Fs s Hs); lia). rewrite (Fs s Hs). lia. }
  pose proof Hdst1 as [L1 F1].
  rewrite (setslice2_exact (pre ++ mid1 ++ post) (cols src 0 (Some (i * W)))
             lo (lo + fM) ((qq - i) * W) None g2).
  2: lia. 2: lia.
  2:{ unfold cols. rewrite len_map. lia. }
  2:{ intros row val Hrow Hval. unfold cols in Hval. apply in_map_iff in Hval
        as (s & <- & Hs).
      rewrite Forall_forall in F1, Fs.
      apply setslice_back; [rewrite (F1 row Hrow); nia |].
      rewrite len_slice by (rewrite ?(Fs s Hs); lia). rewrite (F1 row Hrow). lia. }
  f_equal.
  replace (Z.to_nat lo) with (length pre + 0)%nat at 1 by lia.
  rewrite firstn_app_2. cbn [firstn]. rewrite app_nil_r.
  f_equal.
  replace (Z.to_nat lo) with (length pre) by lia.
  rewrite skipn_length_app.
  replace (Z.to_nat (lo + fM - lo)) with (length mid1) by lia.
  rewrite firstn_length_app.
  replace (length pre + length mid1)%nat with (length (pre ++ mid1))
    by (rewrite length_app; reflexivity).
  rewrite app_assoc, skipn_length_app.
  f_equal.
  - unfold mid1, g1, g2, cols.
    replace ((qq - i) * W) with (qq * W - i * W) by lia.
    apply zip_two_halves; try assumption; lia.
  - unfold post. f_equal. lia.
Qed.

(** X12. One iteration [i] of the fold writes the whole row block
    [idx * fM .. (idx + 1) * fM - 1], [idx = (pp * i) mod qq], of the
    [(alpha, zeta)] array and nothing else: row [k] of the block becomes
    curve [k] rotated to the left by [i * pqNtor * MM] columns, the two
    slice assignments covering the row exactly once. *)
Theorem fold_curve_rotates pp qq fM W (src dst : list (list float)) i :
  1 <= qq -> 0 <= fM -> 0 <= W -> 0 <= i < qq ->
  matrix fM (qq * W) src -> matrix (qq * fM) (qq * W) dst ->
  fold_curve pp qq fM W src dst i =
  Ok (slice dst 0 (Some (fold_idx pp qq i * fM))
        ++ map (rotate_left (i * W)) src
        ++ slice dst ((fold_idx pp qq i + 1) * fM) None) /\
  len (slice dst 0 (Some (fold_idx pp qq i * fM))) = fold_idx pp qq i * fM /\
  Forall (fun row => len row = qq * W) (map (rotate_left (i * W)) src).
Proof.
  intros Hq HfM HW Hi Hsrc Hdst.
  destruct (fold_rows_inside pp qq fM i Hq HfM) as (Hlo & Hhi & Hin).
  unfold fold_rows in *. cbn [fst snd] in *.
  pose proof Hdst as [Ld Fd]. pose proof Hsrc as [Ls Fs].
  split; [| split].
  - rewrite (fold_curve_exact pp qq fM W src dst i) by assumption.
    unfold fold_rows. cbn [fst snd].
    rewrite slice_inside, slice_open by lia.
    rewrite Z.sub_0_r. reflexivity.
  - rewrite len_slice by lia. lia.
  - apply Forall_map. eapply Forall_impl; [| exact Fs].
    cbv beta. intros row Hrow. rewrite len_rotate_left by nia. exact Hrow.
Qed.

Lemma fold_curve_rotates_witness :
  fold_curve 1 2 1 2 [[1; 2; 3; 4]]%float
    [[0; 0; 0; 0]; [0; 0; 0; 0]]%float 1
  = Ok [[0; 0; 0; 0]; [3; 4; 1; 2]]%float.
Proof.
  destruct (fold_curve_rotates 1 2 1 2 [[1; 2; 3; 4]]%float
              [[0; 0; 0; 0]; [0; 0; 0; 0]]%float 1) as (H & _);
    try lia.
  - split; [reflexivity | repeat constructor].
  - split; [reflexivity | repeat constructor].
  - rewrite H. reflexivity.
Defined.

(** *** The whole fold *)

Lemma foldM_pair {A S T} (f : S -> A -> result S) (g : T -> A -> result T) l :
  forall s t s' t',
    foldM f l s = Ok s' -> foldM g l t = Ok t' ->
    foldM (fun acc i => a <- f (fst acc) i ;; b <- g (snd acc) i ;; Ok (a, b))
      l (s, t) = Ok (s', t').
Proof.
  induction l as [| x l IH]; intros s t s' t' Hf Hg; cbn [foldM] in *.
  - injection Hf as <-. injection Hg as <-. reflexivity.
  - unbind Hf as s1 E1. unbind Hg as t1 E2. cbn [fst snd].
    rewrite E1, E2. cbn [bind]. apply IH; assumption.
Qed.

(** A row of an array after rows [lo .. lo + n - 1] were replaced. *)
Lemma nth_splice {A} (dst B : list A) lo n p d :
  length B = n -> (lo + n <= length dst)%nat ->
  nth p (firstn lo dst ++ B ++ skipn (lo + n) dst) d =
  if (lo <=? p)%nat && (p <? lo + n)%nat then nth (p - lo) B d else nth p dst d.
Proof.
  intros HB Hlo.
  assert (Lpre : length (firstn lo dst) = lo) by (rewrite length_firstn; lia).
  destruct (Nat.leb_spec lo p) as [H1 | H1]; cbn [andb].
  - rewrite app_nth2 by lia. rewrite Lpre.
    destruct (Nat.ltb_spec p (lo + n)) as [H2 | H2].
    + apply app_nth1. lia.
    + rewrite app_nth2 by lia. rewrite nth_skipn. f_equal. lia.
  - rewrite app_nth1 by lia. rewrite nth_firstn.
    destruct (Nat.ltb_spec p lo); [reflexivity | lia].
Qed.

Lemma nth_map_in {A B} (f : A -> B) l k d d' :
  (k < length l)%nat -> nth k (map f l) d' = f (nth k l d).
Proof.
  intros H. rewrite (nth_indep _ d' (f d)) by (rewrite length_map; exact H).
  apply map_nth.
Qed.

(** The position of a row inside its block. *)
Lemma block_position fM b k : 1 <= fM -> 0 <= k < fM -> 0 <= b ->
  (b * fM + k) / fM = b /\ (b * fM + k) mod fM = k.
Proof.
  intros HfM Hk Hb. split.
  - symmetry. apply (Z.div_unique (b * fM + k) fM b k); lia.
  - symmetry. apply (Z.mod_unique (b * fM + k) fM b k); lia.
Qed.

(** The fold of one array over a list of iterations, row by row: a row
    whose block no iteration addresses is kept, and a row whose block is
    addressed by iteration [i] only holds the rotated curve. *)
Lemma fold_loop_rows pp qq fM W (src : list (list float)) :
  1 <= qq -> 1 <= fM -> 0 <= W -> matrix fM (qq * W) src ->
  forall its dst,
    Forall (fun i => 0 <= i < qq) its -> matrix (qq * fM) (qq * W) dst ->
    exists R,
      foldM (fun acc i => fold_curve pp qq fM W src acc i) its dst = Ok R /\
      matrix (qq * fM) (qq * W) R /\
      forall p, 0 <= p < qq * fM ->
        ((forall i, In i its -> fold_idx pp qq i <> p / fM) ->
         nth (Z.to_nat p) R [] = nth (Z.to_nat p) dst []) /\
        (forall i, In i its -> fold_idx pp qq i = p / fM ->
           (forall i', In i' its -> fold_idx pp qq i' = p / fM -> i' = i) ->
           nth (Z.to_nat p) R [] =
           rotate_left (i * W) (nth (Z.to_nat (p mod fM)) src [])).
Proof.
  intros Hq HfM HW Hsrc. pose proof Hsrc as [Ls Fs].
  induction its as [| i0 rest IH]; intros dst Hits Hdst.
  - exists dst. split; [reflexivity |]. split; [exact Hdst |].
    intros p Hp. split; [reflexivity |]. intros i [].
  - apply Forall_cons_iff in Hits as [Hi0 Hrest].
    cbn [foldM].
    rewrite (fold_curve_exact pp qq fM W src dst i0) by (assumption || lia).
    cbn [bind].
    destruct (fold_rows_inside pp qq fM i0 Hq ltac:(lia)) as (Hlo & Hhi & Hin).
    unfold fold_rows in *. cbn [fst snd] in *.
    set (lo := fold_idx pp qq i0 * fM) in *.
    set (dst1 := firstn (Z.to_nat lo) dst ++ map (rotate_left (i0 * W)) src
                   ++ skipn (Z.to_nat ((fold_idx pp qq i0 + 1) * fM)) dst).
    pose proof Hdst as [Ld Fd].
    assert (Hdst1 : matrix (qq * fM) (qq * W) dst1).
    { unfold dst1. rewrite Hhi.
      replace (Z.to_nat (lo + fM)) with (Z.to_nat lo + Z.to_nat fM)%nat by lia.
      apply matrix_splice; [exact Hdst | unfold len in Ld; lia
        | rewrite length_map; unfold len in Ls; lia |].
      apply Forall_map. eapply Forall_impl; [| exact Fs]. cbv beta.
      intros row Hrow. rewrite len_rotate_left by nia. exact Hrow. }
    assert (Hrow1 : forall p, 0 <= p < qq * fM ->
              nth (Z.to_nat p) dst1 [] =
              if Z.eqb (p / fM) (fold_idx pp qq i0)
              then rotate_left (i0 * W) (nth (Z.to_nat (p mod fM)) src [])
              else nth (Z.to_nat p) dst []).
    { intros p Hp. unfold dst1. rewrite Hhi.
      replace (Z.to_nat (lo + fM)) with (Z.to_nat lo + Z.to_nat fM)%nat by lia.
      rewrite nth_splice
        by (rewrite ?length_map; unfold len in Ls, Ld; lia).
      pose proof (Z.div_mod p fM ltac:(lia)) as Hdm.
      pose proof (Z.mod_pos_bound p fM ltac:(lia)) as Hmb.
      destruct (Z.eqb_spec (p / fM) (fold_idx pp qq i0)) as [Eb | Nb].
      - assert (Hin' : lo <= p < lo + fM) by (unfold lo; nia).
        destruct (Nat.leb_spec (Z.to_nat lo) (Z.to_nat p)); [| lia].
        destruct (Nat.ltb_spec (Z.to_nat p) (Z.to_nat lo + Z.to_nat fM)); [| lia].
        cbn [andb].
        rewrite (nth_map_in _ _ _ []) by (unfold len in Ls; lia).
        do 2 f_equal. unfold lo. nia.
      - assert (Hout : p < lo \/ lo + fM <= p).
        { unfold lo. destruct (Z_lt_le_dec (p / fM) (fold_idx pp qq i0)); [left | right]; nia. }
        destruct (Nat.leb_spec (Z.to_nat lo) (Z.to_nat p)); cbn [andb];
          [| reflexivity].
        destruct (Nat.ltb_spec (Z.to_nat p) (Z.to_nat lo + Z.to_nat fM));
          [lia | reflexivity]. }
    destruct (IH dst1 Hrest Hdst1) as (R & ER & HR & Hrows).
    exists R. split; [exact ER |]. split; [exact HR |].
    intros p Hp. destruct (Hrows p Hp) as [Hkeep Hset].
    specialize (Hrow1 p Hp). split.
    + intros Hnone. rewrite Hkeep by (intros i Hi; apply Hnone; right; exact Hi).
      rewrite Hrow1.
      destruct (Z.eqb_spec (p / fM) (fold_idx pp qq i0)) as [Eb | _]; [| reflexivity].
      exfalso. apply (Hnone i0); [left; reflexivity | symmetry; exact Eb].
    + intros i Hi Eidx Huniq.
      destruct (in_dec Z.eq_dec i rest) as [Hin_rest | Hnot].
      * apply Hset; [exact Hin_rest | exact Eidx |].
        intros i' Hi' E'. apply Huniq; [right; exact Hi' | exact E'].
      * destruct Hi as [<- | Hi]; [| contradiction].
        rewrite Hkeep.
        -- rewrite Hrow1, Eidx, Z.eqb_refl. reflexivity.
        -- intros i' Hi' E'. apply Hnot.
           rewrite <- (Huniq i' (or_intror Hi') E'). exact Hi'.
Qed.

Lemma fold_loop_covers pp qq fM W (src dst : list (list float)) :
  0 < qq -> Z.gcd pp qq = 1 -> 1 <= fM -> 0 <= W ->
  matrix fM (qq * W) src -> matrix (qq * fM) (qq * W) dst ->
  exists R,
    foldM (fun acc i => fold_curve pp qq fM W src acc i) (range qq) dst = Ok R /\
    matrix (qq * fM) (qq * W) R /\
    forall i k, 0 <= i < qq -> 0 <= k < fM ->
      nth (Z.to_nat (fold_idx pp qq i * fM + k)) R [] =
      rotate_left (i * W) (nth (Z.to_nat k) src []).
Proof.
  intros Hq Hg HfM HW Hsrc Hdst.
  destruct (fold_loop_rows pp qq fM W src ltac:(lia) HfM HW Hsrc (range qq) dst
              (range_bounds qq) Hdst) as (R & ER & HR & Hrows).
  exists R. split; [exact ER |]. split; [exact HR |].
  intros i k Hi Hk.
  pose proof (FoldFacts.fold_idx_bounds pp qq i Hq) as Hb.
  destruct (block_position fM (fold_idx pp qq i) k HfM Hk ltac:(lia)) as [Ed Em].
  destruct (Hrows (fold_idx pp qq i * fM + k) ltac:(nia)) as [_ Hset].
  rewrite Em, Ed in Hset.
  apply Hset; [apply FoldFacts.in_range; exact Hi | reflexivity |].
  intros i' Hi' E'. apply FoldFacts.in_range in Hi'.
  apply (FoldFacts.fold_idx_injective pp qq Hq Hg); assumption.
Qed.

(** X13. For coprime [pp] and [qq] the fold loop of [action] fills the
    [(alpha, zeta)] arrays completely, whatever they held before: for
    every iteration [i] and curve [k], row [((pp * i) mod qq) * fM + k]
    of [r2D_alpha] is row [k] of [r] rotated to the left by
    [i * pqNtor * MM] columns, and likewise for [t2D_alpha] and [t]. *)
Theorem fold_all_rows pp qq fM W r t ra0 ta0 :
  0 < qq -> Z.gcd pp qq = 1 -> 1 <= fM -> 0 <= W ->
  matrix fM (qq * W) r -> matrix fM (qq * W) t ->
  matrix (qq * fM) (qq * W) ra0 -> matrix (qq * fM) (qq * W) ta0 ->
  exists ra ta,
    fold_all pp qq fM W r t (ra0, ta0) = Ok (ra, ta) /\
    matrix (qq * fM) (qq * W) ra /\ matrix (qq * fM) (qq * W) ta /\
    forall i k, 0 <= i < qq -> 0 <= k < fM ->
      nth (Z.to_nat (fold_idx pp qq i * fM + k)) ra [] =
        rotate_left (i * W) (nth (Z.to_nat k) r []) /\
      nth (Z.to_nat (fold_idx pp qq i * fM + k)) ta [] =
        rotate_left (i * W) (nth (Z.to_nat k) t []).
Proof.
  intros Hq Hg HfM HW Hr Ht Hra Hta.
  destruct (fold_loop_covers pp qq fM W r ra0 Hq Hg HfM HW Hr Hra)
    as (ra & Era & Mra & Rra).
  destruct (fold_loop_covers pp qq fM W t ta0 Hq Hg HfM HW Ht Hta)
    as (ta & Eta & Mta & Rta).
  exists ra, ta. split; [apply foldM_pair; assumption |].
  split; [exact Mra |]. split; [exact Mta |].
  intros i k Hi Hk. split; [apply Rra | apply Rta]; assumption.
Qed.

Lemma fold_all_rows_witness :
  exists ra ta,
    fold_all 1 2 1 2 [[1; 2; 3; 4]]%float [[5; 6; 7; 8]]%float
      ([[0; 0; 0; 0]; [0; 0; 0; 0]]%float, [[0; 0; 0; 0]; [0; 0; 0; 0]]%float)
    = Ok (ra, ta) /\
    nth 1 ra [] = [3; 4; 1; 2]%float /\ nth 1 ta [] = [7; 8; 5; 6]%float.
Proof.
  assert (M1 : forall a b c d : float, matrix 1 (2 * 2) [[a; b; c; d]])
    by (intros; split; [reflexivity | repeat constructor]).
  assert (M2 : matrix (2 * 1) (2 * 2) [[0; 0; 0; 0]; [0; 0; 0; 0]]%float)
    by (split; [reflexivity | repeat constructor]).
  destruct (fold_all_rows 1 2 1 2 [[1; 2; 3; 4]]%float [[5; 6; 7; 8]]%float
              _ _ ltac:(lia) eq_refl ltac:(lia) ltac:(lia) (M1 _ _ _ _) (M1 _ _ _ _)
              M2 M2) as (ra & ta & E & _ & _ & H).
  exists ra, ta. split; [exact E |].
  destruct (H 1 0 ltac:(lia) ltac:(lia)) as [H1 H2]. split; assumption.
Defined.

(** *** Resampling to the straight-field-line angle *)

(** The entry [m[k, j]] of an array, by position. *)
Definition entry (m : list (list float)) (k j : Z) : float :=
  nth (Z.to_nat j) (nth (Z.to_nat k) m []) 0%float.

Lemma getitem_nth {A} (l : list A) i d :
  0 <= i < len l -> getitem l i = Ok (nth (Z.to_nat i) l d).
Proof.
  intros H. destruct (getitem_inside l i H) as (x & -> & E).
  rewrite (nth_error_nth _ _ d E). reflexivity.
Qed.

Lemma nth_row_len {A} r c (m : list (list A)) k :
  matrix r c m -> 0 <= k < r -> len (nth (Z.to_nat k) m []) = c.
Proof.
  intros [L F] Hk. rewrite Forall_forall in F. apply F. apply nth_In.
  unfold len in L. lia.
Qed.

Lemma take_rows_at_exact r c src idx i :
  matrix r c src -> Forall (fun k => 0 <= k < r) idx -> 0 <= i < c ->
  Np.take_rows_at src idx i = Ok (map (fun k => entry src k i) idx).
Proof.
  intros Hm Hidx Hi. unfold Np.take_rows_at. apply sequence_map_exact.
  intros k Hk. rewrite Forall_forall in Hidx. specialize (Hidx k Hk).
  rewrite (getitem_nth src k []) by (rewrite (matrix_len _ _ _ Hm); lia).
  cbn [bind].
  rewrite (getitem_nth _ i 0%float) by (rewrite (nth_row_len r c) by assumption; lia).
  reflexivity.
Qed.

Lemma setcol_exact {A} r c (dst : list (list A)) i v :
  matrix r c dst -> len v = r -> 0 <= i < c ->
  Np.setcol dst i v =
  Ok (Np.zip_with (fun row x => update row (Z.to_nat i) x) dst v).
Proof.
  intros [L F] Hv Hi. unfold Np.setcol. rewrite Hv, L, Z.eqb_refl. cbn [bind].
  apply sequence_zip_exact. intros row x Hrow _. rewrite Forall_forall in F.
  apply setitem_inside. rewrite (F row Hrow). exact Hi.
Qed.

Lemma arange_bounds r : Forall (fun k => 0 <= k < r) (Np.arange 0 r).
Proof.
  unfold Np.arange. apply Forall_map.
  eapply Forall_impl; [| apply (range_bounds (r - 0))]. cbv beta. lia.
Qed.

Lemma resample_exact pp r c c' src dst i :
  matrix r c src -> matrix r c' dst -> 0 <= i < c -> i < c' ->
  resample pp r src dst i =
  Ok (Np.zip_with (fun row x => update row (Z.to_nat i) x) dst
        (map (fun k => entry src ((k - i * pp) mod r) i) (Np.arange 0 r))).
Proof.
  intros Hsrc Hdst Hi Hi'. unfold resample.
  rewrite (take_rows_at_exact r c); [| exact Hsrc | | exact Hi].
  - cbn [bind]. rewrite map_map.
    apply (setcol_exact r c'); [exact Hdst | | lia].
    rewrite len_map, len_arange; [lia |].
    destruct Hsrc as [L _]. pose proof (len_nonneg src). lia.
  - apply Forall_map. eapply Forall_impl; [| apply arange_bounds]. cbv beta.
    intros k Hk. apply Z.mod_pos_bound. lia.
Qed.

Lemma nth_zip_with {A B C} (f : A -> B -> C) a b k da db dc :
  (k < length a)%nat -> (k < length b)%nat ->
  nth k (Np.zip_with f a b) dc = f (nth k a da) (nth k b db).
Proof.
  revert b k. induction a as [| x a IH]; intros [| y b] [| k] Ha Hb;
    simpl in *; try lia; [reflexivity |].
  apply IH; lia.
Qed.

Lemma nth_update_same {A} (l : list A) i x d :
  (i < length l)%nat -> nth i (update l i x) d = x.
Proof.
  revert i. induction l as [| h t IH]; intros [| i] H; simpl in *; try lia;
    [reflexivity |]. apply IH. lia.
Qed.

Lemma nth_update_other {A} (l : list A) i j x d :
  j <> i -> nth j (update l i x) d = nth j l d.
Proof.
  revert i j. induction l as [| h t IH]; intros [| i] [| j] H; simpl;
    try reflexivity; try lia. apply IH. lia.
Qed.

Lemma nth_arange r k d :
  0 <= k < r -> nth (Z.to_nat k) (Np.arange 0 r) d = k.
Proof.
  intros Hk. unfold Np.arange, range. rewrite map_map.
  rewrite (nth_map_in _ _ _ 0%nat) by (rewrite length_seq; lia).
  rewrite seq_nth by lia. lia.
Qed.

(** The rows of one resampled column, entry by entry. *)
Lemma resample_entries pp r c c' src dst i :
  matrix r c src -> matrix r c' dst -> 0 <= i < c -> i < c' ->
  exists dst',
    resample pp r src dst i = Ok dst' /\ matrix r c' dst' /\
    (forall k, 0 <= k < r ->
       entry dst' k i = entry src ((k - i * pp) mod r) i) /\
    (forall k j, 0 <= k < r -> 0 <= j -> j <> i ->
       entry dst' k j = entry dst k j).
Proof.
  intros Hsrc Hdst Hi Hi'.
  rewrite (resample_exact pp r c c') by assumption.
  eexists. split; [reflexivity |].
  pose proof Hdst as [Ld Fd]. pose proof Hsrc as [Ls _].
  assert (Lv : length (map (fun k => entry src ((k - i * pp) mod r) i)
                         (Np.arange 0 r)) = Z.to_nat r).
  { rewrite length_map. pose proof (len_arange 0 r) as E. unfold len in *.
    pose proof (len_nonneg src). lia. }
  assert (Hrow : forall k, 0 <= k < r ->
            nth (Z.to_nat k)
                (Np.zip_with (fun row x => update row (Z.to_nat i) x) dst
                   (map (fun k => entry src ((k - i * pp) mod r) i) (Np.arange 0 r)))
                [] =
            update (nth (Z.to_nat k) dst []) (Z.to_nat i)
                   (entry src ((k - i * pp) mod r) i)).
  { intros k Hk.
    rewrite (nth_zip_with _ _ _ _ [] 0%float) by (unfold len in Ld; lia).
    f_equal. rewrite (nth_map_in _ _ _ 0) by (rewrite length_map in Lv; lia).
    rewrite nth_arange by exact Hk. reflexivity. }
  split; [| split].
  - split; [rewrite len_zip_with; unfold len in *; lia |].
    destruct (sequence_zip_inv
                (fun (row : list float) x => Ok (update row (Z.to_nat i) x))
                (fun row => len row = c') dst
                (map (fun k => entry src ((k - i * pp) mod r) i) (Np.arange 0 r))
                _ (sequence_zip_exact _ _ _ _ (fun _ _ _ _ => eq_refl)))
      as [_ F]; [| exact F].
    intros row x z Hrow0 E. injection E as <-. rewrite len_update.
    rewrite Forall_forall in Fd. apply Fd. exact Hrow0.
  - intros k Hk. unfold entry at 1. rewrite Hrow by exact Hk.
    apply nth_update_same.
    pose proof (nth_row_len r c' dst k Hdst Hk) as L. unfold len in L. lia.
  - intros k j Hk Hj Hne. unfold entry. rewrite Hrow by exact Hk.
    apply nth_update_other. lia.
Qed.

(** The shift of the rows is a rotation: one-to-one and onto. *)
Lemma row_shift_bijective r s :
  0 < r -> FoldFacts.bijective_on r (fun k => (k - s) mod r).
Proof.
  intros Hr. split; [| split].
  - intros k _. apply Z.mod_pos_bound. exact Hr.
  - intros k1 k2 H1 H2 E.
    assert (D : (r | (k1 - s) - (k2 - s))).
    { apply Z.mod_divide; [lia |].
      rewrite Zminus_mod, E, Z.sub_diag. apply Z.mod_0_l. lia. }
    destruct D as [q Dq]. assert (q = 0) by nia. lia.
  - intros k Hk. exists ((k + s) mod r).
    split; [apply Z.mod_pos_bound; exact Hr |].
    rewrite Zminus_mod_idemp_l. replace (k + s - s) with k by lia.
    apply Z.mod_small. exact Hk.
Qed.

(** X14. One iteration [i] of the resampling writes column [i] of the
    [(vartheta, zeta)] array and no other entry: row [k] of the column
    receives the entry of row [(k - i * pp) mod qfM] of column [i] of the
    [(alpha, zeta)] array, and this shift of the rows is one-to-one and
    onto, so the column is a rotation of the source column. *)
Theorem resample_column pp qfM c c' src dst i :
  1 <= qfM -> matrix qfM c src -> matrix qfM c' dst -> 0 <= i < c -> i < c' ->
  (exists dst',
     resample pp qfM src dst i = Ok dst' /\ matrix qfM c' dst' /\
     (forall k, 0 <= k < qfM ->
        entry dst' k i = entry src ((k - i * pp) mod qfM) i) /\
     (forall k j, 0 <= k < qfM -> 0 <= j -> j <> i ->
        entry dst' k j = entry dst k j)) /\
  FoldFacts.bijective_on qfM (fun k => (k - i * pp) mod qfM).
Proof.
  intros Hr Hsrc Hdst Hi Hi'. split.
  - apply (resample_entries pp qfM c c'); assumption.
  - apply row_shift_bijective. lia.
Qed.

Lemma resample_column_witness :
  exists dst',
    resample 1 3 [[1; 2]; [3; 4]; [5; 6]]%float [[0; 0]; [0; 0]; [0; 0]]%float 1
    = Ok dst' /\
    entry dst' 0 1 = 6%float /\ entry dst' 1 1 = 2%float /\
    entry dst' 2 1 = 4%float /\ entry dst' 0 0 = 0%float.
Proof.
  assert (M : forall a b c d e f : float, matrix 3 2 [[a; b]; [c; d]; [e; f]])
    by (intros; split; [reflexivity | repeat constructor]).
  destruct (resample_column 1 3 2 2 [[1; 2]; [3; 4]; [5; 6]]%float
              [[0; 0]; [0; 0]; [0; 0]]%float 1 ltac:(lia) (M _ _ _ _ _ _)
              (M _ _ _ _ _ _) ltac:(lia) ltac:(lia))
    as [(dst' & E & _ & Hcol & Hrest) _].
  exists dst'. split; [exact E |].
  rewrite (Hcol 0), (Hcol 1), (Hcol 2), (Hrest 0 0) by lia.
  repeat split; reflexivity.
Defined.

End SurfaceFacts.

(** ** The surface that [action] returns *)

Module ActionResult.

Import Spectral QFM ListFacts NpFacts SpectralFacts MatrixFacts BoundaryFacts
  StraightenFacts SpectralEdges ActionRun SurfaceFacts.

(** *** The whole resampling *)

(** The resampling of one array over a list of columns, entry by
    entry: a column that was resampled holds the shifted source column,
    every other column is kept. *)
Lemma resample_loop_entries pp r c c' (src : list (list float)) :
  matrix r c src -> c' <= c ->
  forall its dst,
    Forall (fun i => 0 <= i < c') its -> matrix r c' dst ->
    exists R,
      foldM (fun acc i => resample pp r src acc i) its dst = Ok R /\
      matrix r c' R /\
      forall k j, 0 <= k < r -> 0 <= j ->
        (In j its -> entry R k j = entry src ((k - j * pp) mod r) j) /\
        (~ In j its -> entry R k j = entry dst k j).
Proof.
  intros Hsrc Hc. induction its as [| i0 rest IH]; intros dst Hits Hdst.
  - exists dst. split; [reflexivity |]. split; [exact Hdst |].
    intros k j Hk Hj. split; [intros [] | reflexivity].
  - apply Forall_cons_iff in Hits as [Hi0 Hrest]. cbn [foldM].
    destruct (resample_entries pp r c c' src dst i0 Hsrc Hdst ltac:(lia) ltac:(lia))
      as (dst1 & -> & Hdst1 & Hcol & Hkeep).
    cbn [bind].
    destruct (IH dst1 Hrest Hdst1) as (R & ER & HR & Hent).
    exists R. split; [exact ER |]. split; [exact HR |].
    intros k j Hk Hj. destruct (Hent k j Hk Hj) as [Hin Hout]. split.
    + intros Hjin. destruct (in_dec Z.eq_dec j rest) as [Hr | Hn];
        [apply Hin; exact Hr |].
      destruct Hjin as [<- | Hjin]; [| contradiction].
      rewrite Hout by exact Hn. apply Hcol. exact Hk.
    + intros Hnot. rewrite Hout by (intros H; apply Hnot; right; exact H).
      apply Hkeep; [exact Hk | exact Hj |].
      intros ->. apply Hnot. left. reflexivity.
Qed.

Lemma resample_loop_all pp r c c' (src dst : list (list float)) :
  matrix r c src -> c' <= c -> matrix r c' dst ->
  exists R,
    foldM (fun acc i => resample pp r src acc i) (range c') dst = Ok R /\
    matrix r c' R /\
    forall k i, 0 <= k < r -> 0 <= i < c' ->
      entry R k i = entry src ((k - i * pp) mod r) i.
Proof.
  intros Hsrc Hc Hdst.
  destruct (resample_loop_entries pp r c c' src Hsrc Hc (range c') dst
              (range_bounds c') Hdst) as (R & ER & HR & Hent).
  exists R. split; [exact ER |]. split; [exact HR |].
  intros k i Hk Hi. apply (Hent k i Hk ltac:(lia)).
  apply FoldFacts.in_range. exact Hi.
Qed.

(** X15. The resampling loop of [action] fills the [(vartheta, zeta)]
    arrays completely, whatever they held before: entry [(k, i)] of
    [r2D_vartheta] is entry [((k - i * pp) mod qfM, i)] of [r2D_alpha],
    for every row [k] and every column [i] of the [MM * pqNtor]
    columns, and likewise for [t2D_vartheta]; only these first
    columns of the [(alpha, zeta)] arrays are read. *)
Theorem resample_all_entries pp qfM ncol c ra ta rv0 tv0 :
  matrix qfM c ra -> matrix qfM c ta -> ncol <= c ->
  matrix qfM ncol rv0 -> matrix qfM ncol tv0 ->
  exists rv tv,
    resample_all pp qfM ncol ra ta (rv0, tv0) = Ok (rv, tv) /\
    matrix qfM ncol rv /\ matrix qfM ncol tv /\
    forall k i, 0 <= k < qfM -> 0 <= i < ncol ->
      entry rv k i = entry ra ((k - i * pp) mod qfM) i /\
      entry tv k i = entry ta ((k - i * pp) mod qfM) i.
Proof.
  intros Hra Hta Hc Hrv Htv.
  destruct (resample_loop_all pp qfM c ncol ra rv0 Hra Hc Hrv) as (rv & Erv & Mrv & Rrv).
  destruct (resample_loop_all pp qfM c ncol ta tv0 Hta Hc Htv) as (tv & Etv & Mtv & Rtv).
  exists rv, tv. split; [apply foldM_pair; assumption |].
  split; [exact Mrv |]. split; [exact Mtv |].
  intros k i Hk Hi. split; [apply Rrv | apply Rtv]; assumption.
Qed.

Lemma resample_all_entries_witness :
  exists rv tv,
    resample_all 1 2 1 [[1; 2]; [3; 4]]%float [[5; 6]; [7; 8]]%float
      ([[0]; [0]]%float, [[0]; [0]]%float) = Ok (rv, tv) /\
    entry rv 0 0 = 1%float /\ entry rv 1 0 = 3%float /\
    entry tv 0 0 = 5%float /\ entry tv 1 0 = 7%float.
Proof.
  assert (M2 : forall a b c d : float, matrix 2 2 [[a; b]; [c; d]])
    by (intros; split; [reflexivity | repeat constructor]).
  assert (M1 : matrix 2 1 [[0]; [0]]%float)
    by (split; [reflexivity | repeat constructor]).
  destruct (resample_all_entries 1 2 1 2 [[1; 2]; [3; 4]]%float
              [[5; 6]; [7; 8]]%float _ _ (M2 _ _ _ _) (M2 _ _ _ _) ltac:(lia) M1 M1)
    as (rv & tv & E & _ & _ & H).
  exists rv, tv. split; [exact E |].
  destruct (H 0 0 ltac:(lia) ltac:(lia)) as [H1 H2].
  destruct (H 1 0 ltac:(lia) ltac:(lia)) as [H3 H4].
  rewrite H1, H2, H3, H4. repeat split; reflexivity.
Defined.

(** *** From the curves to the sampled surface *)

(** [surface] is the two batched transforms, [wrap] and the two
    two-angle transforms. *)
Lemma surface_unfold fft self pp qq st :
  surface fft self pp qq st =
  (r <- irfft1D_batched fft (rcnarr st) (rsnarr st) (_MM self / 2) ;;
   z <- Np.linspace 0 (float_of_Z (2 * qq) * Np.pi) (Np.ncols r) ;;
   tcnarr <- Np.mapcol (fun _ => 0%float) (tcnarr st) 0 ;;
   t <- irfft1D_batched fft tcnarr (tsnarr st) (_MM self / 2) ;;
   '(rv, tv) <- wrap pp qq (_MM self) (_pqNtor self) r t ;;
   '(scn_surf, ssn_surf) <- rfft2D fft rv (Some (_pqMpol self)) (Some (_pqNtor self)) ;;
   '(tcn_surf, tsn_surf) <- rfft2D fft tv (Some (_pqMpol self)) (Some (_pqNtor self)) ;;
   Ok (scn_surf, tsn_surf, ssn_surf, tcn_surf)).
Proof.
  unfold surface, wrap, fold_all, resample_all.
  destruct (irfft1D_batched fft (rcnarr st) (rsnarr st) (_MM self / 2)); [| reflexivity].
  cbn [bind].
  destruct (Np.linspace _ _ _); [| reflexivity]. cbn [bind].
  destruct (Np.mapcol _ _ _); [| reflexivity]. cbn [bind].
  destruct (irfft1D_batched _ _ _ _); [| reflexivity]. cbn [bind].
  destruct (Np.zeros2 _ _); [| reflexivity]. cbn [bind].
  destruct (foldM _ (range qq) _) as [[ra ta] |]; [| reflexivity]. cbn [bind].
  destruct (Np.zeros2 _ _); [| reflexivity]. cbn [bind].
  destruct (foldM _ _ _) as [[rv tv] |]; reflexivity.
Qed.

(** An entry of a rotated row. *)
Lemma nth_rotate_left {A} k (row : list A) i d :
  0 <= k -> 0 <= i -> k + i < len row ->
  nth (Z.to_nat i) (rotate_left k row) d = nth (Z.to_nat (k + i)) row d.
Proof.
  intros Hk Hi Hlt. unfold rotate_left.
  rewrite slice_open by lia.
  rewrite app_nth1 by (rewrite length_skipn; unfold len in Hlt; lia).
  rewrite nth_skipn. f_equal. lia.
Qed.

(** The block and the offset of a row of the folded array. *)
Lemma row_in_block qq fM p :
  1 <= fM -> 0 <= p < qq * fM ->
  0 <= p / fM < qq /\ 0 <= p mod fM < fM /\ p = (p / fM) * fM + p mod fM.
Proof.
  intros HfM Hp. pose proof (Z.div_mod p fM ltac:(lia)).
  pose proof (Z.mod_pos_bound p fM ltac:(lia)).
  assert (0 <= p / fM) by (apply Z.div_pos; lia).
  assert (p / fM < qq) by (apply Z.div_lt_upper_bound; nia).
  lia.
Qed.

(** X16. For coprime [pp] and [qq], every sample of the arrays that
    [action] hands to its final transforms is a sample of one of the
    curves: entry [(k, i)] of [r2D_vartheta] is entry
    [(m, j * pqNtor * MM + i)] of [r], where the row
    [(k - i * pp) mod qfM] of the [(alpha, zeta)] array lies at offset
    [m] in the block [(pp * j) mod qq] that fold iteration [j] wrote;
    likewise for [t2D_vartheta] and [t].  No entry keeps the zero the
    arrays were created with. *)
Theorem wrap_samples pp qq MM pqNtor (r t : list (list float)) :
  0 < qq -> Z.gcd pp qq = 1 -> 1 <= MM -> 1 <= pqNtor ->
  matrix (MM * pqNtor) (MM * qq * pqNtor) r ->
  matrix (MM * pqNtor) (MM * qq * pqNtor) t ->
  exists rv tv,
    wrap pp qq MM pqNtor r t = Ok (rv, tv) /\
    matrix (qq * MM * pqNtor) (MM * pqNtor) rv /\
    matrix (qq * MM * pqNtor) (MM * pqNtor) tv /\
    forall k i, 0 <= k < qq * MM * pqNtor -> 0 <= i < MM * pqNtor ->
      exists j m,
        0 <= j < qq /\ 0 <= m < MM * pqNtor /\
        (k - i * pp) mod (qq * MM * pqNtor)
          = fold_idx pp qq j * (MM * pqNtor) + m /\
        entry rv k i = entry r m (j * (pqNtor * MM) + i) /\
        entry tv k i = entry t m (j * (pqNtor * MM) + i).
Proof.
  intros Hq Hg HM HN Hr Ht. unfold wrap.
  set (fM := MM * pqNtor) in *. set (W := pqNtor * MM).
  assert (HfM : 1 <= fM) by (unfold fM; nia).
  assert (EW : W = fM) by (unfold W, fM; lia).
  assert (Eq1 : qq * MM * pqNtor = qq * fM) by (unfold fM; lia).
  assert (Eq2 : MM * qq * pqNtor = qq * W) by (unfold W; lia).
  rewrite Eq1, Eq2 in *.
  destruct (zeros2_ok (qq * fM) (qq * W) ltac:(nia) ltac:(nia)) as (z1 & -> & Hz1).
  cbn [bind].
  destruct (fold_loop_covers pp qq fM W r z1 Hq Hg HfM ltac:(lia) Hr Hz1)
    as (ra & Era & Mra & Rra).
  destruct (fold_loop_covers pp qq fM W t z1 Hq Hg HfM ltac:(lia) Ht Hz1)
    as (ta & Eta & Mta & Rta).
  unfold fold_all. rewrite (foldM_pair _ _ _ _ _ _ _ Era Eta). cbn [bind].
  destruct (zeros2_ok (qq * fM) fM ltac:(nia) ltac:(lia)) as (z2 & -> & Hz2).
  cbn [bind].
  destruct (resample_loop_all pp (qq * fM) (qq * W) fM ra z2 Mra ltac:(nia) Hz2)
    as (rv & Erv & Mrv & Rrv).
  destruct (resample_loop_all pp (qq * fM) (qq * W) fM ta z2 Mta ltac:(nia) Hz2)
    as (tv & Etv & Mtv & Rtv).
  unfold resample_all. rewrite (foldM_pair _ _ _ _ _ _ _ Erv Etv).
  exists rv, tv. split; [reflexivity |]. split; [exact Mrv |]. split; [exact Mtv |].
  intros k i Hk Hi.
  set (p := (k - i * pp) mod (qq * fM)).
  assert (Hp : 0 <= p < qq * fM) by (apply Z.mod_pos_bound; nia).
  destruct (row_in_block qq fM p HfM Hp) as (Hb & Hm & Ep).
  destruct (FoldFacts.fold_idx_surjective pp qq Hq Hg (p / fM) Hb) as (j & Hj & Ej).
  exists j, (p mod fM). split; [exact Hj |]. split; [exact Hm |].
  split; [rewrite Ej; exact Ep |].
  rewrite Rrv, Rtv by assumption. fold p. unfold entry.
  rewrite Ep at 1 3. rewrite <- Ej.
  rewrite Rra, Rta by assumption.
  pose proof (nth_row_len fM (qq * W) r (p mod fM) Hr Hm) as Lr.
  pose proof (nth_row_len fM (qq * W) t (p mod fM) Ht Hm) as Lt.
  rewrite !nth_rotate_left by nia. split; reflexivity.
Qed.

Lemma wrap_samples_witness :
  exists rv tv,
    wrap 1 2 1 1 [[1; 2]]%float [[3; 4]]%float = Ok (rv, tv) /\
    matrix (2 * 1 * 1) (1 * 1) rv /\ matrix (2 * 1 * 1) (1 * 1) tv.
Proof.
  assert (M : forall a b : float, matrix (1 * 1) (1 * 2 * 1) [[a; b]])
    by (intros; split; [reflexivity | repeat constructor]).
  destruct (wrap_samples 1 2 1 1 [[1; 2]]%float [[3; 4]]%float
              ltac:(lia) eq_refl ltac:(lia) ltac:(lia) (M _ _) (M _ _))
    as (rv & tv & E & Hrv & Htv & _).
  exists rv, tv. auto.
Defined.

End ActionResult.

(** ** Complete runs of [action] *)

Module ActionOutcome.

Import Spectral QFM ListFacts NpFacts SpectralFacts MatrixFacts BoundaryFacts
  StraightenFacts SpectralEdges ActionRun SurfaceFacts ActionResult.

Lemma mapcol_ok {A} (f : A -> A) r c (m : list (list A)) j :
  matrix r c m -> 0 <= j < c ->
  exists m', Np.mapcol f m j = Ok m' /\ matrix r c m'.
Proof.
  intros [L F] Hj. unfold Np.mapcol.
  destruct (sequence_map_ok (fun row => x <- getitem row j ;; setitem row j (f x))
              (fun row => len row = c) (fun row => len row = c) m F)
    as (m' & E & L' & F').
  - intros row Hrow.
    destruct (getitem_inside row j ltac:(lia)) as (x & -> & _). cbn [bind].
    rewrite setitem_inside by lia. eexists. split; [reflexivity |].
    rewrite len_update. exact Hrow.
  - exists m'. split; [exact E |]. split; [lia | exact F'].
Qed.

Lemma getitem_last {A} (l : list A) :
  1 <= len l -> exists x, getitem l (-1) = Ok x.
Proof.
  intros H. unfold getitem. rewrite index_from_end by lia. cbn [bind].
  destruct (nth_error l (Z.to_nat (-1 + len l))) as [x |] eqn:E; [eauto |].
  apply nth_error_None in E. unfold len in *. lia.
Qed.

(** The batched inverse transform of [r] rows of [n + 1] coefficients. *)
Lemma irfft1D_batched_ok fft c s m r n :
  fft_shapes fft -> matrix r (n + 1) c -> matrix r (n + 1) s ->
  1 <= r -> 1 <= n -> 1 <= m ->
  exists f, irfft1D_batched fft c s m = Ok f /\ matrix r (2 * (m * n)) f.
Proof.
  intros Hs Hc Hsn Hr Hn Hm. unfold irfft1D_batched.
  pose proof Hsn as [Ls Fs].
  destruct (getitem_row r (n + 1) s 0 Hsn ltac:(lia)) as (r0 & -> & _). cbn [bind].
  rewrite setitem_inside by lia. cbn [bind].
  destruct (getitem_last (update s (Z.to_nat 0) (map (fun _ => 0%float) r0)))
    as (r1 & -> ); [rewrite len_update; lia |].
  cbn [bind].
  unfold setitem at 1. rewrite index_from_end by (rewrite len_update; lia).
  cbn [bind].
  destruct (ew2_2d_same (spectrum_entry (m * (Np.ncols c - 1))) c s r (n + 1) Hc Hsn)
    as (spec & -> & Hspec).
  cbn [bind].
  destruct (mapcol_ok (fun z => cmul z (of_real 2)) r (n + 1) spec 0 Hspec ltac:(lia))
    as (spec' & -> & [L' F']).
  cbn [bind].
  rewrite (matrix_ncols _ _ _ Hc) by lia. replace (n + 1 - 1) with n by lia.
  destruct (sequence_map_ok (fun row => np_fft_irfft fft row (2 * (m * n)))
              (fun row => len row = n + 1) (fun row => len row = 2 * (m * n))
              spec' F') as (f & E & Lf & Ff).
  - intros row _. unfold np_fft_irfft.
    rewrite guard_true by (apply Z.leb_le; nia). cbn [bind].
    eexists. split; [reflexivity |]. apply (irfft_len fft Hs). nia.
  - exists f. split; [exact E |]. split; [lia | exact Ff].
Qed.

(** The configuration of a run: [MM = 2 * nfft_multiplier] with a
    positive multiplier, and positive [pqNtor] and [qq]. *)
Definition runnable (self : QFM) (qq : Z) : Prop :=
  1 <= qq /\ 1 <= _pqNtor self /\ exists k, 1 <= k /\ _MM self = k * 2.

Lemma runnable_sizes self qq :
  runnable self qq ->
  2 <= qq * _MM self * _pqNtor self /\ 1 <= _MM self * _pqNtor self /\
  0 <= _pqNtor self < _MM self * _pqNtor self.
Proof.
  intros (Hq & HN & k & Hk & EM).
  assert (H2 : 2 <= _MM self) by lia.
  assert (HfM : 2 <= _MM self * _pqNtor self) by nia.
  replace (qq * _MM self * _pqNtor self) with (qq * (_MM self * _pqNtor self)) by lia.
  split; [nia |]. split; [lia | nia].
Qed.

(** [surface] up to its final transforms. *)
Lemma surface_arrays fft self pp qq st :
  fft_shapes fft -> runnable self qq ->
  arrays_shape (_MM self * _pqNtor self) (qq * _pqNtor self) st ->
  exists rv tv,
    matrix (qq * _MM self * _pqNtor self) (_MM self * _pqNtor self) rv /\
    matrix (qq * _MM self * _pqNtor self) (_MM self * _pqNtor self) tv /\
    surface fft self pp qq st =
    ('(scn_surf, ssn_surf) <-
       rfft2D fft rv (Some (_pqMpol self)) (Some (_pqNtor self)) ;;
     '(tcn_surf, tsn_surf) <-
       rfft2D fft tv (Some (_pqMpol self)) (Some (_pqNtor self)) ;;
     Ok (scn_surf, tsn_surf, ssn_surf, tcn_surf)).
Proof.
  intros Hs (Hq & HN & k & Hk & EM) (Hrc & Htc & Hrs & Hts & _).
  unfold surface.
  set (MM := _MM self) in *. set (pqNtor := _pqNtor self) in *.
  set (fM := MM * pqNtor) in *. set (qN := qq * pqNtor) in *.
  assert (Ek : MM / 2 = k) by (rewrite EM; apply Z.div_mul; lia).
  assert (HfM : 1 <= fM) by (unfold fM; nia).
  assert (HqN : 1 <= qN) by (unfold qN; nia).
  set (W := pqNtor * MM).
  assert (EN : 2 * (k * qN) = qq * W) by (unfold qN, W; nia).
  assert (E1 : qq * MM * pqNtor = qq * fM) by (unfold fM; lia).
  assert (E2 : MM * qq * pqNtor = qq * W) by (unfold W; lia).
  rewrite Ek, E1, E2.
  destruct (irfft1D_batched_ok fft _ _ k fM qN Hs Hrc Hrs HfM HqN Hk)
    as (r & -> & Hr).
  cbn [bind]. rewrite EN in Hr.
  destruct (linspace_ok 0 (float_of_Z (2 * qq) * Np.pi) (Np.ncols r))
    as (z & -> & _).
  { rewrite (matrix_ncols _ _ _ Hr) by lia. nia. }
  cbn [bind].
  destruct (mapcol_ok (fun _ => 0%float) fM (qN + 1) (tcnarr st) 0 Htc ltac:(lia))
    as (tc & -> & Htc').
  cbn [bind].
  destruct (irfft1D_batched_ok fft _ _ k fM qN Hs Htc' Hts HfM HqN Hk)
    as (t & -> & Ht).
  cbn [bind]. rewrite EN in Ht.
  destruct (zeros2_ok (qq * fM) (qq * W) ltac:(nia) ltac:(nia)) as (z1 & -> & Hz1).
  cbn [bind].
  destruct (fold_loop_rows pp qq fM W r Hq HfM ltac:(unfold W; nia) Hr (range qq) z1
              (range_bounds qq) Hz1) as (ra & Era & Mra & _).
  destruct (fold_loop_rows pp qq fM W t Hq HfM ltac:(unfold W; nia) Ht (range qq) z1
              (range_bounds qq) Hz1) as (ta & Eta & Mta & _).
  rewrite (foldM_pair _ _ _ _ _ _ _ Era Eta). cbn [bind].
  destruct (zeros2_ok (qq * fM) fM ltac:(nia) ltac:(lia)) as (z2 & -> & Hz2).
  cbn [bind].
  assert (HW : fM <= qq * W) by (unfold W, fM; nia).
  destruct (resample_loop_all pp (qq * fM) (qq * W) fM ra z2 Mra HW Hz2)
    as (rv & Erv & Mrv & _).
  destruct (resample_loop_all pp (qq * fM) (qq * W) fM ta z2 Mta HW Hz2)
    as (tv & Etv & Mtv & _).
  rewrite (foldM_pair _ _ _ _ _ _ _ Erv Etv). cbn [bind].
  exists rv, tv. split; [exact Mrv |]. split; [exact Mtv |]. reflexivity.
Qed.

(** The four spectra of a surface. *)
Definition spectra_shape (self : QFM)
    (out : list (list float) * list (list float)
           * list (list float) * list (list float)) : Prop :=
  let '(scn, tsn, ssn, tcn) := out in
  matrix (_pqMpol self + 1) (2 * _pqNtor self + 1) scn /\
  matrix (_pqMpol self + 1) (2 * _pqNtor self + 1) tsn /\
  matrix (_pqMpol self + 1) (2 * _pqNtor self + 1) ssn /\
  matrix (_pqMpol self + 1) (2 * _pqNtor self + 1) tcn.

Lemma surface_ok fft self pp qq st :
  fft_shapes fft -> runnable self qq ->
  arrays_shape (_MM self * _pqNtor self) (qq * _pqNtor self) st ->
  0 <= _pqMpol self <= qq * _MM self * _pqNtor self / 2 ->
  exists out, surface fft self pp qq st = Ok out /\ spectra_shape self out.
Proof.
  intros Hs Hrun Hst HM.
  destruct (surface_arrays fft self pp qq st Hs Hrun Hst) as (rv & tv & Mrv & Mtv & ->).
  destruct (runnable_sizes self qq Hrun) as (Hrows & Hcols & HNc).
  destruct (rfft2D_returns fft rv _ _ (Some (_pqMpol self)) (Some (_pqNtor self))
              Hs Mrv ltac:(lia) Hcols HM HNc) as (scn & ssn & -> & Hscn & Hssn).
  cbn [bind].
  destruct (rfft2D_returns fft tv _ _ (Some (_pqMpol self)) (Some (_pqNtor self))
              Hs Mtv ltac:(lia) Hcols HM HNc) as (tcn & tsn & -> & Htcn & Htsn).
  cbn [bind]. eexists. split; [reflexivity |].
  cbn [QFM.default] in *. unfold spectra_shape. auto.
Qed.

Lemma surface_short fft self pp qq st :
  fft_shapes fft -> runnable self qq ->
  arrays_shape (_MM self * _pqNtor self) (qq * _pqNtor self) st ->
  qq * _MM self * _pqNtor self / 2 < _pqMpol self ->
  surface fft self pp qq st = Raise Np.assign_error.
Proof.
  intros Hs Hrun Hst HM.
  destruct (surface_arrays fft self pp qq st Hs Hrun Hst) as (rv & tv & Mrv & Mtv & ->).
  destruct (runnable_sizes self qq Hrun) as (Hrows & Hcols & HNc).
  rewrite (rfft2D_short fft rv (qq * _MM self * _pqNtor self)
             (_MM self * _pqNtor self)); try assumption; try lia.
  reflexivity.
Qed.

(** *** The run, from the call of [action] *)

Section Outcome.

Variable fft : FFT.
Variable root :
  (list float -> result (list float)) -> list float -> string -> float ->
  result (list float * bool).
Variables np_cos np_sin : float -> float.
Variable str_float : float -> string.

(** The spacing [dt] of the target areas. *)
Definition area_step (self : QFM) (qq : Z) : float :=
  (Np.pi * 2 / float_of_Z qq / float_of_Z (_MM self * _pqNtor self))%float.

(** [action] after its set-up: the loop over the curves on zeroed
    accumulators, then the surface. *)
Lemma action_unfold self pp qq rguess method :
  runnable self qq ->
  let fM := _MM self * _pqNtor self in
  let qN := qq * _pqNtor self in
  let self' := install np_cos np_sin self qq qN (_MM self * qq * _pqNtor self)
                 (2 * Np.pi / float_of_Z fM)%float in
  exists st0,
    arrays_shape fM qN st0 /\
    action fft root np_cos np_sin str_float self pp qq rguess method =
    tbind (solve_curves
             (solve_curve fft root str_float self' pp qq qN rguess
                (area_step self qq) method)
             (range fM) st0)
          (fun st => lift (surface fft self' pp qq st)).
Proof.
  intros (Hq & HN & k & Hk & EM) fM qN self'.
  assert (HfM : 1 <= fM) by (unfold fM; nia).
  assert (HqN : 1 <= qN) by (unfold qN; nia).
  unfold action, fdiv. fold fM. fold qN.
  destruct (Z.eqb_spec qq 0); [lia |]. cbn [bind].
  destruct (Z.eqb_spec fM 0); [lia |]. cbn [bind].
  destruct (zeros2_ok fM (qN + 1) ltac:(lia) ltac:(lia)) as (z & -> & Hz).
  cbn [bind].
  destruct (zeros_ok fM ltac:(lia)) as (nv & -> & Hnv). cbn [bind].
  exists (Arrays z z z z nv). split; [unfold arrays_shape; cbn; auto |].
  unfold tbind at 1, lift at 1. fold self'. unfold area_step. fold fM.
  destruct (tbind _ _) as [tr res]. reflexivity.
Qed.

(** The calls of a run are those of its loop; the surface is built
    when the loop completes. *)
Lemma action_trace self pp qq rguess method :
  runnable self qq ->
  let fM := _MM self * _pqNtor self in
  let qN := qq * _pqNtor self in
  let self' := install np_cos np_sin self qq qN (_MM self * qq * _pqNtor self)
                 (2 * Np.pi / float_of_Z fM)%float in
  exists st0 tr r,
    arrays_shape fM qN st0 /\
    solve_curves
      (solve_curve fft root str_float self' pp qq qN rguess (area_step self qq) method)
      (map Z.of_nat (seq 0 (Z.to_nat fM))) st0 = (tr, r) /\
    action fft root np_cos np_sin str_float self pp qq rguess method =
    (tr, match r with
         | Ok st => surface fft self' pp qq st
         | Raise e => Raise e
         end).
Proof.
  intros Hrun fM qN self'.
  destruct (action_unfold self pp qq rguess method Hrun) as (st0 & Hst0 & E).
  fold fM qN self' in Hst0, E.
  destruct (solve_curves
              (solve_curve fft root str_float self' pp qq qN rguess
                 (area_step self qq) method)
              (map Z.of_nat (seq 0 (Z.to_nat fM))) st0) as [tr r] eqn:Eloop.
  exists st0, tr, r. split; [exact Hst0 |]. split; [exact Eloop |].
  rewrite E. unfold range. rewrite Eloop. unfold tbind, lift.
  destruct r as [st |]; [rewrite app_nil_r |]; reflexivity.
Qed.

Lemma installed_runnable self qq qN Nfft dz_ :
  runnable self qq -> runnable (install np_cos np_sin self qq qN Nfft dz_) qq.
Proof. intros H. exact H. Qed.

(** X17. When the root solver converges on every curve, to a vector of
    the size of its guess, and [pqMpol] does not exceed half the number
    [qq * MM * pqNtor] of poloidal samples, [action] returns: it makes
    exactly [fM = MM * pqNtor] solver calls, each from a guess of
    [4 * qN + 1] entries, and its four spectra have shape
    [(pqMpol + 1, 2 * pqNtor + 1)]. *)
Theorem action_returns self pp qq rguess method :
  fft_shapes fft -> runnable self qq ->
  0 <= _pqMpol self <= qq * _MM self * _pqNtor self / 2 ->
  (forall f x0 m t, exists x, root f x0 m t = Ok (x, true) /\ len x = len x0) ->
  exists trace out,
    action fft root np_cos np_sin str_float self pp qq rguess method
    = (trace, Ok out) /\
    len trace = _MM self * _pqNtor self /\
    Forall (fun c => len (call_x0 c) = 4 * (qq * _pqNtor self) + 1) trace /\
    spectra_shape self out.
Proof.
  intros Hs Hrun HM Hroot.
  destruct (action_trace self pp qq rguess method Hrun)
    as (st0 & tr & r & Hst0 & Eloop & ->).
  destruct (runnable_sizes self qq Hrun) as (_ & HfM & _).
  assert (HqN : 1 <= qq * _pqNtor self) by (destruct Hrun as (? & ? & _); nia).
  destruct (solve_curves_complete fft root str_float
              (install np_cos np_sin self qq (qq * _pqNtor self)
                 (_MM self * qq * _pqNtor self)
                 (2 * Np.pi / float_of_Z (_MM self * _pqNtor self))%float)
              pp qq (_MM self * _pqNtor self) (qq * _pqNtor self) rguess
              (area_step self qq) method (Z.to_nat (_MM self * _pqNtor self))
              HqN Hroot 0%nat st0 Hst0 ltac:(lia))
    as (tr' & st' & E' & Ltr & Hst' & Fx0).
  rewrite E' in Eloop. injection Eloop as <- <-.
  destruct (surface_ok fft
              (install np_cos np_sin self qq (qq * _pqNtor self)
                 (_MM self * qq * _pqNtor self)
                 (2 * Np.pi / float_of_Z (_MM self * _pqNtor self))%float)
              pp qq st' Hs (installed_runnable _ _ _ _ _ Hrun) Hst' HM)
    as (out & -> & Hout).
  exists tr', out. split; [reflexivity |].
  split; [unfold len; lia |]. split; [exact Fx0 | exact Hout].
Qed.

(** X18. With the same converging solver, a poloidal resolution
    [pqMpol] above half the number [qq * MM * pqNtor] of poloidal
    samples makes [action] raise [ValueError] in its final transform,
    after all the [fM] curves were solved. *)
Theorem action_resolution_error self pp qq rguess method :
  fft_shapes fft -> runnable self qq ->
  qq * _MM self * _pqNtor self / 2 < _pqMpol self ->
  (forall f x0 m t, exists x, root f x0 m t = Ok (x, true) /\ len x = len x0) ->
  exists trace,
    action fft root np_cos np_sin str_float self pp qq rguess method
    = (trace, Raise Np.assign_error) /\
    len trace = _MM self * _pqNtor self.
Proof.
  intros Hs Hrun HM Hroot.
  destruct (action_trace self pp qq rguess method Hrun)
    as (st0 & tr & r & Hst0 & Eloop & ->).
  destruct (runnable_sizes self qq Hrun) as (_ & HfM & _).
  assert (HqN : 1 <= qq * _pqNtor self) by (destruct Hrun as (? & ? & _); nia).
  destruct (solve_curves_complete fft root str_float
              (install np_cos np_sin self qq (qq * _pqNtor self)
                 (_MM self * qq * _pqNtor self)
                 (2 * Np.pi / float_of_Z (_MM self * _pqNtor self))%float)
              pp qq (_MM self * _pqNtor self) (qq * _pqNtor self) rguess
              (area_step self qq) method (Z.to_nat (_MM self * _pqNtor self))
              HqN Hroot 0%nat st0 Hst0 ltac:(lia))
    as (tr' & st' & E' & Ltr & Hst' & _).
  rewrite E' in Eloop. injection Eloop as <- <-.
  rewrite (surface_short fft _ pp qq st' Hs (installed_runnable _ _ _ _ _ Hrun) Hst' HM).
  exists tr'. split; [reflexivity | unfold len; lia].
Qed.

(** X19. The first solver call of a run starts from the circle of
    radius [rguess]: the packed guess is [1, rguess + 1, 1, ..., 1] with
    [4 * qN + 1] entries, that is a zero multiplier, [rcn = (rguess, 0,
    ..., 0)] and zero [tsn], [rsn] and [tcn]; its target area is
    [0 * dt]. *)
Theorem action_first_guess self pp qq rguess method :
  runnable self qq ->
  exists c rest res,
    action fft root np_cos np_sin str_float self pp qq rguess method
    = (c :: rest, res) /\
    call_a c = (0 * area_step self qq)%float /\
    call_x0 c =
    [1; rguess + 1]%float
      ++ repeat 1%float (Z.to_nat (4 * (qq * _pqNtor self) - 1)).
Proof.
  intros Hrun.
  destruct (action_trace self pp qq rguess method Hrun)
    as (st0 & tr & r & Hst0 & Eloop & ->).
  destruct (runnable_sizes self qq Hrun) as (_ & HfM & _).
  assert (HqN : 1 <= qq * _pqNtor self) by (destruct Hrun as (? & ? & _); nia).
  destruct (Z.to_nat (_MM self * _pqNtor self)) as [| n] eqn:En; [lia |].
  cbn [seq map solve_curves] in Eloop. unfold tbind in Eloop.
  destruct (solve_curve fft root str_float _ pp qq _ rguess _ method st0 (Z.of_nat 0))
    as [tr1 r1] eqn:E1.
  pose proof E1 as E1'. apply solve_curve_cases in E1.
  apply ActionFacts.solve_curve_trace in E1'.
  change (Z.of_nat 0) with 0 in *.
  rewrite guess_first in E1 by exact HqN.
  destruct E1 as [(_ & e & Eg & _) | (c & -> & Eg & _)]; [discriminate |].
  injection Eg as Hx0.
  destruct E1' as [[[=] _] | (c' & [= <-] & Ha & _)].
  assert (Htr : exists rest, tr = c :: rest).
  { destruct r1 as [st1 |].
    - destruct (solve_curves _ _ st1) as [tr2 r2]. injection Eloop as <- _.
      exists tr2. reflexivity.
    - injection Eloop as <- _. exists []. reflexivity. }
  destruct Htr as (rest & ->).
  eexists c, rest, _. split; [reflexivity |]. split; [exact Ha |].
  symmetry. exact Hx0.
Qed.

(** X20. Continuation: in a run, the guess of every solver call after a
    converged call with a solution [x] of [4 * qN + 1] entries is [x]
    unpacked and packed again with [tcn[0]] advanced by [dt]. *)
Theorem action_continuation self pp qq rguess method trace res pre c1 c2 post x :
  runnable self qq ->
  action fft root np_cos np_sin str_float self pp qq rguess method = (trace, res) ->
  trace = pre ++ c1 :: c2 :: post ->
  call_reply c1 = Ok (x, true) -> len x = 4 * (qq * _pqNtor self) + 1 ->
  exists d t0 tl,
    Codec._unpack_dof x = Ok d /\ Codec.tcn d = t0 :: tl /\
    call_x0 c2 =
    Codec._pack_dof (Codec.nv d) (Codec.rcn d) (Codec.tsn d) (Codec.rsn d)
      ((t0 + area_step self qq)%float :: tl).
Proof.
  intros Hrun Hact Htrace Hreply Hx.
  destruct (action_trace self pp qq rguess method Hrun)
    as (st0 & tr & r & Hst0 & Eloop & E).
  rewrite E in Hact. injection Hact as <- _.
  assert (HqN : 1 <= qq * _pqNtor self) by (destruct Hrun as (? & ? & _); nia).
  destruct (solve_curves_chain fft root str_float _ pp qq
              (_MM self * _pqNtor self) (qq * _pqNtor self) rguess
              (area_step self qq) method (Z.to_nat (_MM self * _pqNtor self))
              HqN 0%nat st0 tr r Hst0 ltac:(lia) Eloop) as [_ Hchain].
  apply (Hchain pre c1 c2 post x Htrace Hreply Hx).
Qed.

(** X21. An exception raised inside the root solver ends the run: if a
    solver call of a run raised, [action] raises the same exception, and
    that call is the last of the run. *)
Theorem action_solver_exception self pp qq rguess method trace res call e :
  runnable self qq ->
  action fft root np_cos np_sin str_float self pp qq rguess method = (trace, res) ->
  In call trace -> call_reply call = Raise e ->
  res = Raise e /\ exists earlier, trace = earlier ++ [call].
Proof.
  intros Hrun Hact Hin Hreply.
  destruct (action_trace self pp qq rguess method Hrun)
    as (st0 & tr & r & _ & Eloop & E).
  rewrite E in Hact. injection Hact as <- <-.
  destruct (solve_curves_exception fft root str_float _ pp qq _ rguess _ method
              _ st0 tr r Eloop call e Hin Hreply) as (-> & Hlast).
  split; [reflexivity | exact Hlast].
Qed.

(** X22. [action] prepares the object for the gradient evaluations of
    its own solver calls: on the object with the attributes installed,
    [action_gradient] in the mode of the object returns, for every vector
    of the [4 * qN + 1] entries of the guesses and every target area, a
    residual with as many entries, when the mode is ["real"] or
    ["fourier"]; for any other mode every evaluation raises the
    [ValueError]. *)
Theorem action_gradient_in_run self pp qq xx a :
  fft_shapes fft -> runnable self qq ->
  len xx = 4 * (qq * _pqNtor self) + 1 ->
  let self' :=
    install np_cos np_sin self qq (qq * _pqNtor self)
      (_MM self * qq * _pqNtor self)
      (2 * Np.pi / float_of_Z (_MM self * _pqNtor self))%float in
  (GradientFacts.recognised (_action_gradient_mode self) ->
   exists ff,
     action_gradient fft self' xx pp qq a (_action_gradient_mode self') = Ok ff /\
     len ff = len xx) /\
  (~ GradientFacts.recognised (_action_gradient_mode self) ->
   action_gradient fft self' xx pp qq a (_action_gradient_mode self') =
   Raise (ValueError "space should be 'real' or 'fourier' ")).
Proof.
  intros Hs Hrun Hxx self'.
  pose proof Hrun as (Hq & HN & k & Hk & EM).
  assert (HqN : 1 <= qq * _pqNtor self) by nia.
  assert (Hp : GradientFacts.prepared self' (qq * _pqNtor self))
    by (apply GradientFacts.install_prepared; lia).
  change (_action_gradient_mode self') with (_action_gradient_mode self).
  split.
  - intros Hmode.
    destruct (GradientFacts.action_gradient_returns fft self' xx pp qq a
                (_action_gradient_mode self) (qq * _pqNtor self)
                Hs HqN Hp Hxx ltac:(lia) Hmode) as (ff & E).
    exists ff. split; [exact E |].
    destruct (GradientFacts.action_gradient_inv fft self' xx pp qq a _ ff E)
      as (_ & _ & _ & _ & L & _). exact L.
  - intros Hmode.
    apply (GradientFacts.action_gradient_rejects fft self' xx pp qq a _
             (qq * _pqNtor self)); [exact HqN | exact Hxx | lia | exact Hmode].
Qed.

(** X23. Sizes that leave no curve to solve never reach the solver: [qq = 0] or
    [MM * pqNtor = 0] raises [ZeroDivisionError], and a negative
    [MM * pqNtor] raises the [ValueError] of [np.zeros], in each case
    with no call of the root solver. *)
Theorem action_rejects_sizes self pp qq rguess method :
  (qq = 0 \/ _MM self * _pqNtor self = 0 ->
   action fft root np_cos np_sin str_float self pp qq rguess method
   = ([], Raise ZeroDivisionError)) /\
  (qq <> 0 -> _MM self * _pqNtor self < 0 ->
   action fft root np_cos np_sin str_float self pp qq rguess method
   = ([], Raise Np.negative_dimensions)).
Proof.
  split.
  - intros H. unfold action, fdiv.
    destruct (Z.eqb_spec qq 0) as [_ | Hq]; [reflexivity |]. cbn [bind].
    destruct (Z.eqb_spec (_MM self * _pqNtor self) 0) as [_ | Hf]; [reflexivity |].
    lia.
  - intros Hq Hf. unfold action, fdiv.
    destruct (Z.eqb_spec qq 0); [contradiction |]. cbn [bind].
    destruct (Z.eqb_spec (_MM self * _pqNtor self) 0); [lia |]. cbn [bind].
    unfold Np.zeros2 at 1.
    destruct (Z.leb_spec 0 (_MM self * _pqNtor self)); [lia |]. reflexivity.
Qed.

End Outcome.

(** A solver object with one toroidal mode per period and one
    poloidal mode. *)
Definition sample_run : QFM :=
  __init__ Reference.uniform_field
    {| ntheta := None; nfft_multiplier := Some 1; pqNtor := Some 1;
       pqMpol := Some 1; action_gradient_mode := None |}.

Lemma sample_runnable : runnable sample_run 1.
Proof.
  unfold runnable. cbn. split; [lia |]. split; [lia |]. exists 1. lia.
Qed.

Lemma accept_converges :
  forall (f : list float -> result (list float)) x0 (m : string) (t : float),
  exists x, Reference.root_accept f x0 m t = Ok (x, true) /\ len x = len x0.
Proof. intros f x0 m t. exists x0. split; reflexivity. Qed.

Lemma action_returns_witness :
  exists trace out,
    action Reference.dft Reference.root_accept Reference.cos Reference.sin
      Reference.str_float sample_run 1 1 0.5 "hybr" = (trace, Ok out) /\
    len trace = 2 /\ spectra_shape sample_run out.
Proof.
  destruct (action_returns Reference.dft Reference.root_accept Reference.cos
              Reference.sin Reference.str_float sample_run 1 1 0.5 "hybr"
              dft_shapes sample_runnable ltac:(cbn; lia) accept_converges)
    as (trace & out & E & L & _ & Hout).
  exists trace, out. auto.
Defined.

Lemma action_resolution_error_witness :
  exists trace,
    action Reference.dft Reference.root_accept Reference.cos Reference.sin
      Reference.str_float StraightenFacts.sample_solver 1 1 0.5 "hybr"
    = (trace, Raise Np.assign_error) /\ len trace = 2.
Proof.
  assert (Hrun : runnable StraightenFacts.sample_solver 1).
  { unfold runnable. cbn. split; [lia |]. split; [lia |]. exists 1. lia. }
  exact (action_resolution_error Reference.dft Reference.root_accept Reference.cos
           Reference.sin Reference.str_float StraightenFacts.sample_solver 1 1 0.5
           "hybr" dft_shapes Hrun ltac:(cbn; lia) accept_converges).
Defined.

Lemma action_first_guess_witness :
  exists c rest res,
    action Reference.dft Reference.root_reject Reference.cos Reference.sin
      Reference.str_float sample_run 1 1 0.5 "hybr" = (c :: rest, res) /\
    call_x0 c = [1; 1.5; 1; 1; 1]%float.
Proof.
  destruct (action_first_guess Reference.dft Reference.root_reject Reference.cos
              Reference.sin Reference.str_float sample_run 1 1 0.5 "hybr"
              sample_runnable) as (c & rest & res & E & _ & Hx0).
  exists c, rest, res. split; [exact E |]. rewrite Hx0. reflexivity.
Defined.

Lemma action_continuation_witness :
  exists trace res c1 c2 x d t0 tl,
    action Reference.dft Reference.root_accept Reference.cos Reference.sin
      Reference.str_float sample_run 1 1 0.5 "hybr" = (trace, res) /\
    trace = [c1; c2] /\ call_reply c1 = Ok (x, true) /\
    Codec._unpack_dof x = Ok d /\ Codec.tcn d = t0 :: tl /\
    call_x0 c2 =
    Codec._pack_dof (Codec.nv d) (Codec.rcn d) (Codec.tsn d) (Codec.rsn d)
      ((t0 + area_step sample_run 1)%float :: tl).
Proof.
  destruct (action Reference.dft Reference.root_accept Reference.cos Reference.sin
              Reference.str_float sample_run 1 1 0.5 "hybr") as [trace res] eqn:E.
  assert (Ht : exists c1 c2,
            trace = [c1; c2] /\
            call_reply c1 = Ok ([1; 1.5; 1; 1; 1]%float, true)).
  { apply (f_equal fst) in E. vm_compute in E. subst trace.
    do 2 eexists. split; reflexivity. }
  destruct Ht as (c1 & c2 & Ht & Hreply).
  destruct (action_continuation Reference.dft Reference.root_accept Reference.cos
              Reference.sin Reference.str_float sample_run 1 1 0.5 "hybr" trace res
              [] c1 c2 [] [1; 1.5; 1; 1; 1]%float sample_runnable E Ht Hreply eq_refl)
    as (d & t0 & tl & Ed & Etc & Hx0).
  exists trace, res, c1, c2, [1; 1.5; 1; 1; 1]%float, d, t0, tl.
  repeat (split; [assumption || reflexivity |]). exact Hx0.
Defined.

Lemma action_rejects_sizes_witness :
  action Reference.dft Reference.root_accept Reference.cos Reference.sin
    Reference.str_float sample_run 1 0 0.5 "hybr" = ([], Raise ZeroDivisionError).
Proof.
  apply (action_rejects_sizes Reference.dft Reference.root_accept Reference.cos
           Reference.sin Reference.str_float sample_run 1 0 0.5 "hybr").
  left. reflexivity.
Defined.

(** A solver that raises at its first call. *)
Definition root_raise (f : list float -> result (list float)) (x0 : list float)
    (method : string) (tol : float) : result (list float * bool) :=
  Raise (ValueError "solver"%string).

Lemma action_solver_exception_witness :
  exists trace res call,
    action Reference.dft root_raise Reference.cos Reference.sin
      Reference.str_float sample_run 1 1 0.5 "hybr" = (trace, res) /\
    In call trace /\ res = Raise (ValueError "solver") /\
    exists earlier, trace = earlier ++ [call].
Proof.
  destruct (action Reference.dft root_raise Reference.cos Reference.sin
              Reference.str_float sample_run 1 1 0.5 "hybr") as [trace res] eqn:E.
  assert (Ht : exists c, trace = [c] /\ call_reply c = Raise (ValueError "solver")).
  { apply (f_equal fst) in E. vm_compute in E. subst trace.
    eexists. split; reflexivity. }
  destruct Ht as (c & Ht & Hreply).
  assert (Hin : In c trace) by (rewrite Ht; left; reflexivity).
  destruct (action_solver_exception Reference.dft root_raise Reference.cos
              Reference.sin Reference.str_float sample_run 1 1 0.5 "hybr"
              trace res c _ sample_runnable E Hin Hreply) as (Hres & Hlast).
  exists trace, res, c. auto.
Defined.

Lemma action_gradient_in_run_witness :
  exists ff,
    action_gradient Reference.dft
      (install Reference.cos Reference.sin sample_run 1 (1 * 1) (2 * 1 * 1)
         (2 * Np.pi / float_of_Z (2 * 1))%float)
      [1; 1.5; 1; 1; 1]%float 1 1 0 "real" = Ok ff /\
    len ff = 5.
Proof.
  destruct (action_gradient_in_run Reference.dft Reference.cos Reference.sin
              sample_run 1 1 [1; 1.5; 1; 1; 1]%float 0 dft_shapes sample_runnable
              eq_refl) as [H _].
  apply H. left. reflexivity.
Defined.

End ActionOutcome.

(** ** [straighten_boundary] at the edges *)

Module StraightenEdges.

Import Spectral QFM ListFacts NpFacts SpectralFacts MatrixFacts FloatFacts
  BoundaryFacts StraightenFacts.

(** X24. With [niter <= 0] no round is run and the field is never
    sampled: for non-negative [pqNtor] and [MM * pqNtor],
    [straighten_boundary] returns [iota = 0] and two all-zero spectra
    of shape [(pqNtor + 1, 2 * pqNtor + 1)], whatever the transforms, the
    field, [rho] and [tol] are. *)
Theorem straighten_boundary_no_round fft self rho tol niter :
  niter <= 0 -> 0 <= _pqNtor self -> 0 <= _MM self * _pqNtor self ->
  straighten_boundary fft self rho tol niter =
  Ok (0%float,
      repeat (repeat 0%float (Z.to_nat (2 * _pqNtor self + 1)))
             (Z.to_nat (_pqNtor self + 1)),
      repeat (repeat 0%float (Z.to_nat (2 * _pqNtor self + 1)))
             (Z.to_nat (_pqNtor self + 1))).
Proof.
  intros Hn HN HM. unfold straighten_boundary, prepare, Np.linspace, Np.zeros2.
  rewrite !guard_true
    by (try (apply andb_true_iff; split); apply Z.leb_le; lia).
  cbn [bind s_start]. replace (Z.to_nat niter) with 0%nat by lia.
  reflexivity.
Qed.

Lemma straighten_boundary_no_round_witness :
  straighten_boundary Reference.dft sample_solver 1 0x1p-30 0 =
  Ok (0%float, [[0; 0; 0]; [0; 0; 0]]%float, [[0; 0; 0]; [0; 0; 0]]%float).
Proof.
  rewrite (straighten_boundary_no_round Reference.dft sample_solver 1 0x1p-30 0)
    by (cbn; lia).
  reflexivity.
Defined.

(** X25. A solver with [pqNtor = 0] has no grid to transform: for
    [niter >= 1], [straighten_boundary] raises [IndexError] in its first
    round, where [irfft2D] writes the one coefficient into a padded
    array without columns. *)
Theorem straighten_boundary_no_modes fft self rho tol niter :
  _pqNtor self = 0 -> 1 <= niter ->
  straighten_boundary fft self rho tol niter = Raise IndexError.
Proof.
  intros HN Hn. unfold straighten_boundary, prepare. rewrite HN, Z.mul_0_r.
  cbn [Np.linspace Np.guard Z.leb Z.compare bind Np.zeros2 andb Z.add Z.mul
       Z.to_nat Pos.to_nat Pos.iter_op Nat.add repeat s_start].
  destruct (Z.to_nat niter) as [| n] eqn:En; [lia |].
  cbn [iterate]. unfold body at 1, round.
  cbn [s_mpol s_ntor s_nfft_theta s_nfft_zeta lambda_cn lambda_sn].
  reflexivity.
Qed.

Lemma straighten_boundary_no_modes_witness :
  straighten_boundary Reference.dft
    (__init__ Reference.uniform_field
       {| ntheta := None; nfft_multiplier := None; pqNtor := Some 0;
          pqMpol := None; action_gradient_mode := None |})
    1 0x1p-30 10 = Raise IndexError.
Proof.
  apply (straighten_boundary_no_modes Reference.dft); [reflexivity | lia].
Defined.

(** *** The mode (0, 0) *)

(** Spectra whose entry [(0, 0)] is zero. *)
Definition gauged (st : boundary) : Prop :=
  (exists row rest, lambda_cn st = (0%float :: row) :: rest) /\
  (exists row rest, lambda_sn st = (0%float :: row) :: rest).

Lemma zero_mode_gauged lam lam' :
  zero_mode lam = Ok lam' -> exists row rest, lam' = (0%float :: row) :: rest.
Proof.
  unfold zero_mode. intros H. unbind H as l0 E0. unbind H as l1 E1.
  apply setitem_keeps_tail in E1 as (row & -> & _).
  apply setitem_keeps_tail in H as (rest & -> & _). eauto.
Qed.

Lemma body_gauged fft self rho s st st' :
  body fft self rho s st = Ok st' -> gauged st'.
Proof.
  intros H. unfold body, round in H.
  unbind H as lambda_real E1. unbind H as th E2. unbind H as tarr E3.
  unbind H as coords E4. unbind H as Bs E5. unbind H as Bt E6.
  unbind H as Bz E7. unbind H as ratio E8. unbind H as cs E9.
  destruct cs as [cn sn].
  unbind H as cn0 E10. unbind H as iota' E11.
  unbind H as c1 C1. unbind H as s1 S1. unbind H as c2 C2. unbind H as s2 S2.
  unbind H as c3 C3. unbind H as s3 S3. injection H as <-.
  split; cbn [lambda_cn lambda_sn]; eapply zero_mode_gauged; eassumption.
Qed.

Lemma iterate_gauged step tol :
  (forall st st', step st = Ok st' -> gauged st') ->
  forall n st st', gauged st -> iterate step tol n st = Ok st' -> gauged st'.
Proof.
  intros Hstep. induction n as [| n IH]; intros st st' Hst H; cbn [iterate] in H.
  - injection H as <-. exact Hst.
  - unbind H as st1 E1. unbind H as errs E2. unbind H as stop E3.
    pose proof (Hstep _ _ E1) as H1.
    destruct stop; [injection H as <-; exact H1 | apply (IH st1); assumption].
Qed.

Lemma prepare_gauged self rho s : prepare self rho = Ok s -> gauged (s_start s).
Proof.
  unfold prepare. intros H. unbind H as zarr E1. unbind H as u E2.
  unbind H as lc E3. unbind H as ls E4. injection H as <-. cbn [s_start].
  assert (Hz : forall m, Np.zeros2 (_pqNtor self + 1) (2 * _pqNtor self + 1) = Ok m ->
                 exists row rest, m = (0%float :: row) :: rest).
  { intros m Em. unfold Np.zeros2 in Em.
    remember (Z.to_nat (_pqNtor self + 1)) as nr eqn:Er.
    remember (Z.to_nat (2 * _pqNtor self + 1)) as nc eqn:Ec.
    unbind Em as v Ev.
    apply guard_ok, andb_true_iff in Ev as [Hr Hc].
    apply Z.leb_le in Hr, Hc. injection Em as <-.
    destruct nr as [| r]; [lia |]. destruct nc as [| c]; [lia |].
    do 2 eexists. reflexivity. }
  split; cbn [lambda_cn lambda_sn]; apply Hz; assumption.
Qed.

(** X26. Whatever [straighten_boundary] returns, after any number of
    rounds, the mode [(0, 0)] of both [lambda] spectra is zero: the
    spectra start as zeros and every round ends with
    [lambda_cn[0, 0] = 0] and [lambda_sn[0, 0] = 0]. *)
Theorem straighten_boundary_zero_mode fft self rho tol niter iota_ sn cn :
  straighten_boundary fft self rho tol niter = Ok (iota_, sn, cn) ->
  (exists row rest, cn = (0%float :: row) :: rest) /\
  (exists row rest, sn = (0%float :: row) :: rest).
Proof.
  unfold straighten_boundary. intros H. unbind H as s Es. unbind H as st Est.
  assert (Hg : gauged st).
  { apply (iterate_gauged (body fft self rho s) tol (body_gauged fft self rho s)
             (Z.to_nat niter) (s_start s) st); [| exact Est].
    apply (prepare_gauged self rho). exact Es. }
  destruct st as [i lc ls]. injection H as _ <- <-.
  destruct Hg as [Hc Hsn]. cbn [lambda_cn lambda_sn] in *. auto.
Qed.

Lemma straighten_boundary_zero_mode_witness :
  exists iota_ sn cn,
    straighten_boundary Reference.dft sample_solver 1 0x1p-30 10 = Ok (iota_, sn, cn) /\
    (exists row rest, cn = (0%float :: row) :: rest) /\
    (exists row rest, sn = (0%float :: row) :: rest).
Proof.
  destruct (straighten_boundary_returns Reference.dft sample_solver 1 0x1p-30 10
              dft_shapes sample_configured) as (i & sn & cn & E).
  exists i, sn, cn. split; [exact E |].
  exact (straighten_boundary_zero_mode Reference.dft sample_solver 1 0x1p-30 10
           i sn cn E).
Defined.

(** *** The convergence test and NaN *)

Lemma ltb_nan_l x t : PrimFloat.is_nan x = true -> PrimFloat.ltb x t = false.
Proof.
  intros H. apply is_nan_spec in H. rewrite ltb_spec. unfold SFltb.
  rewrite H. reflexivity.
Qed.

Lemma ltb_nan_r x t : PrimFloat.is_nan t = true -> PrimFloat.ltb x t = false.
Proof.
  intros H. apply is_nan_spec in H. rewrite ltb_spec. unfold SFltb.
  rewrite H. destruct (Prim2SF x); reflexivity.
Qed.

(** X27. A NaN never passes for convergence: if one of the three
    changes of a round, or the tolerance, is NaN, the test
    [np.max([erriota, errcn, errsn]) < tol] is false, and the loop goes on
    to its next round. *)
Theorem converged_rejects_nan erriota errcn errsn tol :
  PrimFloat.is_nan erriota || PrimFloat.is_nan errcn
    || PrimFloat.is_nan errsn || PrimFloat.is_nan tol = true ->
  converged (erriota, errcn, errsn) tol = Ok false.
Proof.
  intros H. rewrite converged_spec. f_equal.
  apply orb_true_iff in H as [H | H]; [| rewrite !(ltb_nan_r _ _ H), !andb_false_r;
                                         reflexivity].
  apply orb_true_iff in H as [H | H]; [| rewrite (ltb_nan_l _ _ H), andb_false_r;
                                         reflexivity].
  apply orb_true_iff in H as [H | H].
  - rewrite (ltb_nan_l _ _ H). reflexivity.
  - rewrite (ltb_nan_l _ _ H), andb_false_r. reflexivity.
Qed.

Lemma converged_rejects_nan_witness :
  converged (0%float, PrimFloat.nan, 0%float) 1%float = Ok false.
Proof.
  apply (converged_rejects_nan 0%float PrimFloat.nan 0%float 1%float). reflexivity.
Defined.

End StraightenEdges.
